(** * Iterative masked-token decoding of [MaskGitTransformer]

    A shallow embedding of [MaskGitTransformer.generate] (score-ordered
    top-k masking) and [MaskGitTransformer.generate2] (the MaskGIT decode
    with clamped mask length and annealed noise) of
    [muse/modeling_transformer.py], together with the part of
    [MaskGitTransformer.forward] that the decoders can observe.

    Conventions.
    - A [LongTensor] of shape (batch, seq) is a [list (list Z)]; a float
      tensor of the decoders holds rationals ([Q]), so their float
      arithmetic is exact here.  Where rounding decides a statement (the
      guidance mix taken by itself, the pixels of [to_pil_image]) the
      floats are IEEE 754 binary32 numbers ([f32]).
    - [None] arguments are [option]s; Python exceptions are values of [exn].
    - The caller's [class_ids] tensor lives in a store of tensors indexed by
      object identity, because [class_ids += ...] updates it in place.
    - torch's ambient random state is a component of the [world].
    - Each call of [self(...)] is recorded in [passes], newest first.
    - Elementwise tensor operations are [zip_with]s; the shapes they are
      applied to agree whenever the transformer respects its shape contract
      ([layers_shape] below). *)

From Stdlib Require Import ZArith QArith Qround Lia SpecFloat.
From stdpp Require Import base option list strings pretty gmap fin_maps.

Definition grid := list (list Z).
Definition logits3 := list (list (list Q)).
Definition cond := list (list (list Q)).
Definition loc := positive.

(** ** Configuration ([register_to_config]) *)

Record config := {
  vocab_size : nat;
  codebook_size : nat;
  num_vq_tokens : nat;
  max_position_embeddings : nat;
  add_cross_attention : bool
}.

(** [self.register_to_config(mask_token_id=vocab_size - 1)] *)
Definition mask_token_id (cfg : config) : Z := Z.of_nat (vocab_size cfg) - 1.

(** ** What lies outside the two source files

    The transformer layer stack, torch's primitives with unspecified
    tie-breaking or randomness, and the helpers imported from
    [muse/sampling.py] ([top_k], [gumbel_sample], [mask_by_random_topk]);
    [cosine_schedule] is only a default value of the [noise_schedule]
    argument and needs no entry here. *)

Class Externals := {
  rng : Type;
  (* embed, transformer_layers, encoder_layer_norm and mlm_layer *)
  transformer_layers : config -> grid -> option cond -> logits3;
  (* softmax over the last dimension *)
  softmax : list Q -> list Q;
  (* torch.multinomial(p, 1) on one distribution *)
  multinomial : rng -> list Q -> nat * rng;
  (* tensor.topk(k).indices on one row *)
  topk_indices : nat -> list Q -> list nat;
  (* sampling.top_k on the last dimension *)
  top_k : list Q -> Q -> list Q;
  (* sampling.gumbel_sample on the last dimension *)
  gumbel_sample : rng -> list Q -> Q -> nat * rng;
  (* sampling.mask_by_random_topk(mask_len, probs, temperature) *)
  mask_by_random_topk :
    rng -> list Z -> list (list Q) -> Q -> list (list bool) * rng
}.

(** A tensor of shape (b, s). *)
Definition rect {A} (b s : nat) (g : list (list A)) : Prop :=
  length g = b /\ Forall (fun row => length row = s) g.

(** Every entry of a two-dimensional tensor satisfies [P]. *)
Definition all2 {A} (P : A -> Prop) (g : list (list A)) : Prop :=
  Forall (Forall P) g.

(** A tensor of shape (b, s, v). *)
Definition shape3 {A} (b s v : nat) (l : list (list (list A))) : Prop :=
  rect b s l /\ all2 (fun ch => length ch = v) l.

(** The contracts of the external functions that the proofs rely on. *)
Class ExternalsLaws (E : Externals) : Prop := {
  layers_shape : forall cfg b s ids c,
    rect b s ids -> shape3 b s (vocab_size cfg) (transformer_layers cfg ids c);
  multinomial_lt : forall r p,
    p <> [] -> (fst (multinomial r p) < length p)%nat;
  gumbel_sample_lt : forall r l t,
    l <> [] -> (fst (gumbel_sample r l t) < length l)%nat;
  softmax_length : forall l, length (softmax l) = length l;
  top_k_length : forall l t, length (top_k l t) = length l;
  mask_by_random_topk_shape : forall r ml probs t,
    Forall2 (fun m p => length m = length p)
            (fst (mask_by_random_topk r ml probs t)) probs
}.

(** ** The world: tensor store, ambient random state, forward passes *)

Record world `{Externals} := World {
  tensors : gmap loc (list Z);
  ambient : rng;
  passes : list (option grid * option cond)
}.

Inductive exn :=
| AttributeError | TypeError | ValueError | IndexError
| RuntimeError | UnboundLocalError.

Definition M `{Externals} (A : Type) : Type := world -> (exn + A) * world.

Definition ret `{Externals} {A} (a : A) : M A := fun w => (inr a, w).

Definition raise `{Externals} {A} (e : exn) : M A := fun w => (inl e, w).

Definition bind `{Externals} {A B} (m : M A) (k : A -> M B) : M B :=
  fun w =>
    match m w with
    | (inr a, w') => k a w'
    | (inl e, w') => (inl e, w')
    end.

Notation "'let*' x ':=' m 'in' k" := (bind m (fun x => k))
  (at level 10, x name, m at level 100, k at level 200).

Fixpoint mapM_M `{Externals} {A B} (f : A -> M B) (l : list A) : M (list B) :=
  match l with
  | [] => ret []
  | a :: l' => let* b := f a in let* bs := mapM_M f l' in ret (b :: bs)
  end.

(** A [for] loop over [xs] threading the local variables [st]. *)
Fixpoint for_each `{Externals} {A S} (body : A -> S -> M S) (xs : list A) (st : S)
  : M S :=
  match xs with
  | [] => ret st
  | x :: xs' => let* st' := body x st in for_each body xs' st'
  end.

(** Using a value that may be [None] as a tensor. *)
Definition as_tensor `{Externals} {A} (e : exn) (o : option A) : M A :=
  match o with
  | Some a => ret a
  | None => raise e
  end.

(** ** Tensor operations *)

Definition Qltb (a b : Q) : bool := negb (Qle_bool b a).

(** [torch.finfo(torch.float32).max] *)
Definition finfo_max : Q := 340282346638528859811704183484516925440 # 1.

(** [int(x)] on a float: truncation toward zero. *)
Definition Qtrunc (q : Q) : Z := Z.quot (Qnum q) (Zpos (Qden q)).

(** [torch.ones(shape, dtype=torch.long) * v] *)
Definition full {A} (b s : nat) (v : A) : list (list A) :=
  replicate b (replicate s v).

(** [torch.zeros_like] *)
Definition zeros_like (e : cond) : cond := map (map (map (fun _ => 0%Q))) e.

(** [t[..., :n]] *)
Definition truncate_channels (n : nat) (l : logits3) : logits3 :=
  map (map (take n)) l.

(** [t[:, 1:]] *)
Definition strip_first {A} (t : list (list A)) : list (list A) := map (drop 1) t.

(** [torch.cat([class_ids[:, None], input_ids], dim=1)] *)
Definition prepend_column (cs : list Z) (ids : grid) : grid := zip_with cons cs ids.

(** [input_ids == mask_token_id] *)
Definition is_mask_map (m : Z) (ids : grid) : list (list bool) :=
  map (map (fun t => Z.eqb t m)) ids.

(** [torch.where(c, a, b)] on equally shaped tensors *)
Definition where2 {A} (c : list (list bool)) (a b : list (list A)) : list (list A) :=
  zip_with (fun cr ab => zip_with (fun (ci : bool) (xy : A * A) =>
                                     if ci then fst xy else snd xy) cr ab)
           c (zip_with zip a b).

(** [torch.where(c, v, b)] with a scalar [v] *)
Definition where_scalar_l {A} (c : list (list bool)) (v : A) (b : list (list A))
  : list (list A) :=
  zip_with (zip_with (fun (ci : bool) y => if ci then v else y)) c b.

(** [torch.where(c, a, v)] with a scalar [v] *)
Definition where_scalar_r {A} (c : list (list bool)) (a : list (list A)) (v : A)
  : list (list A) :=
  zip_with (zip_with (fun (ci : bool) x => if ci then x else v)) c a.

(** [probs.gather(-1, ids[..., None]).squeeze(-1)] *)
Definition gather_last (probs : logits3) (ids : grid) : list (list Q) :=
  zip_with (zip_with (fun ch (i : Z) => default 0%Q (ch !! Z.to_nat i))) probs ids.

(** [row.scatter(indices, v)] on one row *)
Definition scatter_row {A} (idx : list nat) (v : A) (row : list A) : list A :=
  foldr (fun i r => <[i := v]> r) row idx.

(** [unknown_map.sum(dim=-1)] on one row *)
Definition count_true (l : list bool) : Z :=
  Z.of_nat (length (filter (fun b => b = true) l)).

(** [torch.linspace(0, 1, n)] for [0 <= n] *)
Definition linspace01 (n : Z) : list Q :=
  map (fun i => if (n =? 1)%Z then 0%Q else (inject_Z i / inject_Z (n - 1))%Q)
      (seqZ 0 n).

(** [a, b = tensor.chunk(2)]: chunks of [ceil(n / 2)] rows; a single row
    gives a single chunk, which cannot be unpacked into two names. *)
Definition chunk2 `{Externals} {A} (l : list A) : M (list A * list A) :=
  if (length l =? 1)%nat then raise ValueError
  else let h := Nat.div2 (S (length l)) in ret (take h l, drop h l).

(** [torch.stack] of a Python list of tensors; the list must not be empty. *)
Definition stack `{Externals} {A} (l : list A) : M (list A) :=
  match l with
  | [] => raise RuntimeError
  | _ => ret l
  end.

(** The guidance mixing step,
    [uncond_logits + guidance_scale * (cond_logits - uncond_logits)], in the
    exact arithmetic of the decoders; [guidance_mix_f32] below is the step
    with its rounding. *)
Definition guidance_mix (guidance_scale : Q) (cond_logits uncond_logits : logits3)
  : logits3 :=
  zip_with (zip_with (zip_with
    (fun c u => (u + guidance_scale * (c - u))%Q))) cond_logits uncond_logits.

(** ** float32

    An IEEE 754 binary32 number, with the operations of [SpecFloat] at 24
    bits of precision and exponents below 128: every result is rounded to
    the nearest float, ties to even. *)

Definition f32 := spec_float.

Definition f32_add : f32 -> f32 -> f32 := SFadd 24 128.
Definition f32_sub : f32 -> f32 -> f32 := SFsub 24 128.
Definition f32_mul : f32 -> f32 -> f32 := SFmul 24 128.
Definition f32_div : f32 -> f32 -> f32 := SFdiv 24 128.

(** A Python number with an integer value, as a float. *)
Definition f32_of_Z (z : Z) : f32 := binary_normalize 24 128 z 0 false.






Section Decoder.
Context `{E : Externals} (cfg : config).

(** ** [MaskGitTransformer.forward] at inference ([labels=None])

    The layer stack is the function [transformer_layers]: what it raises on
    conditioning that it cannot use is not part of this [forward] (the
    network further down has it), so what is said of a pass here is said of
    a pass that returns. *)

Definition log_pass (input_ids : option grid) (ehs : option cond) : M unit :=
  fun w => (inr tt, {| tensors := tensors w; ambient := ambient w;
                       passes := (input_ids, ehs) :: passes w |}).

Definition valid_embedding_index (ids : grid) : bool :=
  forallb (fun row =>
    forallb (fun t => (0 <=? t)%Z && (t <? Z.of_nat (vocab_size cfg))%Z) row
    && (length row <=? max_position_embeddings cfg)%nat) ids.

Definition forward (input_ids : option grid) (encoder_hidden_states : option cond)
  : M logits3 :=
  let* _ := log_pass input_ids encoder_hidden_states in
  if add_cross_attention cfg && negb (bool_decide (is_Some encoder_hidden_states))
  then raise ValueError
  else
    let* ids := as_tensor AttributeError input_ids in
    if valid_embedding_index ids
    then ret (transformer_layers cfg ids encoder_hidden_states)
    else raise IndexError.

(** ** The block shared by both decoders

    Lines 570-572 and 651-653: [class_ids += self.config.codebook_size]. *)
Definition shift_class_ids (class_ids : option loc) : M unit :=
  match class_ids with
  | Some l => fun w =>
      (inr tt, {| tensors := alter (map (Z.add (Z.of_nat (codebook_size cfg)))) l
                                   (tensors w);
                  ambient := ambient w; passes := passes w |})
  | None => ret tt
  end.

(** [len(class_ids) if class_ids is not None else encoder_hidden_states.shape[0]] *)
Definition get_batch_size (class_ids : option loc)
    (encoder_hidden_states : option cond) : M nat :=
  match class_ids with
  | Some l => fun w => (inr (length (tensors w !!! l)), w)
  | None => let* e := as_tensor AttributeError encoder_hidden_states in ret (length e)
  end.

(** Lines 575-576 and 656-657:
    [if input_ids is not None: input_ids = torch.ones(shape) * mask_token_id] *)
Definition init_input_ids (input_ids : option grid) (batch_size seq_len : nat)
  : option grid :=
  match input_ids with
  | Some _ => Some (full batch_size seq_len (mask_token_id cfg))
  | None => None
  end.

(** Lines 591-592 and 661-662: prepend the class token. *)
Definition prepend_class (class_ids : option loc) (input_ids : option grid)
  : M (option grid) :=
  match class_ids with
  | Some l =>
      let* ids := as_tensor TypeError input_ids in
      fun w => (inr (Some (prepend_column (tensors w !!! l) ids)), w)
  | None => ret input_ids
  end.

(** Lines 595-605 and 665-675: classifier free guidance. *)
Definition guided_logits (input_ids : option grid)
    (encoder_hidden_states : option cond) (guidance_scale : Q) : M logits3 :=
  match encoder_hidden_states with
  | Some e =>
      if Qltb 0 guidance_scale then
        let uncond_encoder_states := zeros_like e in
        let* ids := as_tensor TypeError input_ids in
        let model_input := ids ++ ids in
        let condition := e ++ uncond_encoder_states in
        let* out := forward (Some model_input) (Some condition) in
        let* cu := chunk2 out in
        let cond_logits := truncate_channels (codebook_size cfg) (fst cu) in
        let uncond_logits := truncate_channels (codebook_size cfg) (snd cu) in
        ret (guidance_mix guidance_scale cond_logits uncond_logits)
      else
        let* logits := forward input_ids encoder_hidden_states in
        ret (truncate_channels (codebook_size cfg) logits)
  | None =>
      let* logits := forward input_ids encoder_hidden_states in
      ret (truncate_channels (codebook_size cfg) logits)
  end.

(** Lines 608-610 and 678-680: remove the class token. *)
Definition strip_class {A B} (class_ids : option loc)
    (input_ids : list (list A)) (logits : list (list B))
  : list (list A) * list (list B) :=
  match class_ids with
  | Some _ => (strip_first input_ids, strip_first logits)
  | None => (input_ids, logits)
  end.

(** One draw along the last dimension; an empty dimension is an error. *)
Definition draw (sampler : rng -> list Q -> nat * rng) (p : list Q) : M Z :=
  match p with
  | [] => raise RuntimeError
  | _ => fun w =>
      let ir := sampler (ambient w) p in
      (inr (Z.of_nat (fst ir)),
       {| tensors := tensors w; ambient := snd ir; passes := passes w |})
  end.

(** ** [generate2] *)

(** The local variables of [generate2] that live across rounds. *)
Record locals2 := Locals2 {
  g2_input_ids : option grid;
  g2_temperature : Q;
  g2_sampled_ids : option grid;
  g2_logits : option logits3;
  g2_unknown_map : list (list bool);
  g2_mask_len : list Z
}.

(** Lines 701-706: the clamped number of tokens to mask, per batch row. *)
Definition clamp_mask_len (seq_len : nat) (mask_ratio : Q)
    (unknown_map : list (list bool)) : list Z :=
  let mask_len := Qfloor (inject_Z (Z.of_nat seq_len) * mask_ratio) in
  map (fun row => Z.max 1 (Z.min (count_true row - 1) mask_len)) unknown_map.

(** The body of [for step in range(timesteps)], lines 660-712. *)
Definition generate2_round (class_ids : option loc)
    (encoder_hidden_states : option cond) (timesteps : Z) (guidance_scale : Q)
    (noise_schedule : Q -> Q) (step : Z) (st : locals2) : M locals2 :=
  let seq_len := num_vq_tokens cfg in
  let* input_ids := prepend_class class_ids (g2_input_ids st) in
  let* logits := guided_logits input_ids encoder_hidden_states guidance_scale in
  let* input_ids := as_tensor TypeError input_ids in
  let il := strip_class class_ids input_ids logits in
  let input_ids := fst il in
  let logits := snd il in
  let* rows :=
    mapM_M (mapM_M (fun ch => draw multinomial (softmax ch))) logits in
  let* sampled_ids := stack rows in
  let unknown_map := is_mask_map (mask_token_id cfg) input_ids in
  let sampled_ids := where2 unknown_map sampled_ids input_ids in
  let ratio := (inject_Z (step + 1) / inject_Z timesteps)%Q in
  let mask_ratio := noise_schedule ratio in
  let probs := map (map softmax) logits in
  let selected_probs := gather_last probs sampled_ids in
  let selected_probs := where_scalar_r unknown_map selected_probs finfo_max in
  let mask_len := clamp_mask_len seq_len mask_ratio unknown_map in
  let temperature := (g2_temperature st * (1 - ratio))%Q in
  fun w =>
    let mr := mask_by_random_topk (ambient w) mask_len selected_probs temperature in
    let input_ids := where_scalar_l (fst mr) (mask_token_id cfg) sampled_ids in
    (inr {| g2_input_ids := Some input_ids;
            g2_temperature := temperature;
            g2_sampled_ids := Some sampled_ids;
            g2_logits := Some logits;
            g2_unknown_map := unknown_map;
            g2_mask_len := mask_len |},
     {| tensors := tensors w; ambient := snd mr; passes := passes w |}).

(** The locals on entry to the loop, lines 645-657. *)
Definition generate2_init (input_ids : option grid) (class_ids : option loc)
    (encoder_hidden_states : option cond) (temperature : Q) : M locals2 :=
  let seq_len := num_vq_tokens cfg in
  let* batch_size := get_batch_size class_ids encoder_hidden_states in
  let* _ := shift_class_ids class_ids in
  ret {| g2_input_ids := init_input_ids input_ids batch_size seq_len;
         g2_temperature := temperature;
         g2_sampled_ids := None;
         g2_logits := None;
         g2_unknown_map := [];
         g2_mask_len := [] |}.

(** The locals after the rounds [steps] of a call with [timesteps] rounds. *)
Definition generate2_rounds (input_ids : option grid) (class_ids : option loc)
    (encoder_hidden_states : option cond) (temperature : Q) (timesteps : Z)
    (guidance_scale : Q) (noise_schedule : Q -> Q) (steps : list Z) : M locals2 :=
  let* st := generate2_init input_ids class_ids encoder_hidden_states temperature in
  for_each (generate2_round class_ids encoder_hidden_states timesteps
              guidance_scale noise_schedule) steps st.

(** [generate2]; [generator] stands for the keyword arguments collected by
    [**kwargs], which the body never reads. *)
Definition generate2 (input_ids : option grid) (class_ids : option loc)
    (encoder_hidden_states : option cond) (temperature : Q) (timesteps : Z)
    (guidance_scale : Q) (noise_schedule : Q -> Q) (generator : option rng)
  : M grid :=
  let* st := generate2_rounds input_ids class_ids encoder_hidden_states temperature
          timesteps guidance_scale noise_schedule (seqZ 0 timesteps) in
  as_tensor UnboundLocalError (g2_sampled_ids st).

(** ** [generate] *)

(** The local variables of [generate] that live across rounds. *)
Record locals1 := Locals1 {
  g1_input_ids : option grid;
  g1_scores : list (list Q);
  g1_temperature : Q;
  g1_logits : option logits3
}.

(** [scores.topk(k, dim=-1).indices]; asking for more than the last
    dimension holds is an error.  An empty batch of scores still has
    [seq_len] columns. *)
Definition topk_rows (seq_len k : nat) (scores : list (list Q))
  : M (list (list nat)) :=
  let in_range :=
    match scores with
    | [] => (k <=? seq_len)%nat
    | _ => forallb (fun row => (k <=? length row)%nat) scores
    end in
  if in_range then ret (map (topk_indices k) scores) else raise RuntimeError.

(** The body of the [for timestep, steps_until_x0 in ...] loop, lines
    584-625; [temperature] is the caller's value ([starting_temperature]). *)
Definition generate_round (class_ids : option loc)
    (encoder_hidden_states : option cond) (temperature topk_filter_thres : Q)
    (timesteps : Z) (guidance_scale : Q) (noise_schedule : Q -> Q)
    (it : Q * Z) (st : locals1) : M locals1 :=
  let seq_len := num_vq_tokens cfg in
  let starting_temperature := temperature in
  let timestep := fst it in
  let steps_until_x0 := snd it in
  let rand_mask_prob := noise_schedule timestep in
  let num_token_masked :=
    Z.max (Qtrunc (rand_mask_prob * inject_Z (Z.of_nat seq_len))) 1 in
  let* masked_indices :=
    topk_rows seq_len (Z.to_nat num_token_masked) (g1_scores st) in
  let* input_ids := as_tensor AttributeError (g1_input_ids st) in
  let input_ids :=
    zip_with (fun idx row => scatter_row idx (mask_token_id cfg) row)
             masked_indices input_ids in
  let* input_ids := prepend_class class_ids (Some input_ids) in
  let* logits := guided_logits input_ids encoder_hidden_states guidance_scale in
  let* input_ids := as_tensor TypeError input_ids in
  let il := strip_class class_ids input_ids logits in
  let input_ids := fst il in
  let logits := snd il in
  let filtered_logits := map (map (fun ch => top_k ch topk_filter_thres)) logits in
  let temperature :=
    (starting_temperature * (inject_Z steps_until_x0 / inject_Z timesteps))%Q in
  let* pred_ids :=
    mapM_M (mapM_M (draw (fun r ch => gumbel_sample r ch temperature)))
           filtered_logits in
  let is_mask := is_mask_map (mask_token_id cfg) input_ids in
  let input_ids := where2 is_mask pred_ids input_ids in
  let probs_without_temperature := map (map softmax) logits in
  let scores :=
    map (map (fun p => (1 - p)%Q)) (gather_last probs_without_temperature pred_ids) in
  ret {| g1_input_ids := Some input_ids;
         g1_scores := scores;
         g1_temperature := temperature;
         g1_logits := Some logits |}.

(** The locals on entry to the loop, lines 564-579. *)
Definition generate_init (input_ids : option grid) (class_ids : option loc)
    (encoder_hidden_states : option cond) (temperature : Q) : M locals1 :=
  let seq_len := num_vq_tokens cfg in
  let* batch_size := get_batch_size class_ids encoder_hidden_states in
  let* _ := shift_class_ids class_ids in
  ret {| g1_input_ids := init_input_ids input_ids batch_size seq_len;
         g1_scores := full batch_size seq_len 0%Q;
         g1_temperature := temperature;
         g1_logits := None |}.

(** [zip(torch.linspace(0, 1, timesteps), reversed(range(timesteps)))];
    [torch.linspace] rejects a negative number of steps. *)
Definition generate_schedule (timesteps : Z) : M (list (Q * Z)) :=
  if (timesteps <? 0)%Z then raise RuntimeError
  else ret (zip (linspace01 timesteps) (reverse (seqZ 0 timesteps))).

(** The locals after the first [n] rounds of a call with [timesteps] rounds. *)
Definition generate_rounds (input_ids : option grid) (class_ids : option loc)
    (encoder_hidden_states : option cond) (temperature topk_filter_thres : Q)
    (timesteps : Z) (guidance_scale : Q) (noise_schedule : Q -> Q) (n : nat)
  : M locals1 :=
  let* st := generate_init input_ids class_ids encoder_hidden_states temperature in
  let* its := generate_schedule timesteps in
  for_each (generate_round class_ids encoder_hidden_states temperature
              topk_filter_thres timesteps guidance_scale noise_schedule)
           (take n its) st.

(** [generate]; it has no [**kwargs], so it takes no random source. *)
Definition generate (input_ids : option grid) (class_ids : option loc)
    (encoder_hidden_states : option cond) (temperature topk_filter_thres : Q)
    (timesteps : Z) (guidance_scale : Q) (noise_schedule : Q -> Q)
  : M (option grid) :=
  let* st := generate_rounds input_ids class_ids encoder_hidden_states temperature
               topk_filter_thres timesteps guidance_scale noise_schedule
               (Z.to_nat timesteps) in
  ret (g1_input_ids st).

(** ** The call made by [PipelineMuse.__call__]

    Lines 134-146 of [muse/pipeline_muse.py] pick the decoder by
    [use_maskgit_generate] and call it with the conditioning of
    [model_inputs] and five more keyword arguments.  Python binds keyword
    arguments against the signature before the body runs: a name that the
    function does not declare is a [TypeError] unless the function has
    [**kwargs]. *)

(** The parameters declared by [generate] (lines 551-562); no [**kwargs]. *)
Definition generate_parameters : list string :=
  ["input_ids"; "class_ids"; "encoder_hidden_states"; "temperature";
   "topk_filter_thres"; "can_remask_prev_masked"; "timesteps";
   "guidance_scale"; "noise_schedule"]%string.

(** The parameters declared by [generate2] (lines 629-639), which ends in
    [**kwargs]. *)
Definition generate2_parameters : list string :=
  ["input_ids"; "class_ids"; "encoder_hidden_states"; "temperature";
   "timesteps"; "guidance_scale"; "noise_schedule"]%string.

(** The keyword arguments of the call, lines 139-146; [model_inputs] holds
    either [class_ids] or [encoder_hidden_states] and [negative_embeds]. *)
Definition pipeline_keywords (class_conditioned : bool) : list string :=
  (if class_conditioned then ["class_ids"]
   else ["encoder_hidden_states"; "negative_embeds"])%string
  ++ ["timesteps"; "guidance_scale"; "temperature"; "topk_filter_thres";
      "generator"]%string.

Definition binds (parameters : list string) (has_kwargs : bool)
    (keywords : list string) : bool :=
  has_kwargs || forallb (fun k => bool_decide (k ∈ parameters)) keywords.

(** [cosine_schedule] is the default of [noise_schedule], which the
    pipeline leaves alone, as it does [input_ids]. *)
Definition pipeline_decode (cosine_schedule : Q -> Q)
    (use_maskgit_generate : bool) (class_ids : option loc)
    (encoder_hidden_states : option cond) (timesteps : Z)
    (guidance_scale temperature topk_filter_thres : Q) (generator : option rng)
  : M (option grid) :=
  let keywords := pipeline_keywords (bool_decide (is_Some class_ids)) in
  if use_maskgit_generate then
    if binds generate2_parameters true keywords then
      let* g := generate2 None class_ids encoder_hidden_states temperature
                  timesteps guidance_scale cosine_schedule generator in
      ret (Some g)
    else raise TypeError
  else
    if binds generate_parameters false keywords then
      generate None class_ids encoder_hidden_states temperature
        topk_filter_thres timesteps guidance_scale cosine_schedule
    else raise TypeError.

End Decoder.

(** * A small concrete backend

    Used to run the decoders on explicit inputs. *)
Module Toy.

(** Indices of a row ordered by ascending value, earlier positions first
    among equals. *)
Fixpoint insert_asc (x : Q * nat) (l : list (Q * nat)) : list (Q * nat) :=
  match l with
  | [] => [x]
  | y :: l' => if Qle_bool (fst x) (fst y) then x :: l else y :: insert_asc x l'
  end.

Definition argsort_asc (row : list Q) : list nat :=
  map snd (foldr insert_asc [] (imap (fun i x => (x, i)) row)).

Definition argsort_desc (row : list Q) : list nat :=
  argsort_asc (map Qopp row).

(** Logit of channel [v] at a position holding token [tok] in batch row [b]:
    the first entry of the conditioning embedding of that row tilts the
    distribution. *)
Definition bias (c : option cond) (b : nat) : Q :=
  match c with
  | Some e => match e !! b with
              | Some ((x :: _) :: _) => x
              | _ => 0%Q
              end
  | None => 0%Q
  end.

Definition channel (c : option cond) (b : nat) (tok : Z) (v : nat) : Q :=
  (bias c b * inject_Z (Z.of_nat v) + inject_Z tok)%Q.

Definition layers (cfg : config) (ids : grid) (c : option cond) : logits3 :=
  imap (fun b row =>
          map (fun tok => map (channel c b tok) (seq 0 (vocab_size cfg))) row) ids.

(** Mask the [m] positions of lowest confidence. *)
Definition lowest (m : Z) (p : list Q) : list bool :=
  let chosen := take (Z.to_nat m) (argsort_asc p) in
  imap (fun i _ => bool_decide (i ∈ chosen)) p.

#[export] Instance externals : Externals := {|
  rng := nat;
  transformer_layers := layers;
  softmax := fun l => l;
  multinomial := fun r p => (r mod length p, S r)%nat;
  topk_indices := fun k row => take k (argsort_desc row);
  top_k := fun l _ => l;
  gumbel_sample := fun r l _ => (r mod length l, S r)%nat;
  mask_by_random_topk := fun r ml probs _ =>
    (imap (fun b p => lowest (default 0%Z (ml !! b)) p) probs, S r)
|}.

Definition cfg : config := {|
  vocab_size := 6;        (* 3 codes, 2 classes, the mask token *)
  codebook_size := 3;
  num_vq_tokens := 4;
  max_position_embeddings := 5;
  add_cross_attention := false
|}.

Definition linear_schedule (t : Q) : Q := (1 - t)%Q.

Definition world0 (seed : nat) : world :=
  {| tensors := {[ 1%positive := [0%Z; 1%Z] ]}; ambient := seed; passes := [] |}.

Definition text : cond := [[[1%Q; 0%Q]]; [[2%Q; 1%Q]]].

End Toy.

(** * The vocabulary of the statements *)

Section Vocabulary.
Context `{E : Externals} (cfg : config).

(** A command that leaves the component [f] of the world alone, on every
    outcome. *)
Definition stable {X A} (f : world -> X) (m : M A) : Prop :=
  forall w, f (snd (m w)) = f w.

(** ** Codes and channels *)

(** A valid codebook index. *)
Definition valid_code (t : Z) : Prop := (0 <= t < Z.of_nat (codebook_size cfg))%Z.

(** Either [MASK_TOKEN_ID] or a valid codebook index. *)
Definition mask_or_code (t : Z) : Prop := t = mask_token_id cfg \/ valid_code t.

(** The number of channels left by [[..., :codebook_size]]. *)
Definition channels : nat := codebook_size cfg `min` vocab_size cfg.

(** A token that the embedding table can look up. *)
Definition in_vocab (t : Z) : Prop := (0 <= t < Z.of_nat (vocab_size cfg))%Z.

(** ** What a round is fed and what it records *)

(** The grid handed to the transformer in a round that starts from [ids]. *)
Definition fed_ids (class_ids : option loc) (ts : gmap loc (list Z)) (ids : grid)
  : grid :=
  match class_ids with
  | Some l => prepend_column (ts !!! l) ids
  | None => ids
  end.

(** [ratio = 1.0 * (step + 1) / timesteps] *)
Definition step_ratio (timesteps step : Z) : Q :=
  (inject_Z (step + 1) / inject_Z timesteps)%Q.

(** The passes a round may add to the record: the plain one, or the doubled
    batch of classifier free guidance. *)
Definition round_passes (class_ids : option loc) (ehs : option cond)
    (ids : grid) (w w' : world) : Prop :=
  let fed := fed_ids class_ids (tensors w) ids in
  passes w' = (Some fed, ehs) :: passes w \/
  exists e, ehs = Some e /\
    passes w' = (Some (fed ++ fed), Some (e ++ zeros_like e)) :: passes w.

(** A recorded pass whose rows start with the class tokens [cs]. *)
Definition class_fed (cs : list Z) (p : option grid * option cond) : Prop :=
  exists ids,
    fst p = Some (prepend_column cs ids) \/
    fst p = Some (prepend_column cs ids ++ prepend_column cs ids).

(** A round adds at most one pass to the record, and with [class_ids] the
    pass is fed the class tokens. *)
Definition round_world (class_ids : option loc) (w w' : world) : Prop :=
  tensors w' = tensors w /\
  (passes w' = passes w \/
   exists p, passes w' = p :: passes w /\
     forall l, class_ids = Some l -> class_fed (tensors w !!! l) p).

(** The logits of one forward pass on [fed] with conditioning [c], truncated
    to the codebook and with the class position removed. *)
Definition pass_logits (class_ids : option loc) (fed : grid) (c : option cond)
  : logits3 :=
  snd (strip_class class_ids fed
         (truncate_channels (codebook_size cfg) (transformer_layers cfg fed c))).

(** ** Entering and leaving a call *)

(** The batch size of a call. *)
Definition batch_of (class_ids : option loc) (ehs : option cond) (w : world) : nat :=
  match class_ids with
  | Some l => length (tensors w !!! l)
  | None => match ehs with Some e => length e | None => 0%nat end
  end.

(** The tensor store after [class_ids += codebook_size]. *)
Definition shifted (class_ids : option loc) (ts : gmap loc (list Z))
  : gmap loc (list Z) :=
  match class_ids with
  | Some l => alter (map (Z.add (Z.of_nat (codebook_size cfg)))) l ts
  | None => ts
  end.

(** The world after a call, on every outcome: the class ids are shifted in
    the store, and every pass added to the record was fed them. *)
Definition call_world (class_ids : option loc) (w w' : world) : Prop :=
  tensors w' = shifted class_ids (tensors w) /\
  exists new, passes w' = new ++ passes w /\
    forall l, class_ids = Some l ->
      Forall (class_fed (shifted class_ids (tensors w) !!! l)) new.

(** The class token takes one more position. *)
Definition class_columns (class_ids : option loc) : nat :=
  match class_ids with
  | Some _ => 1
  | None => 0
  end.

(** What a call needs, besides a grid for [input_ids], to run through: the
    mask token lies outside a non-empty codebook, some conditioning is
    given, cross attention has its encoder states, the positions fit the
    position table, the shifted class ids are vocabulary entries, and the
    batch is not empty. *)
Record call_ok (class_ids : option loc) (ehs : option cond) (w : world) : Prop := {
  ok_codebook : (0 < codebook_size cfg < vocab_size cfg)%nat;
  ok_conditioning : is_Some class_ids \/ is_Some ehs;
  ok_cross : add_cross_attention cfg = true -> is_Some ehs;
  ok_positions :
    (num_vq_tokens cfg + class_columns class_ids
     <= max_position_embeddings cfg)%nat;
  ok_classes : forall l, class_ids = Some l ->
    Forall in_vocab (shifted class_ids (tensors w) !!! l);
  ok_batch : (0 < batch_of class_ids ehs w)%nat
}.

(** The schedule never asks [generate] to mask more tokens than there are. *)
Definition schedule_ok (ns : Q -> Q) : Prop :=
  forall t,
    (Qtrunc (ns t * inject_Z (Z.of_nat (num_vq_tokens cfg)))
     <= Z.of_nat (num_vq_tokens cfg))%Z.

(** ** Invariants of the rounds *)

(** A recorded pass that was fed a grid of [b] rows of [num_vq_tokens]
    tokens, after the class tokens (if any) were put in front. *)
Definition fed_pass (class_ids : option loc) (ts : gmap loc (list Z)) (b : nat)
    (p : option grid * option cond) : Prop :=
  exists ids, rect b (num_vq_tokens cfg) ids /\
    (fst p = Some (fed_ids class_ids ts ids) \/
     fst p = Some (fed_ids class_ids ts ids ++ fed_ids class_ids ts ids)).

(** What holds of the world between rounds. *)
Definition world_inv (class_ids : option loc) (ts : gmap loc (list Z)) (b : nat)
    (P0 : list (option grid * option cond)) (w : world) : Prop :=
  tensors w = ts /\
  exists new, passes w = new ++ P0 /\ Forall (fed_pass class_ids ts b) new.

(** What holds of the locals of [generate2] and of the world between
    rounds. *)
Definition inv2 (class_ids : option loc) (ts : gmap loc (list Z)) (b : nat)
    (P0 : list (option grid * option cond)) (st : locals2) (w : world) : Prop :=
  world_inv class_ids ts b P0 w /\
  (forall ids, g2_input_ids st = Some ids ->
     rect b (num_vq_tokens cfg) ids /\ all2 mask_or_code ids) /\
  (forall g, g2_sampled_ids st = Some g ->
     rect b (num_vq_tokens cfg) g /\ all2 valid_code g).

(** What holds of the locals of [generate] and of the world between
    rounds. *)
Definition inv1 (class_ids : option loc) (ts : gmap loc (list Z)) (b : nat)
    (P0 : list (option grid * option cond)) (st : locals1) (w : world) : Prop :=
  world_inv class_ids ts b P0 w /\
  rect b (num_vq_tokens cfg) (g1_scores st) /\
  (forall ids, g1_input_ids st = Some ids ->
     rect b (num_vq_tokens cfg) ids /\ all2 mask_or_code ids).

(** After a round of [generate] no position is masked. *)
Definition decided1 (b : nat) (st : locals1) : Prop :=
  exists ids, g1_input_ids st = Some ids /\
    rect b (num_vq_tokens cfg) ids /\ all2 valid_code ids.

(** The logits a round samples from have one position per image token and
    no channel beyond the codebook. *)
Definition logits_ok (b : nat) (o : option logits3) : Prop :=
  forall lg, o = Some lg -> shape3 b (num_vq_tokens cfg) channels lg.

(** ** Guidance mixing and the clamped mask length *)

(** The entry of a three-dimensional tensor at [(i, j, k)]. *)
Definition at3 (t : logits3) (i j k : nat) : option Q :=
  match t !! i with
  | Some row => match row !! j with
                | Some ch => ch !! k
                | None => None
                end
  | None => None
  end.

(** Elementwise equality of float tensors, as rationals. *)
Definition tensor_eq (x y : logits3) : Prop := Forall2 (Forall2 (Forall2 Qeq)) x y.

(** The number of positions of a row that hold [MASK_TOKEN_ID]. *)
Definition unknown_count (row : list Z) : Z :=
  count_true (map (fun t => Z.eqb t (mask_token_id cfg)) row).

(** The bound [1 <= mask_len <= unknownCount - 1], row by row. *)
Definition progress_guarantee (ids : grid) (mask_len : list Z) : Prop :=
  Forall2 (fun row m => (1 <= m <= unknown_count row - 1)%Z) ids mask_len.

(** What [max(1, min(unknownCount - 1, mask_len))] guarantees, row by row. *)
Definition clamped (ids : grid) (mask_len : list Z) : Prop :=
  Forall2 (fun row m =>
             (1 <= m)%Z /\
             (2 <= unknown_count row -> m <= unknown_count row - 1)%Z /\
             (unknown_count row <= 1 -> m = 1)%Z) ids mask_len.

End Vocabulary.

(** * The rounds of the decoders, seen from outside *)

(** A small configuration with cross attention, for text-conditioned calls. *)
Definition toy_text_cfg : config := {|
  vocab_size := 6;
  codebook_size := 3;
  num_vq_tokens := 4;
  max_position_embeddings := 5;
  add_cross_attention := true
|}.

Section Rounds.
Context `{E : Externals} (cfg : config).

(** The forward pass of a round that feeds [fed]: the doubled batch with
    the zeroed embeddings appended when there are encoder states and
    [guidance_scale > 0], the plain batch otherwise. *)
Definition round_pass (ehs : option cond) (guidance_scale : Q) (fed : grid)
  : option grid * option cond :=
  match ehs with
  | Some e =>
      if Qltb 0 guidance_scale
      then (Some (fed ++ fed), Some (e ++ zeros_like e))
      else (Some fed, Some e)
  | None => (Some fed, None)
  end.

(** The entry of a two-dimensional tensor at [(i, j)]. *)
Definition at2 {A} (t : list (list A)) (i j : nat) : option A :=
  match t !! i with
  | Some row => row !! j
  | None => None
  end.

(** [(T - 1) * (T - 2) * ... * (T - n)] *)
Fixpoint falling (T : Z) (n : nat) : Z :=
  match n with
  | O => 1
  | S n' => (falling T n' * (T - Z.of_nat n))%Z
  end.

End Rounds.

(** * [PipelineMuse], [muse/pipeline_muse.py] *)

(** Exceptions beyond those of the decoders. *)
Inductive exception :=
| Builtin (e : exn)
| KeyError
| ZeroDivisionError
| Foreign (name : string).

(** Sequencing of computations that may raise. *)
Definition try {X A B} (m : X + A) (k : A -> X + B) : X + B :=
  match m with
  | inl e => inl e
  | inr a => k a
  end.

Notation "'let?' x ':=' m 'in' k" := (try m (fun x => k))
  (at level 10, x name, m at level 100, k at level 200).

(** A pure computation inside a call that has a world. *)
Definition lift `{Externals} {A} (r : exn + A) : M A := fun w => (r, w).

(** ** Views of a contiguous tensor *)

(** [k] consecutive pieces of [d] elements. *)
Fixpoint chunk {A} (k d : nat) (l : list A) : list (list A) :=
  match k with
  | O => []
  | S k' => take d l :: chunk k' d (drop d l)
  end.

(** The size of dimension 1; a tensor without rows has no columns here. *)
Definition dim1 {A} (t : list (list A)) : nat := length (default [] (head t)).

(** [t.repeat(1, n, 1)]: [n] copies side by side along dimension 1; a
    negative count is an error. *)
Definition repeat_dim1 (n : Z) (t : cond) : exn + cond :=
  if (n <? 0)%Z then inl RuntimeError
  else inr (map (fun row => concat (replicate (Z.to_nat n) row)) t).

(** [t.view(a, b, -1)]: the last size is inferred from the number of
    elements, which has to be a multiple of [a * b]; with [a * b = 0] the
    inferred size is ambiguous, which is an error. *)
Definition view_infer_last (a b : Z) (t : cond) : exn + cond :=
  let flat := concat (concat t) in
  let numel := Z.of_nat (length flat) in
  if (a <? 0)%Z || (b <? 0)%Z then inl RuntimeError
  else
    let newsize := (a * b)%Z in
    if (numel =? newsize)%Z || ((0 <? newsize)%Z && (numel mod newsize =? 0)%Z)
    then
      if (newsize =? 0)%Z then inl RuntimeError
      else inr (chunk (Z.to_nat a) (Z.to_nat b)
                  (chunk (Z.to_nat newsize) (Z.to_nat (numel / newsize)) flat))
    else inl RuntimeError.

(** Lines 119-121 and 123-127: duplicate text embeddings for each
    generation per prompt. *)
Definition duplicate_per_prompt (encoder_hidden_states : cond)
    (num_images_per_prompt : Z) : exn + cond :=
  let bs_embed := Z.of_nat (length encoder_hidden_states) in
  let seq_len := Z.of_nat (dim1 encoder_hidden_states) in
  let? encoder_hidden_states :=
    repeat_dim1 num_images_per_prompt encoder_hidden_states in
  view_infer_last (bs_embed * num_images_per_prompt) seq_len encoder_hidden_states.

(** [t.repeat_interleave(n, dim=0)] on a one-dimensional tensor. *)
Definition repeat_interleave {A} (n : Z) (t : list A) : exn + list A :=
  if (n <? 0)%Z then inl RuntimeError
  else inr (concat (map (replicate (Z.to_nat n)) t)).

(** ** [to_pil_image] *)

Definition map3 {A B} (f : A -> B) (t : list (list (list A)))
  : list (list (list B)) := map (map (map f)) t.

(** The entry of a three-dimensional array at [(i, j, k)]. *)
Definition entry3 {A} (t : list (list (list A))) (i j k : nat) : option A :=
  match t !! i with
  | Some plane => at2 plane j k
  | None => None
  end.

(** A float32 image tensor of shape (c, h, w), or array of shape (h, w, c). *)
Definition image32 := list (list (list f32)).

(** [image.permute(1, 2, 0)] on a tensor of shape (c, h, w). *)
Definition permute_1_2_0 (image : image32) : image32 :=
  let h := length (default [] (head image)) in
  let w := dim1 (default [] (head image)) in
  map (fun i =>
         map (fun j => map (fun ch => default (S754_zero false) (at2 ch i j)) image)
             (seq 0 w))
      (seq 0 h).

(** [np.maximum] and [np.minimum]: a NaN on either side gives NaN. *)
Definition np_maximum (x y : f32) : f32 :=
  match SFcompare x y with
  | Some Lt => y
  | Some _ => x
  | None => S754_nan
  end.

Definition np_minimum (x y : f32) : f32 :=
  match SFcompare x y with
  | Some Gt => y
  | Some _ => x
  | None => S754_nan
  end.

(** [np.clip(x, lo, hi)], which is [minimum(maximum(x, lo), hi)] *)
Definition np_clip (x lo hi : f32) : f32 := np_minimum (np_maximum x lo) hi.

(** The integer part of a finite float, toward zero. *)
Definition f32_trunc (x : f32) : option Z :=
  match x with
  | S754_zero _ => Some 0%Z
  | S754_finite s m e =>
      let a := match e with
               | Zneg p => Z.shiftr (Zpos m) (Zpos p)
               | _ => Z.shiftl (Zpos m) e
               end in
      Some (if s then (- a)%Z else a)
  | S754_infinity _ | S754_nan => None
  end.

(** [x.astype(np.uint8)] on a float: the fraction is dropped, and a value
    outside 0..255 wraps around.  The cast of an infinity or a NaN is left
    open by C; it is 0 here, as on x86. *)
Definition astype_uint8 (x : f32) : Z :=
  match f32_trunc x with
  | Some z => (z mod 256)%Z
  | None => 0%Z
  end.

(** Lines 155-159: the array handed to [Image.fromarray]; the Python
    numbers [2.0], [1.0], [-1.0] and [255] take the type of the array. *)
Definition to_pil_array (image : image32) : list (list (list Z)) :=
  let image := permute_1_2_0 image in
  let image :=
    map3 (fun x => f32_sub (f32_mul (f32_of_Z 2) x) (f32_of_Z 1)) image in
  let image := map3 (fun x => np_clip x (f32_of_Z (-1)) (f32_of_Z 1)) image in
  let image := map3 (fun x => f32_div (f32_add x (f32_of_Z 1)) (f32_of_Z 2)) image in
  map3 (fun x => astype_uint8 (f32_mul (f32_of_Z 255) x)) image.

(** ** What the pipeline calls *)

Inductive str_or_list := Str (s : string) | StrList (l : list string).
Inductive int_or_list := Int (i : Z) | IntList (l : list Z).

(** Keyword arguments and configuration dictionaries. *)
Definition kwargs := gmap string string.

Class PipelineExternals `{Externals} := {
  Tokenizer : Type;
  TextEncoder : Type;
  VAE : Type;
  Transformer : Type;
  Image : Type;
  (* tokenizer(text, return_tensors="pt", padding="max_length",
     truncation=True, max_length=...).input_ids *)
  tokenize : Tokenizer -> list string -> M grid;
  (* text_encoder(input_ids).last_hidden_state *)
  encode_text : TextEncoder -> grid -> M cond;
  (* the configuration of the transformer, whose generate and generate2 are
     the decoders above *)
  transformer_config : Transformer -> config;
  (* sampling.cosine_schedule, the default noise schedule *)
  cosine_schedule : Q -> Q;
  (* vae.decode_code(generated_tokens): one (c, h, w) tensor per image *)
  decode_code : VAE -> option grid -> M (list image32);
  (* Image.fromarray(array).convert("RGB") *)
  Image_fromarray_convert : list (list (list Z)) -> Image;
  (* the loaders of transformers and of muse's model classes *)
  CLIPTextModel_from_pretrained : kwargs -> exception + TextEncoder;
  T5EncoderModel_from_pretrained : kwargs -> exception + TextEncoder;
  AutoTokenizer_from_pretrained : kwargs -> exception + Tokenizer;
  MaskGitTransformer_load_config : kwargs -> exception + gmap string string;
  MaskGitTransformer_from_pretrained : kwargs -> exception + Transformer;
  MaskGiTUViT_from_pretrained : kwargs -> exception + Transformer;
  MaskGitVQGAN_load_config : kwargs -> exception + gmap string string;
  VQGANModel_from_pretrained : kwargs -> exception + VAE;
  MaskGitVQGAN_from_pretrained : kwargs -> exception + VAE;
  MOVQ_from_pretrained : kwargs -> exception + VAE
}.

Section Pipeline.
Context `{E : Externals} `{P : !PipelineExternals}.

(** [PipelineMuse.__init__] stores its arguments. *)
Record PipelineMuse := {
  text_encoder : option TextEncoder;
  tokenizer : option Tokenizer;
  vae : VAE;
  transformer : Transformer;
  is_class_conditioned : bool
}.

Definition to_pil_image (image : image32) : Image :=
  Image_fromarray_convert (to_pil_array image).

(** [torch.tensor(values, dtype=torch.long)]: a new tensor. *)
Definition new_tensor (values : list Z) : M loc := fun w =>
  let l := fresh (dom (tensors w)) in
  (inr l, {| tensors := <[l := values]> (tensors w);
             ambient := ambient w; passes := passes w |}).

(** Lines 92-100 and 106-114: tokenize and encode.  The keyword argument
    [max_length=self.tokenizer.model_max_length] is evaluated before the
    tokenizer is called. *)
Definition encode_prompts (self : PipelineMuse) (text : str_or_list) : M cond :=
  let text := match text with
              | Str s => [s]
              | StrList l => l
              end in
  let* tok := as_tensor AttributeError (tokenizer self) in
  let* input_ids := tokenize tok text in
  let* enc := as_tensor TypeError (text_encoder self) in
  encode_text enc input_ids.

(** Lines 80-132: [model_inputs], as the conditioning that reaches the
    decoder.  [negative_embeds] is computed and passed on as a keyword
    argument (see [pipeline_keywords]). *)
Definition model_inputs (self : PipelineMuse) (text negative_text : option str_or_list)
    (class_ids : option int_or_list) (num_images_per_prompt : Z)
  : M (option loc * option cond) :=
  match text, class_ids with
  | None, None => raise ValueError
  | Some _, Some _ => raise ValueError
  | None, Some class_ids =>
      let class_ids := match class_ids with
                       | Int i => [i]
                       | IntList l => l
                       end in
      let* class_ids := lift (repeat_interleave num_images_per_prompt class_ids) in
      let* class_ids := new_tensor class_ids in
      ret (Some class_ids, None)
  | Some text, None =>
      let* encoder_hidden_states := encode_prompts self text in
      let* negative_encoder_hidden_states :=
        match negative_text with
        | Some negative_text =>
            let* n := encode_prompts self negative_text in ret (Some n)
        | None => ret None
        end in
      let* encoder_hidden_states :=
        lift (duplicate_per_prompt encoder_hidden_states num_images_per_prompt) in
      let* negative_encoder_hidden_states :=
        match negative_encoder_hidden_states with
        | Some n =>
            let* n := lift (duplicate_per_prompt n num_images_per_prompt) in
            ret (Some n)
        | None => ret None
        end in
      ret (None, Some encoder_hidden_states)
  end.

(** [PipelineMuse.__call__], lines 60-152; [use_fp16] only selects the
    precision of the arithmetic. *)
Definition PipelineMuse_call (self : PipelineMuse)
    (text negative_text : option str_or_list) (class_ids : option int_or_list)
    (timesteps : Z) (guidance_scale temperature topk_filter_thres : Q)
    (num_images_per_prompt : Z) (use_maskgit_generate : bool)
    (generator : option rng) (use_fp16 : bool) : M (list Image) :=
  let* inputs := model_inputs self text negative_text class_ids
                   num_images_per_prompt in
  let* generated_tokens :=
    pipeline_decode (transformer_config (transformer self)) cosine_schedule
      use_maskgit_generate (fst inputs) (snd inputs) timesteps guidance_scale
      temperature topk_filter_thres generator in
  let* images := decode_code (vae self) generated_tokens in
  ret (map to_pil_image images).

(** ** [PipelineMuse.from_pretrained], lines 164-237 *)

Definition path_args (path : string) : kwargs :=
  {[ "pretrained_model_name_or_path"%string := path ]}.

Definition subfolder_args (path subfolder : string) : kwargs :=
  {[ "pretrained_model_name_or_path"%string := path; "subfolder"%string := subfolder ]}.

(** [d[key]] *)
Definition getitem (d : gmap string string) (key : string) : exception + string :=
  match d !! key with
  | Some v => inr v
  | None => inl KeyError
  end.

(** A local variable that may not have been assigned. *)
Definition bound {A} (o : option A) : exception + A :=
  match o with
  | Some a => inr a
  | None => inl (Builtin UnboundLocalError)
  end.

(** ["clip" in s] *)
Definition contains (sub s : string) : bool :=
  bool_decide (is_Some (String.index 0 sub s)).

Definition from_pretrained (model_name_or_path text_encoder_path vae_path
    transformer_path : option string) (is_class_conditioned : bool)
  : exception + PipelineMuse :=
  let? args :=
    match model_name_or_path with
    | None =>
        match text_encoder_path, vae_path, transformer_path with
        | Some text_encoder_path, Some vae_path, Some transformer_path =>
            let text_encoder_args :=
              if negb is_class_conditioned
              then Some (path_args text_encoder_path) else None in
            let tokenizer_args :=
              if negb is_class_conditioned
              then Some (path_args text_encoder_path) else None in
            inr (text_encoder_args, tokenizer_args,
                 path_args vae_path, path_args transformer_path)
        | _, _, _ => inl (Builtin ValueError)
        end
    | Some model_name_or_path =>
        let text_encoder_args :=
          if negb is_class_conditioned
          then Some (subfolder_args model_name_or_path "text_encoder") else None in
        let tokenizer_args :=
          if negb is_class_conditioned
          then Some (subfolder_args model_name_or_path "text_encoder") else None in
        inr (text_encoder_args, tokenizer_args,
             subfolder_args model_name_or_path "vae",
             subfolder_args model_name_or_path "transformer")
    end in
  let '(text_encoder_args, tokenizer_args, vae_args, transformer_args) := args in
  (* text_encoder and tokenizer are assigned in this branch only *)
  let? encoder_locals :=
    if negb is_class_conditioned then
      let? text_encoder_args :=
        match text_encoder_args with
        | Some a => inr a
        | None => inl (Builtin TypeError)
        end in
      let? name := getitem text_encoder_args "pretrained_model_name_or_path" in
      let is_clip := contains "clip" name in
      let text_encoder_cls :=
        if is_clip then CLIPTextModel_from_pretrained
        else T5EncoderModel_from_pretrained in
      let? text_encoder := text_encoder_cls text_encoder_args in
      let? tokenizer_args :=
        match tokenizer_args with
        | Some a => inr a
        | None => inl (Builtin TypeError)
        end in
      let? tokenizer := AutoTokenizer_from_pretrained tokenizer_args in
      inr (Some text_encoder, Some tokenizer)
    else inr (None, None) in
  let? transformer_config := MaskGitTransformer_load_config transformer_args in
  let? class_name := getitem transformer_config "_class_name" in
  let? transformer :=
    if String.eqb class_name "MaskGitTransformer"
    then MaskGitTransformer_from_pretrained transformer_args
    else if String.eqb class_name "MaskGiTUViT"
    then MaskGiTUViT_from_pretrained transformer_args
    else inl (Builtin ValueError) in
  let? vae_config := MaskGitVQGAN_load_config vae_args in
  let? class_name := getitem vae_config "_class_name" in
  let? vae :=
    if String.eqb class_name "VQGANModel"
    then VQGANModel_from_pretrained vae_args
    else if String.eqb class_name "MaskGitVQGAN"
    then MaskGitVQGAN_from_pretrained vae_args
    else if String.eqb class_name "MOVQ"
    then MOVQ_from_pretrained vae_args
    else inl (Builtin ValueError) in
  let? text_encoder := bound (fst encoder_locals) in
  let? tokenizer := bound (snd encoder_locals) in
  inr {| vae := vae; transformer := transformer;
         text_encoder := Some text_encoder; tokenizer := Some tokenizer;
         is_class_conditioned := is_class_conditioned |}.

End Pipeline.

(** A small concrete pipeline around the small backend. *)
#[export] Instance toy_pipeline : PipelineExternals (H := Toy.externals) := {|
  Tokenizer := unit;
  TextEncoder := unit;
  VAE := unit;
  Transformer := config;
  Image := list (list (list Z));
  tokenize := fun _ text => ret (map (fun s => [Z.of_nat (String.length s)]) text);
  encode_text := fun _ ids => ret (map (map (fun t => [inject_Z t; 1%Q])) ids);
  transformer_config := fun c => c;
  cosine_schedule := Toy.linear_schedule;
  decode_code := fun _ tokens =>
    ret (map (fun row => [[map (fun t => f32_div (f32_of_Z t) (f32_of_Z 2)) row]])
             (default [] tokens));
  Image_fromarray_convert := fun a => a;
  CLIPTextModel_from_pretrained := fun _ => inr tt;
  T5EncoderModel_from_pretrained := fun _ => inr tt;
  AutoTokenizer_from_pretrained := fun _ => inr tt;
  MaskGitTransformer_load_config := fun _ =>
    inr {[ "_class_name"%string := "MaskGitTransformer"%string ]};
  MaskGitTransformer_from_pretrained := fun _ => inr Toy.cfg;
  MaskGiTUViT_from_pretrained := fun _ => inl (Foreign "OSError");
  MaskGitVQGAN_load_config := fun _ =>
    inr {[ "_class_name"%string := "VQGANModel"%string ]};
  VQGANModel_from_pretrained := fun _ => inr tt;
  MaskGitVQGAN_from_pretrained := fun _ => inl (Foreign "OSError");
  MOVQ_from_pretrained := fun _ => inl (Foreign "OSError")
|}.

Definition toy_pipe : PipelineMuse (P := toy_pipeline) :=
  @Build_PipelineMuse Toy.externals toy_pipeline (Some tt) (Some tt) tt Toy.cfg false.

(** * The network, [muse/modeling_transformer.py] lines 42-549

    Parameter tensors, and the random numbers that initialise them, stay
    outside the model: a primitive module ([nn.Linear], a norm, dropout) is
    its place in the module tree and its sizes, and what it computes is
    taken from [Kernels].  The tables of [nn.Embedding] are explicit, since
    looking a row up is exact.  Sizes are natural numbers.  A tensor
    without rows carries no further sizes.

    The [forward] of the decoders above is the part of
    [MaskGitTransformer.forward] that they can observe, with the layer
    stack as one function; here the stack is spelled out, including the
    attributes that [__init__] sets under a condition only. *)

Definition tensor4 := list (list (list (list Q))).
Definition mask4 := list (list (list (list bool))).

(** ** Broadcasting *)

Fixpoint mapM_e {X A B} (f : A -> X + B) (l : list A) : X + list B :=
  match l with
  | [] => inr []
  | a :: l' => let? b := f a in let? bs := mapM_e f l' in inr (b :: bs)
  end.

(** One dimension of torch's broadcasting: equal sizes go pairwise, a size
    of 1 is stretched, anything else is an error. *)
Definition broadcast {A B C} (f : A -> B -> exn + C) (x : list A) (y : list B)
  : exn + list C :=
  if (length x =? length y)%nat
  then mapM_e (fun p => f (fst p) (snd p)) (zip x y)
  else match x, y with
       | [a], _ => mapM_e (f a) y
       | _, [b] => mapM_e (fun a => f a b) x
       | _, _ => inl RuntimeError
       end.

(** An elementwise binary operation on two three-dimensional tensors. *)
Definition broadcast3 {A B C} (f : A -> B -> C)
    (x : list (list (list A))) (y : list (list (list B)))
  : exn + list (list (list C)) :=
  broadcast (broadcast (broadcast (fun a b => inr (f a b)))) x y.

(** ** Primitive modules *)

Record Linear := {
  lin_name : string;
  in_features : nat;
  out_features : nat;
  lin_bias : bool
}.

(** [LayerNorm] (lines 92-100) and [RMSNorm] (lines 74-88). *)
Inductive Norm :=
| LayerNorm (name : string) (dim : nat) (eps : Q) (use_bias : bool)
| RMSNorm (name : string) (normalized_shape : nat) (eps : Q).

Definition norm_dim (n : Norm) : nat :=
  match n with
  | LayerNorm _ dim _ _ => dim
  | RMSNorm _ dim _ => dim
  end.

(** [norm_cls = partial(LayerNorm, use_bias=use_bias)
               if norm_type == "layernorm" else RMSNorm] *)
Definition norm_cls (norm_type : string) (use_bias : bool)
    (name : string) (dim : nat) (eps : Q) : Norm :=
  if String.eqb norm_type "layernorm" then LayerNorm name dim eps use_bias
  else RMSNorm name dim eps.

(** [nn.Dropout(p)]: torch raises [ValueError] for a probability outside
    [0, 1]; the module is its probability. *)
Definition nn_Dropout (p : Q) : exception + Q :=
  if Qltb p 0 || Qltb 1 p then inl (Builtin ValueError) else inr p.

Class Kernels `{Externals} := {
  (* nn.Linear.forward *)
  Linear_forward : Linear -> cond -> M cond;
  (* LayerNorm.forward, RMSNorm.forward *)
  Norm_forward : Norm -> cond -> M cond;
  (* nn.Dropout(p).forward *)
  Dropout_forward : Q -> cond -> M cond;
  (* F.gelu *)
  gelu : Q -> Q;
  (* the weight of nn.Embedding(n, d) *)
  Embedding_weight : string -> nat -> nat -> list (list Q);
  (* Attention.attention (lines 166-186) for num_heads, head_dim, dropout *)
  Attention_attention :
    nat -> nat -> Q -> tensor4 -> tensor4 -> tensor4 -> option mask4 -> M cond;
  (* xops.memory_efficient_attention *)
  xops_memory_efficient_attention : tensor4 -> tensor4 -> tensor4 -> M tensor4;
  (* tensor.uniform_(0, 1) on n elements *)
  uniform_ : rng -> nat -> list Q * rng;
  (* F.cross_entropy(logits.view(-1, vocab_size), labels.view(-1),
     ignore_index=-100, label_smoothing=label_smoothing) *)
  cross_entropy : logits3 -> grid -> Q -> M Q;
  (* nn.init.trunc_normal_(weight, std=std): whether it returns, or the
     exception it raises (torch divides by std) *)
  trunc_normal_ : Q -> exception + unit
}.

(** A tensor of shape (b, s, n, d). *)
Definition shape4 {A} (b s n d : nat) (t : list (list (list (list A)))) : Prop :=
  length t = b /\ Forall (shape3 s n d) t.

(** What the proofs ask of the kernels: on an input whose last dimension
    fits, they return, and keep the shape. *)
Class KernelLaws `{Externals} (K : Kernels) : Prop := {
  Linear_forward_shape : forall l b s x w,
    shape3 b s (in_features l) x ->
    exists y w', Linear_forward l x w = (inr y, w') /\
      shape3 b s (out_features l) y;
  Norm_forward_shape : forall n b s x w,
    shape3 b s (norm_dim n) x ->
    exists y w', Norm_forward n x w = (inr y, w') /\ shape3 b s (norm_dim n) y;
  Dropout_forward_shape : forall p b s d x w,
    shape3 b s d x ->
    exists y w', Dropout_forward p x w = (inr y, w') /\ shape3 b s d y;
  Embedding_weight_shape : forall name n d, rect n d (Embedding_weight name n d);
  Attention_attention_shape : forall nh hd p b s s' q k v w,
    shape4 b s nh hd q -> shape4 b s' nh hd k -> shape4 b s' nh hd v ->
    exists y w', Attention_attention nh hd p q k v None w = (inr y, w') /\
      shape3 b s (nh * hd) y;
  uniform_range : forall r n,
    length (fst (uniform_ r n)) = n /\
    Forall (fun u => 0 <= u /\ u < 1)%Q (fst (uniform_ r n))
}.

(** ** Classifier free guidance functions, lines 42-52 *)

Section Guidance.
Context `{E : Externals} `{K : !Kernels}.

(** [uniform(shape, min=0, max=1)]: [min] and [max] are not used. *)
Definition uniform (shape : list nat) (min max : Q) : M (list Q) := fun w =>
  let ur := uniform_ (ambient w) (foldr Nat.mul 1%nat shape) in
  (inr (fst ur), {| tensors := tensors w; ambient := snd ur; passes := passes w |}).

(** [prob_mask_like(shape, prob)], as the flat list of its entries. *)
Definition prob_mask_like (shape : list nat) (prob : Q) : M (list bool) :=
  let n := foldr Nat.mul 1%nat shape in
  if Qeq_bool prob 1 then ret (replicate n true)
  else if Qeq_bool prob 0 then ret (replicate n false)
  else let* u := uniform shape 0 1 in ret (map (fun x => Qltb x prob) u).

End Guidance.

(** ** [make_attention_mask], lines 55-67

    [query_input] has shape (batch, len_q), [key_input] (batch, len_kv);
    [pairwise_fn] is an elementwise torch function, [torch.mul] by
    default. *)

Definition make_attention_mask_parameters : list string :=
  ["query_input"; "key_input"; "pairwise_fn"]%string.

Definition make_attention_mask (query_input key_input : list (list Q))
    (pairwise_fn : Q -> Q -> Q) : exn + mask4 :=
  let? mask :=
    broadcast3 pairwise_fn
      (* [batch, len_q] -> [batch, len_q, 1] *)
      (map (map (fun x => [x])) query_input)
      (* [batch, len_q] -> [batch, 1, len_kv] *)
      (map (fun row => [row]) key_input) in
  (* [batch, 1, len_q, len_kv]. This creates the head dim. *)
  let mask := map (fun m => [m]) mask in
  inr (map (map (map (map (fun x => negb (Qeq_bool (1 - x) 0))))) mask).

(** ** [Attention], lines 103-186 *)

Module Attention.

Record t := {
  hidden_size : nat;
  num_heads : nat;
  head_dim : nat;
  query : Linear;
  key : Linear;
  value : Linear;
  out : Linear;
  dropout : Q;
  use_memory_efficient_attention_xformers : bool
}.

(** [__init__], lines 104-127; [name] is the place in the module tree. *)
Definition init (name : string) (hidden_size num_heads : nat)
    (encoder_hidden_size : option nat) (attention_dropout : Q) (use_bias : bool)
  : exception + t :=
  if (num_heads =? 0)%nat then inl ZeroDivisionError
  else
    let head_dim := (hidden_size / num_heads)%nat in
    if negb (head_dim * num_heads =? hidden_size)%nat then inl (Builtin ValueError)
    else
      let kv_hidden_size := default hidden_size encoder_hidden_size in
      let? dropout := nn_Dropout attention_dropout in
      inr {| hidden_size := hidden_size;
             num_heads := num_heads;
             head_dim := head_dim;
             query := Build_Linear (name +:+ ".query") hidden_size hidden_size use_bias;
             key := Build_Linear (name +:+ ".key") kv_hidden_size hidden_size use_bias;
             value := Build_Linear (name +:+ ".value") kv_hidden_size hidden_size use_bias;
             out := Build_Linear (name +:+ ".out") hidden_size hidden_size use_bias;
             dropout := dropout;
             use_memory_efficient_attention_xformers := false |}.

(** [x.view(a, b, c, d)] on a contiguous tensor. *)
Definition view4 (a b c d : nat) (x : cond) : exn + tensor4 :=
  let flat := concat (concat x) in
  if (length flat =? a * b * c * d)%nat
  then inr (chunk a b (chunk (a * b) c (chunk (a * b * c) d flat)))
  else inl RuntimeError.

(** [x.view(a, b, c)] on a contiguous four-dimensional tensor. *)
Definition view3 (a b c : nat) (x : tensor4) : exn + cond :=
  let flat := concat (concat (concat x)) in
  if (length flat =? a * b * c)%nat
  then inr (chunk a b (chunk (a * b) c flat))
  else inl RuntimeError.

Section Forward.
Context `{E : Externals} `{K : !Kernels}.

(** [forward], lines 137-164. *)
Definition forward (self : t) (hidden_states : cond)
    (encoder_hidden_states : option cond)
    (encoder_attention_mask : option (list (list Q))) : M cond :=
  if bool_decide (is_Some encoder_attention_mask)
     && use_memory_efficient_attention_xformers self
  then raise ValueError
  else
    let context := default hidden_states encoder_hidden_states in
    let batch := length hidden_states in
    let q_seq_len := dim1 hidden_states in
    let kv_seq_len :=
      match encoder_hidden_states with
      | None => q_seq_len
      | Some e => dim1 e
      end in
    let* query := Linear_forward (query self) hidden_states in
    let* key := Linear_forward (key self) context in
    let* value := Linear_forward (value self) context in
    let* query := lift (view4 batch q_seq_len (num_heads self) (head_dim self) query) in
    let* key := lift (view4 batch kv_seq_len (num_heads self) (head_dim self) key) in
    let* value := lift (view4 batch kv_seq_len (num_heads self) (head_dim self) value) in
    let* attn_output :=
      if use_memory_efficient_attention_xformers self then
        let* attn_output := xops_memory_efficient_attention query key value in
        lift (view3 batch q_seq_len (hidden_size self) attn_output)
      else
        let* attention_mask :=
          match encoder_attention_mask with
          | Some encoder_attention_mask =>
              let src_attn_mask := replicate batch (replicate q_seq_len 1%Q) in
              (* make_attention_mask(src_attn_mask, encoder_attention_mask,
                                     dtype=query.dtype) *)
              if binds make_attention_mask_parameters false ["dtype"%string]
              then
                let* m := lift (make_attention_mask src_attn_mask
                                  encoder_attention_mask Qmult) in
                ret (Some m)
              else raise TypeError
          | None => ret None
          end in
        Attention_attention (num_heads self) (head_dim self) (dropout self)
          query key value attention_mask in
    Linear_forward (out self) attn_output.

End Forward.

End Attention.

(** An attribute that is set under a condition only: reading it when it was
    never set is an [AttributeError]. *)
Definition attribute `{Externals} {A} (o : option A) : M A :=
  as_tensor AttributeError o.

(** ** [FeedForward], lines 190-222 *)

Module FeedForward.

Record t := {
  use_normformer : bool;
  pre_mlp_layer_norm : Norm;
  wi_0 : Linear;
  wi_1 : Linear;
  mid_mlp_layer_norm : option Norm;
  wo : Linear;
  dropout : Q
}.

(** The attributes that [__init__], lines 191-210, assigns. *)
Definition init (name : string) (hidden_size intermediate_size : nat)
    (hidden_dropout : Q) (norm_type : string) (layer_norm_eps : Q)
    (use_normformer use_bias : bool) : t :=
  {| use_normformer := use_normformer;
     pre_mlp_layer_norm :=
       LayerNorm (name +:+ ".pre_mlp_layer_norm") hidden_size layer_norm_eps use_bias;
     wi_0 := Build_Linear (name +:+ ".wi_0") hidden_size intermediate_size use_bias;
     wi_1 := Build_Linear (name +:+ ".wi_1") hidden_size intermediate_size use_bias;
     mid_mlp_layer_norm :=
       if use_normformer
       then Some (norm_cls norm_type use_bias (name +:+ ".mid_mlp_layer_norm")
                    intermediate_size layer_norm_eps)
       else None;
     wo := Build_Linear (name +:+ ".wo") intermediate_size hidden_size use_bias;
     dropout := hidden_dropout |}.

(** [FeedForward(...)]: [__init__] ends in the [ValueError] of
    [nn.Dropout(hidden_dropout)], line 210, or leaves the module of [init]. *)
Definition new (name : string) (hidden_size intermediate_size : nat)
    (hidden_dropout : Q) (norm_type : string) (layer_norm_eps : Q)
    (use_normformer use_bias : bool) : exception + t :=
  let? _ := nn_Dropout hidden_dropout in
  inr (init name hidden_size intermediate_size hidden_dropout norm_type
         layer_norm_eps use_normformer use_bias).

Section Forward.
Context `{E : Externals} `{K : !Kernels}.

(** [forward], lines 212-222. *)
Definition forward (self : t) (hidden_states : cond) : M cond :=
  let* hidden_states := Norm_forward (pre_mlp_layer_norm self) hidden_states in
  let* hidden_gelu := Linear_forward (wi_0 self) hidden_states in
  let hidden_gelu := map3 gelu hidden_gelu in
  let* hidden_linear := Linear_forward (wi_1 self) hidden_states in
  let* hidden_states := lift (broadcast3 Qmult hidden_gelu hidden_linear) in
  let* hidden_states :=
    if use_normformer self then
      let* norm := attribute (mid_mlp_layer_norm self) in
      Norm_forward norm hidden_states
    else ret hidden_states in
  let* hidden_states := Dropout_forward (dropout self) hidden_states in
  Linear_forward (wo self) hidden_states.

End Forward.

End FeedForward.

(** ** [TransformerLayer], lines 226-298 *)

Module TransformerLayer.

Record t := {
  hidden_size : nat;
  intermediate_size : nat;
  num_attention_heads : nat;
  use_normformer : bool;
  attn_layer_norm : Norm;
  attention : Attention.t;
  post_attn_layer_norm : option Norm;
  ffn : FeedForward.t;
  crossattn_layer_norm : option Norm;
  crossattention : option Attention.t;
  post_crossattn_layer_norm : option Norm
}.

(** [__init__], lines 227-271; [add_cross_attention] is tested for truth. *)
Definition init (name : string) (hidden_size intermediate_size
    num_attention_heads encoder_hidden_size : nat) (add_cross_attention : bool)
    (hidden_dropout attention_dropout : Q) (norm_type : string)
    (layer_norm_eps : Q) (use_normformer use_bias : bool) : exception + t :=
  let norm := norm_cls norm_type use_bias in
  let? attention :=
    Attention.init (name +:+ ".attention") hidden_size num_attention_heads None
      attention_dropout use_bias in
  let? ffn :=
    FeedForward.new (name +:+ ".ffn") hidden_size intermediate_size
      hidden_dropout norm_type layer_norm_eps use_normformer use_bias in
  let? crossattention :=
    if add_cross_attention then
      let? a := Attention.init (name +:+ ".crossattention") hidden_size
                  num_attention_heads (Some encoder_hidden_size)
                  attention_dropout use_bias in
      inr (Some a)
    else inr None in
  inr {| hidden_size := hidden_size;
         intermediate_size := intermediate_size;
         num_attention_heads := num_attention_heads;
         use_normformer := use_normformer;
         attn_layer_norm := norm (name +:+ ".attn_layer_norm") hidden_size layer_norm_eps;
         attention := attention;
         post_attn_layer_norm :=
           if use_normformer
           then Some (norm (name +:+ ".post_attn_layer_norm") hidden_size layer_norm_eps)
           else None;
         ffn := ffn;
         crossattn_layer_norm :=
           if add_cross_attention
           then Some (norm (name +:+ ".crossattn_layer_norm") hidden_size layer_norm_eps)
           else None;
         crossattention := crossattention;
         post_crossattn_layer_norm :=
           if add_cross_attention && use_normformer
           then Some (norm (name +:+ ".post_crossattn_layer_norm") hidden_size
                        layer_norm_eps)
           else None |}.

Section Forward.
Context `{E : Externals} `{K : !Kernels}.

(** [forward], lines 273-298. *)
Definition forward (self : t) (hidden_states : cond)
    (encoder_hidden_states : option cond)
    (encoder_attention_mask : option (list (list Q))) : M cond :=
  let residual := hidden_states in
  let* hidden_states := Norm_forward (attn_layer_norm self) hidden_states in
  let* attention_output := Attention.forward (attention self) hidden_states None None in
  let* attention_output :=
    if use_normformer self then
      let* norm := attribute (post_attn_layer_norm self) in
      Norm_forward norm attention_output
    else ret attention_output in
  let* hidden_states := lift (broadcast3 Qplus residual attention_output) in
  let* hidden_states :=
    match encoder_hidden_states with
    | Some _ =>
        let residual := hidden_states in
        let* norm := attribute (crossattn_layer_norm self) in
        let* hidden_states := Norm_forward norm hidden_states in
        let* crossattention := attribute (crossattention self) in
        let* attention_output :=
          Attention.forward crossattention hidden_states encoder_hidden_states
            encoder_attention_mask in
        let* attention_output :=
          if use_normformer self then
            let* norm := attribute (post_crossattn_layer_norm self) in
            Norm_forward norm attention_output
          else ret attention_output in
        lift (broadcast3 Qplus residual attention_output)
    | None => ret hidden_states
    end in
  let residual := hidden_states in
  let* hidden_states := FeedForward.forward (ffn self) hidden_states in
  lift (broadcast3 Qplus residual hidden_states).

End Forward.

End TransformerLayer.

(** ** [Embed], lines 301-351 *)

(** An index that [nn.Embedding(n, d)] accepts. *)
Definition in_table (n : nat) (t : Z) : Prop := (0 <= t < Z.of_nat n)%Z.

Module Embed.

Record t := {
  vocab_size : nat;
  embedding_size : nat;
  hidden_size : nat;
  hidden_dropout : Q;
  max_position_embeddings : nat;
  layer_norm_embedddings : bool;
  use_embeddings_project : bool;
  word_embeddings : list (list Q);
  position_embeddings : list (list Q);
  embeddings_ln : option Norm;
  embedding_hidden_mapping : option Linear
}.

(** [nn.Embedding.forward]: an index outside the table is an error. *)
Definition nn_Embedding (weight : list (list Q)) (input : grid) : exn + cond :=
  mapM_e (mapM_e (fun i : Z =>
    if (i <? 0)%Z then inl IndexError
    else match weight !! Z.to_nat i with
         | Some row => inr row
         | None => inl IndexError
         end)) input.

Section Forward.
Context `{E : Externals} `{K : !Kernels}.

(** The attributes that [__init__], lines 302-334, assigns. *)
Definition init (name : string) (vocab_size embedding_size hidden_size : nat)
    (hidden_dropout : Q) (max_position_embeddings : nat) (norm_type : string)
    (layer_norm_eps : Q) (use_bias layer_norm_embedddings
    use_embeddings_project : bool) : t :=
  {| vocab_size := vocab_size;
     embedding_size := embedding_size;
     hidden_size := hidden_size;
     hidden_dropout := hidden_dropout;
     max_position_embeddings := max_position_embeddings;
     layer_norm_embedddings := layer_norm_embedddings;
     use_embeddings_project := use_embeddings_project;
     word_embeddings :=
       Embedding_weight (name +:+ ".word_embeddings") vocab_size embedding_size;
     position_embeddings :=
       Embedding_weight (name +:+ ".position_embeddings") max_position_embeddings
         embedding_size;
     embeddings_ln :=
       if layer_norm_embedddings
       then Some (norm_cls norm_type use_bias (name +:+ ".embeddings_ln")
                    embedding_size layer_norm_eps)
       else None;
     embedding_hidden_mapping :=
       if use_embeddings_project
       then Some (Build_Linear (name +:+ ".embedding_hidden_mapping")
                    embedding_size hidden_size use_bias)
       else None |}.

(** [Embed(...)]: [__init__] ends in the [ValueError] of
    [nn.Dropout(self.hidden_dropout)], line 327, or leaves the module of
    [init]. *)
Definition new (name : string) (vocab_size embedding_size hidden_size : nat)
    (hidden_dropout : Q) (max_position_embeddings : nat) (norm_type : string)
    (layer_norm_eps : Q) (use_bias layer_norm_embedddings
    use_embeddings_project : bool) : exception + t :=
  let? _ := nn_Dropout hidden_dropout in
  inr (init name vocab_size embedding_size hidden_size hidden_dropout
         max_position_embeddings norm_type layer_norm_eps use_bias
         layer_norm_embedddings use_embeddings_project).

(** [forward], lines 336-351. *)
Definition forward (self : t) (input_ids : grid) : M cond :=
  let seq_length := dim1 input_ids in
  let position_ids := [seqZ 0 (Z.of_nat seq_length)] in
  let* word_embeddings := lift (nn_Embedding (word_embeddings self) input_ids) in
  let* position_embeddings :=
    lift (nn_Embedding (position_embeddings self) position_ids) in
  let* input_embeddings :=
    lift (broadcast3 Qplus word_embeddings position_embeddings) in
  let* input_embeddings :=
    if layer_norm_embedddings self then
      let* norm := attribute (embeddings_ln self) in
      Norm_forward norm input_embeddings
    else ret input_embeddings in
  let* input_embeddings :=
    if use_embeddings_project self then
      let* proj := attribute (embedding_hidden_mapping self) in
      Linear_forward proj input_embeddings
    else ret input_embeddings in
  Dropout_forward (hidden_dropout self) input_embeddings.

End Forward.

End Embed.

(** ** [MlmLayer], lines 354-379 *)

Module MlmLayer.

Record t := {
  hidden_size : nat;
  use_mlm_layernorm : bool;
  mlm_dense : Linear;
  mlm_ln : option Norm;
  to_logits : Linear
}.

(** [__init__], lines 355-371. *)
Definition init (name : string) (hidden_size vocab_size : nat) (norm_type : string)
    (layer_norm_eps : Q) (use_mlm_layernorm use_bias : bool) : t :=
  {| hidden_size := hidden_size;
     use_mlm_layernorm := use_mlm_layernorm;
     mlm_dense := Build_Linear (name +:+ ".mlm_dense") hidden_size hidden_size use_bias;
     mlm_ln :=
       if use_mlm_layernorm
       then Some (norm_cls norm_type use_bias (name +:+ ".mlm_ln") hidden_size
                    layer_norm_eps)
       else None;
     to_logits := Build_Linear (name +:+ ".to_logits") hidden_size vocab_size use_bias |}.

Section Forward.
Context `{E : Externals} `{K : !Kernels}.

(** [forward], lines 373-379. *)
Definition forward (self : t) (hidden_states : cond) : M cond :=
  let* hidden_states := Linear_forward (mlm_dense self) hidden_states in
  let hidden_states := map3 gelu hidden_states in
  let* hidden_states :=
    if use_mlm_layernorm self then
      let* norm := attribute (mlm_ln self) in
      Norm_forward norm hidden_states
    else ret hidden_states in
  Linear_forward (to_logits self) hidden_states.

End Forward.

End MlmLayer.

(** ** [MaskGitTransformer], lines 382-549 *)

Module MaskGitTransformer.

(** The arguments of [__init__], which [register_to_config] keeps as
    [self.config]. *)
Record arguments := {
  vocab_size : nat;
  hidden_size : nat;
  num_hidden_layers : nat;
  num_attention_heads : nat;
  intermediate_size : nat;
  hidden_dropout : Q;
  attention_dropout : Q;
  max_position_embeddings : nat;
  add_cross_attention : bool;
  encoder_hidden_size : nat;
  project_encoder_hidden_states : bool;
  initializer_range : Q;
  norm_type : string;
  layer_norm_eps : Q;
  use_normformer : bool;
  use_encoder_layernorm : bool;
  use_mlm_layer : bool;
  use_mlm_layernorm : bool;
  use_bias : bool;
  codebook_size : nat;
  num_vq_tokens : nat;
  num_classes : option nat
}.

Record t := {
  config : arguments;
  mask_token_id : Z;
  embed : Embed.t;
  encoder_proj : option Linear;
  encoder_proj_layer_norm : option Norm;
  transformer_layers : list TransformerLayer.t;
  encoder_layer_norm : option Norm;
  mlm_layer : option MlmLayer.t;
  to_logits : option Linear;
  gradient_checkpointing : bool;
  training : bool
}.

(** [torch.utils.checkpoint.checkpoint(function, *args)] *)
Definition checkpoint {A B C D} (function : A -> B -> C -> D) (a : A) (b : B) (c : C)
  : D := function a b c.

(** [_set_gradient_checkpointing], lines 490-491: [value] is not used. *)
Definition _set_gradient_checkpointing {A} (self : t) (module : A) (value : bool) : t :=
  {| config := config self; mask_token_id := mask_token_id self;
     embed := embed self; encoder_proj := encoder_proj self;
     encoder_proj_layer_norm := encoder_proj_layer_norm self;
     transformer_layers := transformer_layers self;
     encoder_layer_norm := encoder_layer_norm self;
     mlm_layer := mlm_layer self; to_logits := to_logits self;
     gradient_checkpointing := true;
     training := training self |}.

Section Model.
Context `{E : Externals} `{K : !Kernels}.

(** [_init_weights], lines 473-488, over the module tree: the weight of
    every [nn.Linear] and [nn.Embedding] goes through [trunc_normal_] with
    [std=self.config.initializer_range].  The tree always holds the two
    embeddings of [embed], and an exception of [trunc_normal_] ends
    [__init__]; the values of the weights stay with the kernels. *)
Definition _init_weights (self : t) : exception + unit :=
  trunc_normal_ (initializer_range (config self)).

(** [__init__], lines 386-471.

    [Embed] is called with eight positional arguments, of which the last
    three, [use_bias, norm_type, layer_norm_eps], are bound to the
    parameters [norm_type, layer_norm_eps, use_bias]; [Embed.__init__]
    reads these only when [layer_norm_embedddings] or
    [use_embeddings_project] is set, and both stay at their default
    [False].

    With [project_encoder_hidden_states] set, [norm_type(hidden_size, ...)]
    calls a string ([add_cross_attention], a bool, is never [None]).

    The last statement, [self.apply(self._init_weights)], runs
    [_init_weights] on every module of the tree.

    A new module is in training mode. *)
Definition init (a : arguments) : exception + t :=
  let norm := norm_cls (norm_type a) (use_bias a) in
  let? embed :=
    Embed.new "embed" (vocab_size a) (hidden_size a) (hidden_size a)
      (hidden_dropout a) (max_position_embeddings a)
      (norm_type a) (layer_norm_eps a) (use_bias a) false false in
  let? encoder_proj :=
    if project_encoder_hidden_states a
    then inl (Builtin TypeError)
    else inr (@None Linear, @None Norm) in
  let? transformer_layers :=
    mapM_e (fun i =>
              TransformerLayer.init ("transformer_layers." +:+ pretty i)
                (hidden_size a) (intermediate_size a) (num_attention_heads a)
                (encoder_hidden_size a) (add_cross_attention a)
                (hidden_dropout a) (attention_dropout a) (norm_type a)
                (layer_norm_eps a) (use_normformer a) (use_bias a))
           (seq 0 (num_hidden_layers a)) in
  let self :=
      {| config := a;
         mask_token_id := Z.of_nat (vocab_size a) - 1;
         embed := embed;
         encoder_proj := fst encoder_proj;
         encoder_proj_layer_norm := snd encoder_proj;
         transformer_layers := transformer_layers;
         encoder_layer_norm :=
           if use_encoder_layernorm a
           then Some (norm "encoder_layer_norm" (hidden_size a) (layer_norm_eps a))
           else None;
         mlm_layer :=
           if use_mlm_layer a
           then Some (MlmLayer.init "mlm_layer" (hidden_size a) (vocab_size a)
                        (norm_type a) (layer_norm_eps a) (use_mlm_layernorm a)
                        (use_bias a))
           else None;
         to_logits :=
           if use_mlm_layer a then None
           else Some (Build_Linear "to_logits" (hidden_size a) (vocab_size a)
                        (use_bias a));
         gradient_checkpointing := false;
         training := true |} in
  let? _ := _init_weights self in
  inr self.

(** [forward], lines 493-549; with [labels] the result is the pair
    [(logits, loss)]. *)
Definition forward (self : t) (input_ids : grid)
    (encoder_hidden_states : option cond)
    (encoder_attention_mask : option (list (list Q))) (labels : option grid)
    (label_smoothing cond_dropout_prob : Q) : M (logits3 * option Q) :=
  if add_cross_attention (config self)
     && negb (bool_decide (is_Some encoder_hidden_states))
  then raise ValueError
  else
    let* hidden_states := Embed.forward (embed self) input_ids in
    let* encoder_hidden_states :=
      match encoder_hidden_states with
      | Some e =>
          if project_encoder_hidden_states (config self) then
            let* proj := attribute (encoder_proj self) in
            let* e := Linear_forward proj e in
            let* norm := attribute (encoder_proj_layer_norm self) in
            let* e := Norm_forward norm e in
            ret (Some e)
          else ret (Some e)
      | None => ret None
      end in
    (* condition dropout for classifier free guidance *)
    let* encoder_hidden_states :=
      match encoder_hidden_states with
      | Some e =>
          if training self && Qltb 0 cond_dropout_prob then
            let batch_size := length e in
            let* mask :=
              prob_mask_like [batch_size; 1; 1]%nat (1 - cond_dropout_prob) in
            let* e :=
              lift (broadcast3 (fun x (m : bool) => if m then x else 0%Q) e
                      (map (fun m => [[m]]) mask)) in
            ret (Some e)
          else ret (Some e)
      | None => ret None
      end in
    let* hidden_states :=
      for_each
        (fun layer hidden_states =>
           if gradient_checkpointing self then
             checkpoint (TransformerLayer.forward layer) hidden_states
               encoder_hidden_states encoder_attention_mask
           else
             TransformerLayer.forward layer hidden_states encoder_hidden_states
               encoder_attention_mask)
        (transformer_layers self) hidden_states in
    let* hidden_states :=
      if use_encoder_layernorm (config self) then
        let* norm := attribute (encoder_layer_norm self) in
        Norm_forward norm hidden_states
      else ret hidden_states in
    let* logits :=
      if use_mlm_layer (config self) then
        let* mlm := attribute (mlm_layer self) in
        MlmLayer.forward mlm hidden_states
      else
        let* to_logits := attribute (to_logits self) in
        Linear_forward to_logits hidden_states in
    match labels with
    | Some labels =>
        let* loss := cross_entropy logits labels label_smoothing in
        ret (logits, Some loss)
    | None => ret (logits, None)
    end.

End Model.

End MaskGitTransformer.

(** The part of the arguments that the decoders read. *)
Definition config_of (a : MaskGitTransformer.arguments) : config :=
  {| vocab_size := MaskGitTransformer.vocab_size a;
     codebook_size := MaskGitTransformer.codebook_size a;
     num_vq_tokens := MaskGitTransformer.num_vq_tokens a;
     max_position_embeddings := MaskGitTransformer.max_position_embeddings a;
     add_cross_attention := MaskGitTransformer.add_cross_attention a |}.

(** An entry of a four-dimensional tensor. *)
Definition at4 {A} (t : list (list (list (list A)))) (i h j l : nat) : option A :=
  match t !! i with
  | Some x => entry3 x h j l
  | None => None
  end.

(** ** A small instance of the kernels

    Linear layers return zeros of the right width, norms and dropout are
    the identity, attention lays the heads of the query side by side, and
    row [i] of an embedding table holds [i] everywhere. *)

Definition toy_kernels : Kernels (H := Toy.externals) := {|
  Linear_forward := fun l x =>
    ret (map (map (fun _ => replicate (out_features l) 0%Q)) x);
  Norm_forward := fun _ x => ret x;
  Dropout_forward := fun _ x => ret x;
  gelu := fun x => x;
  Embedding_weight := fun _ n d =>
    map (fun i => replicate d (inject_Z (Z.of_nat i))) (seq 0 n);
  Attention_attention := fun _ _ _ q _ _ _ =>
    ret (map (map (fun heads => concat heads)) q);
  xops_memory_efficient_attention := fun q _ _ => ret q;
  uniform_ := fun r n => (replicate n (1 # 2)%Q, r);
  cross_entropy := fun _ _ _ => ret 0%Q;
  trunc_normal_ := fun std =>
    if Qeq_bool std 0 then inl ZeroDivisionError else inr tt
|}.

(** Two layers of two heads with cross attention on encoder states of
    width 3; the sizes that the decoders read are those of [toy_text_cfg]. *)
Definition toy_arguments : MaskGitTransformer.arguments := {|
  MaskGitTransformer.vocab_size := 6;
  MaskGitTransformer.hidden_size := 4;
  MaskGitTransformer.num_hidden_layers := 2;
  MaskGitTransformer.num_attention_heads := 2;
  MaskGitTransformer.intermediate_size := 8;
  MaskGitTransformer.hidden_dropout := 1 # 10;
  MaskGitTransformer.attention_dropout := 1 # 10;
  MaskGitTransformer.max_position_embeddings := 5;
  MaskGitTransformer.add_cross_attention := true;
  MaskGitTransformer.encoder_hidden_size := 3;
  MaskGitTransformer.project_encoder_hidden_states := false;
  MaskGitTransformer.initializer_range := 2 # 100;
  MaskGitTransformer.norm_type := "layernorm";
  MaskGitTransformer.layer_norm_eps := 1 # 100000;
  MaskGitTransformer.use_normformer := true;
  MaskGitTransformer.use_encoder_layernorm := true;
  MaskGitTransformer.use_mlm_layer := true;
  MaskGitTransformer.use_mlm_layernorm := true;
  MaskGitTransformer.use_bias := false;
  MaskGitTransformer.codebook_size := 3;
  MaskGitTransformer.num_vq_tokens := 4;
  MaskGitTransformer.num_classes := None
|}.

(** * Reasoning about the monad *)

Section MonadFacts.
Context `{E : Externals}.

Lemma bind_inr {A B} (m : M A) (k : A -> M B) w b w' :
  bind m k w = (inr b, w') ->
  exists a w1, m w = (inr a, w1) /\ k a w1 = (inr b, w').
Proof.
  unfold bind. destruct (m w) as [[e|a] w1] eqn:Hm; intros H.
  - discriminate.
  - eauto.
Qed.

Lemma bind_step {A B} (m : M A) (k : A -> M B) w a w1 :
  m w = (inr a, w1) -> bind m k w = k a w1.
Proof. unfold bind. intros ->. reflexivity. Qed.

Lemma ret_inr {A} (a b : A) w w' : ret a w = (inr b, w') -> a = b /\ w = w'.
Proof. unfold ret. intros H. by simplify_eq. Qed.

Lemma as_tensor_inr {A} e (o : option A) a w w' :
  as_tensor e o w = (inr a, w') -> o = Some a /\ w = w'.
Proof. destruct o; simpl; unfold ret, raise; intros H; by simplify_eq. Qed.

Lemma stable_ret {X A} (f : world -> X) (a : A) : stable f (ret a).
Proof. by intros w. Qed.

Lemma stable_raise {X A} (f : world -> X) e : stable f (@raise _ A e).
Proof. by intros w. Qed.

Lemma stable_bind {X A B} (f : world -> X) (m : M A) (k : A -> M B) :
  stable f m -> (forall a, stable f (k a)) -> stable f (bind m k).
Proof.
  intros Hm Hk w. unfold bind. specialize (Hm w).
  destruct (m w) as [[e|a] w1]; simpl in *; [done|].
  by rewrite Hk.
Qed.

Lemma stable_as_tensor {X A} (f : world -> X) e (o : option A) :
  stable f (as_tensor e o).
Proof. destruct o; [apply stable_ret | apply stable_raise]. Qed.

Lemma stable_mapM {X A B} (f : world -> X) (g : A -> M B) l :
  (forall a, stable f (g a)) -> stable f (mapM_M g l).
Proof.
  intros Hg. induction l as [|a l IH]; simpl.
  - apply stable_ret.
  - apply stable_bind; [apply Hg|]. intros b.
    apply stable_bind; [apply IH|]. intros bs. apply stable_ret.
Qed.

Lemma stable_draw_tensors sampler p : stable tensors (draw sampler p).
Proof. destruct p; intros w; done. Qed.

Lemma stable_draw_passes sampler p : stable passes (draw sampler p).
Proof. destruct p; intros w; done. Qed.

Lemma stable_inv {X A} (f : world -> X) (m : M A) w r w' :
  stable f m -> m w = (r, w') -> f w' = f w.
Proof. intros H Hm. specialize (H w). by rewrite Hm in H. Qed.

(** A loop invariant over the locals and the world, for runs that complete. *)
Lemma for_each_inv {A S} (body : A -> S -> M S) (I : S -> world -> Prop) xs :
  (forall x st w st' w', I st w -> body x st w = (inr st', w') -> I st' w') ->
  forall st w st' w',
    I st w -> for_each body xs st w = (inr st', w') -> I st' w'.
Proof.
  intros Hb. induction xs as [|x xs IH]; intros st w st' w' HI H; simpl in H.
  - apply ret_inr in H as [-> ->]. done.
  - apply bind_inr in H as (s1 & w1 & H1 & H2). eauto.
Qed.

(** After at least one round, the locals satisfy what every round
    establishes. *)
Lemma for_each_post {A S} (body : A -> S -> M S) (I J : S -> world -> Prop) xs :
  (forall x st w st' w', I st w -> body x st w = (inr st', w') -> J st' w') ->
  (forall st w, J st w -> I st w) ->
  xs <> [] ->
  forall st w st' w',
    I st w -> for_each body xs st w = (inr st', w') -> J st' w'.
Proof.
  intros Hb HJI Hne st w st' w' HI H.
  destruct xs as [|x xs]; [done|]. simpl in H.
  apply bind_inr in H as (s1 & w1 & H1 & H2).
  assert (J s1 w1) as HJ by eauto.
  eapply (for_each_inv body J); [| exact HJ | exact H2].
  intros; eauto.
Qed.

(** An invariant of the world alone, kept on every outcome. *)
Lemma for_each_world {A S} (body : A -> S -> M S) (W : world -> Prop) xs :
  (forall x st w, W w -> W (snd (body x st w))) ->
  forall st w, W w -> W (snd (for_each body xs st w)).
Proof.
  intros Hb. induction xs as [|x xs IH]; intros st w HW; simpl.
  - done.
  - unfold bind. specialize (Hb x st w HW).
    destruct (body x st w) as [[e|s1] w1]; simpl in *; [done|]. by apply IH.
Qed.

Lemma mapM_M_inr {A B} (f : A -> M B) l w r w' :
  mapM_M f l w = (inr r, w') ->
  Forall2 (fun a b => exists w1 w2, f a w1 = (inr b, w2)) l r.
Proof.
  revert w r w'. induction l as [|a l IH]; intros w r w' H; simpl in H.
  - apply ret_inr in H as [<- _]. constructor.
  - apply bind_inr in H as (b & w1 & Hb & H).
    apply bind_inr in H as (bs & w2 & Hbs & H).
    apply ret_inr in H as [<- _]. constructor; eauto.
Qed.

End MonadFacts.

(** * Shapes and entries of the tensor operations *)

Lemma Forall_zip_with2 {A B C} (f : A -> B -> C) (P : A -> Prop) (Q : B -> Prop)
    (R : C -> Prop) l k :
  (forall a b, P a -> Q b -> R (f a b)) ->
  Forall P l -> Forall Q k -> Forall R (zip_with f l k).
Proof.
  intros Hf Hl. revert k. induction Hl as [|a l Ha Hl IH]; intros k Hk.
  - constructor.
  - destruct Hk as [|b k Hb Hk]; simpl; constructor; auto.
Qed.

Section TensorFacts.
Context {A B C : Type}.

Lemma rect_full b s (v : A) : rect b s (full b s v).
Proof.
  split; [apply length_replicate|].
  apply Forall_replicate, length_replicate.
Qed.

Lemma all2_full (P : A -> Prop) b s v : P v -> all2 P (full b s v).
Proof. intros. by do 2 apply Forall_replicate. Qed.

Lemma rect_map2 (f : A -> B) b s g : rect b s g -> rect b s (map (map f) g).
Proof.
  intros [Hl Hr]. split; [by rewrite length_map|].
  apply Forall_map. eapply Forall_impl; [exact Hr|].
  intros row Hrow. simpl. by rewrite length_map.
Qed.

Lemma all2_map2 (f : A -> B) (P : B -> Prop) g :
  all2 (fun a => P (f a)) g -> all2 P (map (map f) g).
Proof.
  intros H. apply Forall_map. eapply Forall_impl; [exact H|].
  intros row Hrow. simpl. by apply Forall_map.
Qed.

Lemma all2_impl (P Q : A -> Prop) g :
  all2 P g -> (forall a, P a -> Q a) -> all2 Q g.
Proof.
  intros H HPQ. eapply Forall_impl; [exact H|].
  intros row Hrow. eapply Forall_impl; eauto.
Qed.

Lemma rect_zip_with2 (f : A -> B -> C) b s x y :
  rect b s x -> rect b s y -> rect b s (zip_with (zip_with f) x y).
Proof.
  intros [Hx Hxr] [Hy Hyr]. split.
  - rewrite length_zip_with. lia.
  - eapply Forall_zip_with2; [| exact Hxr | exact Hyr].
    intros r1 r2 H1 H2. simpl in *. rewrite length_zip_with. lia.
Qed.

Lemma all2_zip_with2 (f : A -> B -> C) (P : A -> Prop) (Q : B -> Prop)
    (R : C -> Prop) x y :
  (forall a b, P a -> Q b -> R (f a b)) ->
  all2 P x -> all2 Q y -> all2 R (zip_with (zip_with f) x y).
Proof.
  intros Hf Hx Hy. eapply Forall_zip_with2; [| exact Hx | exact Hy].
  intros r1 r2 H1 H2. by eapply Forall_zip_with2.
Qed.

Lemma rect_strip_first b s (g : list (list A)) :
  rect b (S s) g -> rect b s (strip_first g).
Proof.
  intros [Hl Hr]. split; [unfold strip_first; by rewrite length_map|].
  apply Forall_map. eapply Forall_impl; [exact Hr|].
  intros row Hrow. simpl in *. rewrite length_drop. lia.
Qed.

Lemma all2_strip_first (P : A -> Prop) g : all2 P g -> all2 P (strip_first g).
Proof.
  intros H. apply Forall_map. eapply Forall_impl; [exact H|].
  intros row Hrow. by apply Forall_drop.
Qed.

Lemma rect_app b1 b2 s (x y : list (list A)) :
  rect b1 s x -> rect b2 s y -> rect (b1 + b2) s (x ++ y).
Proof.
  intros [Hx Hxr] [Hy Hyr]. split; [rewrite length_app; lia|].
  by apply Forall_app.
Qed.

Lemma rect_take b s n (x : list (list A)) :
  rect b s x -> rect (n `min` b) s (take n x).
Proof.
  intros [Hx Hxr]. split; [by rewrite length_take, Hx|]. by apply Forall_take.
Qed.

Lemma rect_drop b s n (x : list (list A)) :
  rect b s x -> rect (b - n) s (drop n x).
Proof.
  intros [Hx Hxr]. split; [by rewrite length_drop, Hx|]. by apply Forall_drop.
Qed.

Lemma rect_Forall2 (R : B -> A -> Prop) b s (x : list (list B)) (y : list (list A)) :
  Forall2 (Forall2 R) x y -> rect b s x -> rect b s y.
Proof.
  intros H [Hx Hxr]. split; [by rewrite <- (Forall2_length _ _ _ H)|].
  clear Hx. induction H as [|r1 r2 x y Hr H IH]; [constructor|].
  inversion Hxr; subst. constructor; [|auto].
  by rewrite <- (Forall2_length _ _ _ Hr).
Qed.

Lemma rect_same_lengths b s (x : list (list B)) (y : list (list A)) :
  Forall2 (fun r1 r2 => length r1 = length r2) y x -> rect b s x -> rect b s y.
Proof.
  intros H [Hx Hxr]. split; [by rewrite (Forall2_length _ _ _ H)|].
  clear Hx. induction H as [|r1 r2 y x Hr H IH]; [constructor|].
  inversion Hxr; subst. constructor; [lia|auto].
Qed.

End TensorFacts.

Section GridFacts.

Lemma rect_prepend_column b s cs ids :
  length cs = b -> rect b s ids -> rect b (S s) (prepend_column cs ids).
Proof.
  intros Hcs [Hl Hr]. split.
  - unfold prepend_column. rewrite length_zip_with. lia.
  - apply Forall_zip_with_fst with (P := fun _ => True).
    + by apply Forall_forall.
    + eapply Forall_impl; [exact Hr|]. intros row Hrow c _. simpl in *. lia.
Qed.

Lemma strip_prepend_column cs (ids : grid) :
  length ids <= length cs -> strip_first (prepend_column cs ids) = ids.
Proof.
  revert cs. induction ids as [|row ids IH]; intros cs Hl.
  - by destruct cs.
  - destruct cs as [|c cs]; simpl in *; [lia|].
    unfold strip_first, prepend_column in *. simpl. rewrite IH; [done|lia].
Qed.

Lemma rect_is_mask_map b s m ids : rect b s ids -> rect b s (is_mask_map m ids).
Proof. apply rect_map2. Qed.

Lemma rect_where2 {A} b s c (x y : list (list A)) :
  rect b s c -> rect b s x -> rect b s y -> rect b s (where2 c x y).
Proof.
  intros Hc Hx Hy. unfold where2. apply rect_zip_with2; [done|].
  destruct Hx as [Hx Hxr], Hy as [Hy Hyr]. split.
  - rewrite length_zip_with. lia.
  - eapply Forall_zip_with2; [| exact Hxr | exact Hyr].
    intros r1 r2 H1 H2. simpl in *. rewrite length_zip. lia.
Qed.

(** Replacing exactly the masked positions by codes leaves only codes. *)
Lemma where_row_decided (P Q : Z -> Prop) m raw row :
  (forall t, Q t -> t <> m -> P t) ->
  Forall P raw -> Forall Q row ->
  Forall P (zip_with (fun (ci : bool) (xy : Z * Z) => if ci then fst xy else snd xy)
                     (map (fun t => Z.eqb t m) row) (zip raw row)).
Proof.
  intros HQ Hraw. revert row.
  induction Hraw as [|x raw Hx Hraw IH]; intros row Hrow.
  - destruct row; constructor.
  - destruct Hrow as [|t row Ht Hrow]; simpl; [constructor|].
    constructor; [|by apply IH].
    destruct (Z.eqb_spec t m); simpl; auto.
Qed.

Lemma where2_decided (P Q : Z -> Prop) m raw ids :
  (forall t, Q t -> t <> m -> P t) ->
  all2 P raw -> all2 Q ids ->
  all2 P (where2 (is_mask_map m ids) raw ids).
Proof.
  intros HQ Hraw. revert ids.
  induction Hraw as [|r raw Hr Hraw IH]; intros ids Hids.
  - destruct ids; constructor.
  - destruct Hids as [|row ids Hrow Hids]; simpl; [constructor|].
    constructor; [|by apply IH].
    by eapply where_row_decided.
Qed.

Lemma all2_where_scalar_l {A} (P : A -> Prop) c v x :
  P v -> all2 P x -> all2 P (where_scalar_l c v x).
Proof.
  intros Hv Hx. unfold where_scalar_l.
  eapply (all2_zip_with2 _ (fun _ => True) P P); [| |exact Hx].
  - intros [] y _ Hy; auto.
  - apply Forall_forall. intros r _. by apply Forall_forall.
Qed.

Lemma rect_scatter {A} b s (idx : list (list nat)) (v : A) ids :
  length idx = b -> rect b s ids ->
  rect b s (zip_with (fun i row => scatter_row i v row) idx ids).
Proof.
  intros Hi [Hl Hr]. split; [rewrite length_zip_with; lia|].
  apply Forall_zip_with_fst with (P := fun _ => True); [by apply Forall_forall|].
  eapply Forall_impl; [exact Hr|]. intros row Hrow i _. simpl in *.
  unfold scatter_row. induction i as [|j i IH]; simpl; [done|].
  by rewrite length_insert.
Qed.

Lemma all2_scatter {A} (P : A -> Prop) (idx : list (list nat)) v ids :
  P v -> all2 P ids ->
  all2 P (zip_with (fun i row => scatter_row i v row) idx ids).
Proof.
  intros Hv Hids.
  apply Forall_zip_with_fst with (P := fun _ => True); [by apply Forall_forall|].
  eapply Forall_impl; [exact Hids|]. intros row Hrow i _.
  unfold scatter_row. induction i as [|j i IH]; simpl; [done|].
  by apply Forall_insert.
Qed.

End GridFacts.

(** * The building blocks of a round *)

Section DecoderFacts.
Context `{E : Externals} {L : ExternalsLaws E} (cfg : config).

Lemma shape3_truncate b s v n (l : logits3) :
  shape3 b s v l -> shape3 b s (n `min` v) (truncate_channels n l).
Proof.
  intros [Hr Hc]. split; [by apply rect_map2|].
  apply all2_map2. eapply all2_impl; [exact Hc|].
  intros ch Hch. simpl in *. by rewrite length_take, Hch.
Qed.

Lemma shape3_mix b s v gs (c u : logits3) :
  shape3 b s v c -> shape3 b s v u -> shape3 b s v (guidance_mix gs c u).
Proof.
  intros [Hc Hcc] [Hu Huc]. split; [by apply rect_zip_with2|].
  eapply all2_zip_with2; [| exact Hcc | exact Huc].
  intros x y Hx Hy. simpl in *. rewrite length_zip_with. lia.
Qed.

Lemma shape3_strip_first b s v (l : logits3) :
  shape3 b (S s) v l -> shape3 b s v (strip_first l).
Proof.
  intros [Hr Hc]. split; [by apply rect_strip_first | by apply all2_strip_first].
Qed.

Lemma forward_inr ids ehs w l w' :
  forward cfg ids ehs w = (inr l, w') ->
  exists g, ids = Some g /\ l = transformer_layers cfg g ehs /\
    tensors w' = tensors w /\ ambient w' = ambient w /\
    passes w' = (ids, ehs) :: passes w.
Proof.
  unfold forward. intros H.
  apply bind_inr in H as ([] & w1 & Hlog & H).
  unfold log_pass in Hlog. injection Hlog as <-.
  destruct (add_cross_attention cfg && _); [discriminate|].
  apply bind_inr in H as (g & w2 & Hg & H).
  apply as_tensor_inr in Hg as [-> <-].
  destruct (valid_embedding_index cfg g); [|discriminate].
  apply ret_inr in H as [<- <-]. by exists g.
Qed.

(** [forward] records its call on every outcome and touches nothing else. *)
Lemma forward_world ids ehs w r w' :
  forward cfg ids ehs w = (r, w') ->
  tensors w' = tensors w /\ ambient w' = ambient w /\
  passes w' = (ids, ehs) :: passes w.
Proof.
  unfold forward, bind, log_pass.
  destruct (add_cross_attention cfg && _); [by intros [= <- <-]|].
  destruct ids as [g|]; simpl; [|by intros [= <- <-]].
  destruct (valid_embedding_index cfg g); by intros [= <- <-].
Qed.

Lemma chunk2_inr {A} (l : list A) w p w' :
  chunk2 l w = (inr p, w') ->
  w' = w /\
  p = (take (Nat.div2 (S (length l))) l, drop (Nat.div2 (S (length l))) l).
Proof.
  unfold chunk2. destruct (length l =? 1)%nat; [discriminate|].
  intros Hc. apply ret_inr in Hc as [<- <-]. done.
Qed.

Lemma stack_inr {A} (l : list A) w r w' :
  stack l w = (inr r, w') -> r = l /\ w' = w.
Proof.
  destruct l; simpl; [discriminate|].
  intros Hc. apply ret_inr in Hc as [<- <-]. done.
Qed.

Lemma stable_stack {X A} (f : world -> X) (l : list A) : stable f (stack l).
Proof. destruct l; [apply stable_raise | apply stable_ret]. Qed.

(** What a call of the guidance block that returns has done. *)
Lemma guided_logits_inr ids ehs gs w l w' :
  guided_logits cfg ids ehs gs w = (inr l, w') ->
  exists g, ids = Some g /\
    (forall b s, rect b s g -> shape3 b s (channels cfg) l) /\
    tensors w' = tensors w /\ ambient w' = ambient w /\
    (passes w' = (Some g, ehs) :: passes w \/
     exists e, ehs = Some e /\
       passes w' = (Some (g ++ g), Some (e ++ zeros_like e)) :: passes w).
Proof.
  assert (Hplain : forall o,
    (let* logits := forward cfg ids o in
     ret (truncate_channels (codebook_size cfg) logits)) w = (inr l, w') ->
    exists g, ids = Some g /\
      (forall b s, rect b s g -> shape3 b s (channels cfg) l) /\
      tensors w' = tensors w /\ ambient w' = ambient w /\
      passes w' = (Some g, o) :: passes w).
  { intros o H. apply bind_inr in H as (lg & w1 & Hf & H).
    apply ret_inr in H as [<- <-].
    apply forward_inr in Hf as (g & -> & -> & Ht & Ha & Hp).
    exists g. split_and!; try done.
    intros b s Hg. apply shape3_truncate. by apply layers_shape. }
  unfold guided_logits. destruct ehs as [e|].
  - destruct (Qltb 0 gs).
    + intros H. apply bind_inr in H as (g & w1 & Hg & H).
      apply as_tensor_inr in Hg as [-> <-].
      apply bind_inr in H as (out & w1 & Hf & H).
      apply forward_inr in Hf as (g' & [= <-] & -> & Ht & Ha & Hp).
      apply bind_inr in H as (cu & w2 & Hc & H).
      apply chunk2_inr in Hc as (-> & ->).
      apply ret_inr in H as [<- <-]. clear Hplain. cbn [fst snd].
      exists g. split_and!; try done; [|right; eauto].
      intros b s Hg.
      pose proof (layers_shape cfg (b + b) s (g ++ g) (Some (e ++ zeros_like e))
                    (rect_app _ _ _ _ _ Hg Hg)) as [Hr Hc].
      pose proof Hr as [Hout _]. rewrite Hout.
      replace (Nat.div2 (S (b + b))) with b
        by (replace (b + b)%nat with (2 * b)%nat by lia;
            by rewrite Nat.div2_succ_double).
      apply shape3_mix; apply shape3_truncate; split.
      * replace b with (b `min` (b + b))%nat at 1 by lia. by apply rect_take.
      * by apply Forall_take.
      * replace b with (b + b - b)%nat at 1 by lia. by apply rect_drop.
      * by apply Forall_drop.
    + intros H. apply Hplain in H as (g & ? & ? & ? & ? & ?). exists g. eauto 10.
  - intros H. apply Hplain in H as (g & ? & ? & ? & ? & ?). exists g. eauto 10.
Qed.

(** The guidance block records its passes on every outcome and touches
    nothing else. *)
Lemma guided_logits_world ids ehs gs w r w' :
  guided_logits cfg ids ehs gs w = (r, w') ->
  tensors w' = tensors w /\ ambient w' = ambient w /\
  (passes w' = passes w \/
   passes w' = (ids, ehs) :: passes w \/
   exists g e, ids = Some g /\ ehs = Some e /\
     passes w' = (Some (g ++ g), Some (e ++ zeros_like e)) :: passes w).
Proof.
  assert (Hplain : forall o,
    (let* logits := forward cfg ids o in
     ret (truncate_channels (codebook_size cfg) logits)) w = (r, w') ->
    tensors w' = tensors w /\ ambient w' = ambient w /\
    passes w' = (ids, o) :: passes w).
  { intros o. unfold bind.
    destruct (forward cfg ids o w) as [[e|lg] w1] eqn:Hf;
      intros [= <- <-]; by apply forward_world in Hf. }
  unfold guided_logits. destruct ehs as [e|].
  - destruct (Qltb 0 gs).
    + destruct ids as [g|]; simpl; [|by intros [= <- <-]; auto].
      unfold bind at 1. simpl. unfold bind.
      destruct (forward cfg (Some (g ++ g)) (Some (e ++ zeros_like e)) w)
        as [[x|out] w1] eqn:Hf; apply forward_world in Hf as (? & ? & ?).
      * intros [= <- <-]. eauto 10.
      * unfold chunk2. destruct (length out =? 1)%nat; intros [= <- <-]; eauto 10.
    + intros H. destruct (Hplain _ H) as (? & ? & ?). auto.
  - intros H. destruct (Hplain _ H) as (? & ? & ?). auto.
Qed.

Lemma prepend_class_inr class_ids o w r w' :
  prepend_class class_ids o w = (inr r, w') ->
  w' = w /\
  match class_ids with
  | Some l => exists ids, o = Some ids /\
                r = Some (prepend_column (tensors w !!! l) ids)
  | None => r = o
  end.
Proof.
  unfold prepend_class. destruct class_ids as [l|].
  - intros H. apply bind_inr in H as (ids & w1 & Hi & H).
    apply as_tensor_inr in Hi as [-> <-]. injection H as <- <-. eauto.
  - intros H. apply ret_inr in H as [<- <-]. done.
Qed.

Lemma stable_prepend_class {X} (f : world -> X) class_ids o :
  stable f (prepend_class class_ids o).
Proof.
  unfold prepend_class. destruct class_ids; [|apply stable_ret].
  apply stable_bind; [apply stable_as_tensor|]. by intros ids w.
Qed.

Lemma draw_inr sampler p w i w' :
  draw sampler p w = (inr i, w') ->
  p <> [] /\ i = Z.of_nat (fst (sampler (ambient w) p)).
Proof.
  destruct p as [|x p]; simpl; [discriminate|].
  intros [= <- <-]. done.
Qed.

(** Sampling one index per position: the draws have the shape of the
    logits and stay below the number of channels. *)
Lemma sample_positions (f : list Q -> M Z) (n : nat) (l : logits3) w raw w' b s :
  (forall ch i w1 w2, length ch = n -> f ch w1 = (inr i, w2) ->
                      (0 <= i < Z.of_nat n)%Z) ->
  shape3 b s n l ->
  mapM_M (mapM_M f) l w = (inr raw, w') ->
  rect b s raw /\ all2 (fun i => (0 <= i < Z.of_nat n)%Z) raw.
Proof.
  intros Hf [Hr Hc] H. apply mapM_M_inr in H.
  assert (Forall2 (Forall2 (fun ch i => exists w1 w2, f ch w1 = (inr i, w2))) l raw)
    as H2.
  { eapply Forall2_impl; [exact H|].
    intros row r (w1 & w2 & Hrow). by apply mapM_M_inr in Hrow. }
  split; [by eapply rect_Forall2|].
  clear H Hr. induction H2 as [|row r l raw Hrow H2 IH]; [constructor|].
  inversion Hc as [|? ? Hrc Hc']; subst. constructor; [|by apply IH].
  clear IH H2 Hc Hc'.
  induction Hrow as [|ch i row r (w1 & w2 & Hd) Hrow IH]; [constructor|].
  inversion Hrc; subst. constructor; eauto.
Qed.

Lemma prepend_class_input class_ids o w g w' :
  prepend_class class_ids o w = (inr (Some g), w') -> exists ids, o = Some ids.
Proof.
  intros H. apply prepend_class_inr in H as [_ H]. destruct class_ids.
  - destruct H as (ids & -> & _). eauto.
  - subst. eauto.
Qed.

Lemma fed_and_stripped class_ids o w fed (lg : logits3) b s ids :
  prepend_class class_ids o w = (inr (Some fed), w) ->
  o = Some ids -> rect b s ids ->
  (forall l, class_ids = Some l -> length (tensors w !!! l) = b) ->
  (forall b' s', rect b' s' fed -> shape3 b' s' (channels cfg) lg) ->
  fed = fed_ids class_ids (tensors w) ids /\
  fst (strip_class class_ids fed lg) = ids /\
  shape3 b s (channels cfg) (snd (strip_class class_ids fed lg)).
Proof.
  intros Hpre -> Hrect Hcls Hshape.
  apply prepend_class_inr in Hpre as [_ Hfed].
  destruct class_ids as [l|]; simpl in *.
  - destruct Hfed as (ids0 & [= <-] & [= ->]).
    specialize (Hcls l eq_refl). destruct Hrect as [Hb Hr].
    split_and!; [done| |].
    + apply strip_prepend_column. lia.
    + apply shape3_strip_first, Hshape.
      by apply rect_prepend_column.
  - injection Hfed as ->. auto.
Qed.

(** What a round of [generate2] that returns has computed. *)
Lemma generate2_round_inr class_ids ehs T gs ns step st w st' w' b :
  generate2_round cfg class_ids ehs T gs ns step st w = (inr st', w') ->
  (forall ids, g2_input_ids st = Some ids -> rect b (num_vq_tokens cfg) ids) ->
  (forall l, class_ids = Some l -> length (tensors w !!! l) = b) ->
  exists ids logits raw masking,
    let unknown := is_mask_map (mask_token_id cfg) ids in
    let sampled := where2 unknown raw ids in
    g2_input_ids st = Some ids /\
    tensors w' = tensors w /\
    round_passes class_ids ehs ids w w' /\
    shape3 b (num_vq_tokens cfg) (channels cfg) logits /\
    rect b (num_vq_tokens cfg) raw /\
    all2 (fun i => (0 <= i < Z.of_nat (channels cfg))%Z) raw /\
    rect b (num_vq_tokens cfg) masking /\
    st' = {| g2_input_ids :=
               Some (where_scalar_l masking (mask_token_id cfg) sampled);
             g2_temperature := (g2_temperature st * (1 - step_ratio T step))%Q;
             g2_sampled_ids := Some sampled;
             g2_logits := Some logits;
             g2_unknown_map := unknown;
             g2_mask_len :=
               clamp_mask_len (num_vq_tokens cfg) (ns (step_ratio T step)) unknown |}.
Proof.
  unfold generate2_round. intros H Hrect Hcls.
  apply bind_inr in H as (fed & w1 & Hpre & H).
  pose proof (prepend_class_inr _ _ _ _ _ Hpre) as [-> _].
  apply bind_inr in H as (lg & w2 & Hg & H).
  apply guided_logits_inr in Hg as (g & -> & Hshape & Ht & Ha & Hp).
  apply bind_inr in H as (g' & w3 & Hx & H).
  apply as_tensor_inr in Hx as [[= <-] <-].
  apply bind_inr in H as (raw & w4 & Hs & H).
  apply bind_inr in H as (raw' & w5 & Hk & H).
  apply stack_inr in Hk as [-> ->].
  injection H as <- <-.
  destruct (prepend_class_input _ _ _ _ _ Hpre) as (ids & Hin).
  specialize (Hrect ids Hin).
  destruct (fed_and_stripped _ _ _ _ lg _ _ _ Hpre Hin Hrect Hcls Hshape)
    as (Hfed & Hids & Hlg).
  rewrite Hids in *.
  set (logits := snd (strip_class class_ids g lg)) in *.
  assert (rect b (num_vq_tokens cfg) raw /\
          all2 (fun i => (0 <= i < Z.of_nat (channels cfg))%Z) raw) as [Hraw Hval].
  { eapply sample_positions; [| exact Hlg | exact Hs].
    intros ch i wa wb Hch Hd. apply draw_inr in Hd as [Hne ->].
    pose proof (multinomial_lt (ambient wa) _ Hne) as Hlt.
    rewrite softmax_length, Hch in Hlt. lia. }
  pose proof (stable_inv tensors _ _ _ _ (stable_mapM _ _ _
    (fun row => stable_mapM _ _ row (fun ch => stable_draw_tensors _ _))) Hs) as Hst.
  pose proof (stable_inv passes _ _ _ _ (stable_mapM _ _ _
    (fun row => stable_mapM _ _ row (fun ch => stable_draw_passes _ _))) Hs) as Hsp.
  pose proof (rect_is_mask_map _ _ (mask_token_id cfg) _ Hrect) as Hunk.
  pose proof (rect_where2 _ _ _ _ _ Hunk Hraw Hrect) as Hsam.
  eexists ids, logits, raw, _. cbn zeta. split_and!; [..|reflexivity]; simpl.
  - done.
  - congruence.
  - unfold round_passes. rewrite <- Hfed, Hsp.
    destruct Hp as [Hp|(e & -> & Hp)]; [by left | right; eauto].
  - done.
  - done.
  - done.
  - eapply rect_same_lengths; [apply mask_by_random_topk_shape|].
    unfold where_scalar_r. apply rect_zip_with2; [done|].
    unfold gather_last. apply rect_zip_with2; [|done].
    apply rect_map2. by destruct Hlg.
Qed.

Lemma topk_rows_inr s k scores w idx w' :
  topk_rows s k scores w = (inr idx, w') ->
  w' = w /\ idx = map (topk_indices k) scores.
Proof.
  unfold topk_rows. case_match; [|discriminate].
  intros Hr. apply ret_inr in Hr as [<- <-]. done.
Qed.

Lemma stable_topk_rows {X} (f : world -> X) s k scores :
  stable f (topk_rows s k scores).
Proof. unfold topk_rows. case_match; [apply stable_ret | apply stable_raise]. Qed.

(** What a round of [generate] that returns has computed. *)
Lemma generate_round_inr class_ids ehs t0 thres T gs ns it st w st' w' b :
  generate_round cfg class_ids ehs t0 thres T gs ns it st w = (inr st', w') ->
  (forall ids, g1_input_ids st = Some ids -> rect b (num_vq_tokens cfg) ids) ->
  length (g1_scores st) = b ->
  (forall l, class_ids = Some l -> length (tensors w !!! l) = b) ->
  exists ids idx logits pred,
    let scattered :=
      zip_with (fun i row => scatter_row i (mask_token_id cfg) row) idx ids in
    g1_input_ids st = Some ids /\
    rect b (num_vq_tokens cfg) scattered /\
    tensors w' = tensors w /\
    round_passes class_ids ehs scattered w w' /\
    shape3 b (num_vq_tokens cfg) (channels cfg) logits /\
    rect b (num_vq_tokens cfg) pred /\
    all2 (fun i => (0 <= i < Z.of_nat (channels cfg))%Z) pred /\
    st' = {| g1_input_ids :=
               Some (where2 (is_mask_map (mask_token_id cfg) scattered)
                            pred scattered);
             g1_scores :=
               map (map (fun p => (1 - p)%Q))
                   (gather_last (map (map softmax) logits) pred);
             g1_temperature := (t0 * (inject_Z (snd it) / inject_Z T))%Q;
             g1_logits := Some logits |}.
Proof.
  unfold generate_round. intros H Hrect Hscores Hcls.
  apply bind_inr in H as (idx & w0 & Hk & H).
  apply topk_rows_inr in Hk as [-> ->].
  apply bind_inr in H as (ids & w0 & Hi & H).
  apply as_tensor_inr in Hi as [Hin <-].
  specialize (Hrect ids Hin).
  set (idx := map (topk_indices _) (g1_scores st)) in *.
  set (scattered := zip_with _ idx ids) in *.
  assert (rect b (num_vq_tokens cfg) scattered) as Hsc.
  { apply rect_scatter; [|done]. unfold idx. by rewrite length_map. }
  apply bind_inr in H as (fed & w1 & Hpre & H).
  pose proof (prepend_class_inr _ _ _ _ _ Hpre) as [-> _].
  apply bind_inr in H as (lg & w2 & Hg & H).
  apply guided_logits_inr in Hg as (g & -> & Hshape & Ht & Ha & Hp).
  apply bind_inr in H as (g' & w3 & Hx & H).
  apply as_tensor_inr in Hx as [[= <-] <-].
  apply bind_inr in H as (pred & w4 & Hs & H).
  apply ret_inr in H as [<- <-].
  destruct (fed_and_stripped _ _ _ _ lg _ _ _ Hpre eq_refl Hsc Hcls Hshape)
    as (Hfed & Hids & Hlg).
  rewrite Hids in *.
  set (logits := snd (strip_class class_ids g lg)) in *.
  assert (rect b (num_vq_tokens cfg) pred /\
          all2 (fun i => (0 <= i < Z.of_nat (channels cfg))%Z) pred) as [Hraw Hval].
  { eapply sample_positions; [| | exact Hs].
    - intros ch i wa wb Hch Hd. apply draw_inr in Hd as [Hne ->].
      pose proof (gumbel_sample_lt (ambient wa) ch
        (t0 * (inject_Z (snd it) / inject_Z T))%Q Hne) as Hlt.
      rewrite Hch in Hlt. lia.
    - destruct Hlg as [Hlr Hlc]. split; [by apply rect_map2|].
      apply all2_map2. eapply all2_impl; [exact Hlc|].
      intros ch Hch. simpl in *. by rewrite top_k_length. }
  pose proof (stable_inv tensors _ _ _ _ (stable_mapM _ _ _
    (fun row => stable_mapM _ _ row (fun ch => stable_draw_tensors _ _))) Hs) as Hst.
  pose proof (stable_inv passes _ _ _ _ (stable_mapM _ _ _
    (fun row => stable_mapM _ _ row (fun ch => stable_draw_passes _ _))) Hs) as Hsp.
  exists ids, idx, logits, pred. cbn zeta. fold scattered.
  split_and!; [..|reflexivity]; simpl.
  - done.
  - done.
  - congruence.
  - unfold round_passes. rewrite <- Hfed, Hsp.
    destruct Hp as [Hp|(e & -> & Hp)]; [by left | right; eauto].
  - done.
  - done.
  - done.
Qed.

(** ** The world after a round, on every outcome *)

Lemma feed_world {A} class_ids o ehs gs (K : option grid -> logits3 -> M A) w r w' :
  (forall fed lg, stable tensors (K fed lg)) ->
  (forall fed lg, stable passes (K fed lg)) ->
  (let* fed := prepend_class class_ids o in
   let* lg := guided_logits cfg fed ehs gs in K fed lg) w = (r, w') ->
  round_world class_ids w w'.
Proof.
  intros HKt HKp. unfold bind at 1.
  destruct (prepend_class class_ids o w) as [[e|fed] w1] eqn:Hpre.
  - intros [= <- <-].
    pose proof (stable_inv tensors _ _ _ _ (stable_prepend_class _ _ _) Hpre).
    pose proof (stable_inv passes _ _ _ _ (stable_prepend_class _ _ _) Hpre).
    split; auto.
  - apply prepend_class_inr in Hpre as [-> Hfed]. unfold bind.
    destruct (guided_logits cfg fed ehs gs w) as [[e|lg] w2] eqn:Hg;
      apply guided_logits_world in Hg as (Ht & _ & Hp).
    + intros [= <- <-]. split; [done|].
      destruct Hp as [Hp | Hp]; [by left|right].
      destruct Hp as [Hp | (g & e' & -> & -> & Hp)]; eexists; (split; [exact Hp|]);
        intros l ->; destruct Hfed as (ids & _ & [= ->]); exists ids; simpl; auto.
    + intros HK.
      pose proof (stable_inv tensors _ _ _ _ (HKt fed lg) HK) as Ht'.
      pose proof (stable_inv passes _ _ _ _ (HKp fed lg) HK) as Hp'.
      split; [congruence|]. rewrite Hp'.
      destruct Hp as [Hp | Hp]; [by left|right].
      destruct Hp as [Hp | (g & e' & -> & -> & Hp)]; eexists; (split; [exact Hp|]);
        intros l ->; destruct Hfed as (ids & _ & [= ->]); exists ids; simpl; auto.
Qed.

Lemma generate2_round_world class_ids ehs T gs ns step st w r w' :
  generate2_round cfg class_ids ehs T gs ns step st w = (r, w') ->
  round_world class_ids w w'.
Proof.
  unfold generate2_round. apply feed_world; intros fed lg.
  - apply stable_bind; [apply stable_as_tensor|]. intros ids.
    apply stable_bind; [|intros raw;
      apply stable_bind; [apply stable_stack | by intros raw' w0]].
    apply stable_mapM. intros row. apply stable_mapM. intros ch.
    apply stable_draw_tensors.
  - apply stable_bind; [apply stable_as_tensor|]. intros ids.
    apply stable_bind; [|intros raw;
      apply stable_bind; [apply stable_stack | by intros raw' w0]].
    apply stable_mapM. intros row. apply stable_mapM. intros ch.
    apply stable_draw_passes.
Qed.

Lemma generate_round_world class_ids ehs t0 thres T gs ns it st w r w' :
  generate_round cfg class_ids ehs t0 thres T gs ns it st w = (r, w') ->
  round_world class_ids w w'.
Proof.
  unfold generate_round. unfold bind at 1.
  destruct (topk_rows _ _ _ w) as [[e|idx] w0] eqn:Hk.
  { intros [= <- <-].
    pose proof (stable_inv tensors _ _ _ _ (stable_topk_rows _ _ _ _) Hk).
    pose proof (stable_inv passes _ _ _ _ (stable_topk_rows _ _ _ _) Hk).
    split; auto. }
  apply topk_rows_inr in Hk as [-> _]. unfold bind at 1.
  destruct (g1_input_ids st) as [ids|]; simpl; [|intros [= <- <-]; by split; auto].
  apply feed_world; intros fed lg.
  - apply stable_bind; [apply stable_as_tensor|]. intros ids'.
    apply stable_bind; [|intros pred; apply stable_ret].
    apply stable_mapM. intros row. apply stable_mapM. intros ch.
    apply stable_draw_tensors.
  - apply stable_bind; [apply stable_as_tensor|]. intros ids'.
    apply stable_bind; [|intros pred; apply stable_ret].
    apply stable_mapM. intros row. apply stable_mapM. intros ch.
    apply stable_draw_passes.
Qed.

(** ** Entering the loop *)

Lemma lookup_total_alter_map (f : Z -> Z) l (ts : gmap loc (list Z)) :
  alter (map f) l ts !!! l = map f (ts !!! l).
Proof.
  rewrite !lookup_total_alt, lookup_alter_eq.
  by destruct (ts !! l).
Qed.

Lemma shifted_batch class_ids ehs w l :
  class_ids = Some l ->
  length (shifted cfg class_ids (tensors w) !!! l) = batch_of class_ids ehs w.
Proof. intros ->. simpl. by rewrite lookup_total_alter_map, length_map. Qed.

(** Lines 567-572 followed by the construction of the locals. *)
Lemma prelude_run {A} (F : nat -> A) class_ids ehs w :
  (let* batch_size := get_batch_size class_ids ehs in
   let* _ := shift_class_ids cfg class_ids in
   ret (F batch_size)) w =
  match class_ids, ehs with
  | None, None => (inl AttributeError, w)
  | _, _ =>
      (inr (F (batch_of class_ids ehs w)),
       {| tensors := shifted cfg class_ids (tensors w);
          ambient := ambient w; passes := passes w |})
  end.
Proof. destruct w, class_ids, ehs; reflexivity. Qed.

Lemma prelude_world {A} (F : nat -> A) class_ids ehs w r w1 :
  (let* batch_size := get_batch_size class_ids ehs in
   let* _ := shift_class_ids cfg class_ids in
   ret (F batch_size)) w = (r, w1) ->
  tensors w1 = shifted cfg class_ids (tensors w) /\
  ambient w1 = ambient w /\ passes w1 = passes w.
Proof.
  rewrite prelude_run. destruct class_ids, ehs; by intros [= <- <-].
Qed.

Lemma prelude_inr {A} (F : nat -> A) class_ids ehs w a w1 :
  (let* batch_size := get_batch_size class_ids ehs in
   let* _ := shift_class_ids cfg class_ids in
   ret (F batch_size)) w = (inr a, w1) ->
  a = F (batch_of class_ids ehs w).
Proof.
  rewrite prelude_run. destruct class_ids, ehs; by intros [= <- <-].
Qed.

(** ** Invariants of the rounds, for runs that complete *)

Lemma channels_valid i :
  (0 <= i < Z.of_nat (channels cfg))%Z -> valid_code cfg i.
Proof. unfold channels, valid_code. lia. Qed.

Lemma valid_mask_or_code t : valid_code cfg t -> mask_or_code cfg t.
Proof. by right. Qed.

Lemma mask_or_code_decided t :
  mask_or_code cfg t -> t <> mask_token_id cfg -> valid_code cfg t.
Proof. by intros [->|]. Qed.

Lemma world_inv_step class_ids ts b P0 ehs ids w w' :
  world_inv cfg class_ids ts b P0 w ->
  rect b (num_vq_tokens cfg) ids ->
  tensors w' = tensors w ->
  round_passes class_ids ehs ids w w' ->
  world_inv cfg class_ids ts b P0 w'.
Proof.
  intros [Ht (new & Hp & Hnew)] Hids Ht' Hr. split; [congruence|].
  unfold round_passes in Hr. rewrite Ht in Hr.
  destruct Hr as [Hr | (e & _ & Hr)]; rewrite Hr, Hp;
    eexists (_ :: new); (split; [reflexivity|]);
    (constructor; [|done]); exists ids; simpl; auto.
Qed.

Lemma generate2_round_inv class_ids ehs T gs ns ts b P0 step st w st' w' :
  (forall l, class_ids = Some l -> length (ts !!! l) = b) ->
  inv2 cfg class_ids ts b P0 st w ->
  generate2_round cfg class_ids ehs T gs ns step st w = (inr st', w') ->
  inv2 cfg class_ids ts b P0 st' w' /\ is_Some (g2_sampled_ids st').
Proof.
  intros Hcls (HW & Hin & Hsam) H.
  pose proof HW as [Hts _].
  apply (generate2_round_inr _ _ _ _ _ _ _ _ _ _ b) in H
    as (ids & logits & raw & masking & Hids & Ht & Hp & Hlg & Hraw & Hval & Hm & ->);
    [| intros ids Hids; by apply Hin | by rewrite Hts].
  destruct (Hin ids Hids) as [Hrect Hmc].
  assert (all2 (valid_code cfg) (where2 (is_mask_map (mask_token_id cfg) ids) raw ids))
    as Hdec.
  { eapply where2_decided; [apply mask_or_code_decided | | exact Hmc].
    eapply all2_impl; [exact Hval | apply channels_valid]. }
  assert (rect b (num_vq_tokens cfg)
            (where2 (is_mask_map (mask_token_id cfg) ids) raw ids)) as Hsr.
  { apply rect_where2; [by apply rect_is_mask_map | done | done]. }
  split; [|simpl; eauto]. split_and!; simpl.
  - exact (world_inv_step _ _ _ _ ehs ids _ _ HW Hrect Ht Hp).
  - intros ? [= <-]. split.
    + unfold where_scalar_l. by apply rect_zip_with2.
    + apply all2_where_scalar_l; [by left|].
      eapply all2_impl; [exact Hdec | apply valid_mask_or_code].
  - intros ? [= <-]. done.
Qed.

Lemma generate2_rounds_inv input_ids class_ids ehs t0 T gs ns steps w st w' :
  generate2_rounds cfg input_ids class_ids ehs t0 T gs ns steps w = (inr st, w') ->
  inv2 cfg class_ids (shifted cfg class_ids (tensors w)) (batch_of class_ids ehs w)
       (passes w) st w' /\
  (steps <> [] -> is_Some (g2_sampled_ids st)).
Proof.
  unfold generate2_rounds. intros H.
  apply bind_inr in H as (st0 & w0 & Hinit & H).
  unfold generate2_init in Hinit.
  pose proof (prelude_world _ _ _ _ _ _ Hinit) as (Ht0 & _ & Hp0).
  apply prelude_inr in Hinit as ->.
  set (b := batch_of class_ids ehs w) in *.
  set (ts := shifted cfg class_ids (tensors w)) in *.
  assert (forall l, class_ids = Some l -> length (ts !!! l) = b) as Hcls.
  { intros l Hl. by apply shifted_batch. }
  match type of H with for_each _ _ ?s _ = _ => set (st0 := s) in * end.
  assert (inv2 cfg class_ids ts b (passes w) st0 w0) as H0.
  { split_and!.
    - split; [done|]. exists []. by split.
    - simpl. unfold init_input_ids. destruct input_ids; intros ? [= <-].
      split; [apply rect_full | apply all2_full; by left].
    - simpl. discriminate. }
  split.
  - eapply (for_each_inv _ (inv2 cfg class_ids ts b (passes w))); [| exact H0 | exact H].
    intros x s1 w1 s2 w2 HI Hr.
    by destruct (generate2_round_inv _ _ _ _ _ _ _ _ _ _ _ _ _ Hcls HI Hr).
  - intros Hne.
    eapply (for_each_post _ (inv2 cfg class_ids ts b (passes w))
              (fun s w1 => inv2 cfg class_ids ts b (passes w) s w1 /\
                           is_Some (g2_sampled_ids s))) in H;
      [by destruct H | | by intros s1 w1 [? _] | exact Hne | exact H0].
    intros x s1 w1 s2 w2 HI Hr.
    exact (generate2_round_inv _ _ _ _ _ _ _ _ _ _ _ _ _ Hcls HI Hr).
Qed.

Lemma generate_round_inv class_ids ehs t0 thres T gs ns ts b P0 it st w st' w' :
  (forall l, class_ids = Some l -> length (ts !!! l) = b) ->
  inv1 cfg class_ids ts b P0 st w ->
  generate_round cfg class_ids ehs t0 thres T gs ns it st w = (inr st', w') ->
  inv1 cfg class_ids ts b P0 st' w' /\ decided1 cfg b st'.
Proof.
  intros Hcls (HW & Hsc & Hin) H.
  pose proof HW as [Hts _].
  apply (generate_round_inr _ _ _ _ _ _ _ _ _ _ _ _ b) in H
    as (ids & idx & logits & pred & Hids & Hsr & Ht & Hp & Hlg & Hraw & Hval & ->);
    [| intros ids Hids; by apply Hin | by destruct Hsc | by rewrite Hts].
  destruct (Hin ids Hids) as [Hrect Hmc].
  set (scattered := zip_with _ idx ids) in *.
  assert (all2 (mask_or_code cfg) scattered) as Hsm.
  { apply all2_scatter; [by left | done]. }
  assert (all2 (valid_code cfg) (where2 (is_mask_map (mask_token_id cfg) scattered)
                                  pred scattered)) as Hdec.
  { eapply where2_decided; [apply mask_or_code_decided | | exact Hsm].
    eapply all2_impl; [exact Hval | apply channels_valid]. }
  assert (rect b (num_vq_tokens cfg)
            (where2 (is_mask_map (mask_token_id cfg) scattered) pred scattered))
    as Hwr.
  { apply rect_where2; [by apply rect_is_mask_map | done | done]. }
  split; [|by eexists; split_and!]. split_and!; simpl.
  - exact (world_inv_step _ _ _ _ ehs scattered _ _ HW Hsr Ht Hp).
  - apply rect_map2. unfold gather_last. apply rect_zip_with2; [|done].
    apply rect_map2. by destruct Hlg.
  - intros ? [= <-]. split; [done|].
    eapply all2_impl; [exact Hdec | apply valid_mask_or_code].
Qed.

Lemma length_generate_schedule T w its w' :
  generate_schedule T w = (inr its, w') -> w' = w /\ length its = Z.to_nat T.
Proof.
  unfold generate_schedule. case_match; [discriminate|].
  intros Hr. apply ret_inr in Hr as [<- <-]. split; [done|].
  unfold linspace01.
  rewrite length_zip, length_map, length_reverse, !length_seqZ. lia.
Qed.

Lemma generate_rounds_inv input_ids class_ids ehs t0 thres T gs ns n w st w' :
  generate_rounds cfg input_ids class_ids ehs t0 thres T gs ns n w = (inr st, w') ->
  let b := batch_of class_ids ehs w in
  inv1 cfg class_ids (shifted cfg class_ids (tensors w)) b (passes w) st w' /\
  ((0 < n)%nat -> (0 < T)%Z -> decided1 cfg b st).
Proof.
  unfold generate_rounds. intros H.
  apply bind_inr in H as (st0 & w0 & Hinit & H).
  apply bind_inr in H as (its & w1 & Hsch & H).
  apply length_generate_schedule in Hsch as [-> Hlen].
  unfold generate_init in Hinit.
  pose proof (prelude_world _ _ _ _ _ _ Hinit) as (Ht0 & _ & Hp0).
  apply prelude_inr in Hinit as ->.
  set (b := batch_of class_ids ehs w) in *.
  set (ts := shifted cfg class_ids (tensors w)) in *.
  assert (forall l, class_ids = Some l -> length (ts !!! l) = b) as Hcls.
  { intros l Hl. by apply shifted_batch. }
  match type of H with for_each _ _ ?s _ = _ => set (st0 := s) in * end.
  assert (inv1 cfg class_ids ts b (passes w) st0 w0) as H0.
  { split_and!.
    - split; [done|]. exists []. by split.
    - simpl. apply rect_full.
    - simpl. unfold init_input_ids. destruct input_ids; intros ? [= <-].
      split; [apply rect_full | apply all2_full; by left]. }
  cbn zeta. split.
  - eapply (for_each_inv _ (inv1 cfg class_ids ts b (passes w))); [| exact H0 | exact H].
    intros x s1 w1 s2 w2 HI Hr.
    by destruct (generate_round_inv _ _ _ _ _ _ _ _ _ _ _ _ _ _ _ Hcls HI Hr).
  - intros Hn HT.
    eapply (for_each_post _ (inv1 cfg class_ids ts b (passes w))
              (fun s w1 => inv1 cfg class_ids ts b (passes w) s w1 /\ decided1 cfg b s)) in H;
      [by destruct H | | by intros s1 w1 [? _] | | exact H0].
    + intros x s1 w1 s2 w2 HI Hr.
      exact (generate_round_inv _ _ _ _ _ _ _ _ _ _ _ _ _ _ _ Hcls HI Hr).
    + intros Hnil. apply (f_equal length) in Hnil.
      rewrite length_take, Hlen in Hnil. simpl in Hnil. lia.
Qed.

Lemma generate2_rounds_logits input_ids class_ids ehs t0 T gs ns steps w st w' :
  generate2_rounds cfg input_ids class_ids ehs t0 T gs ns steps w = (inr st, w') ->
  logits_ok cfg (batch_of class_ids ehs w) (g2_logits st).
Proof.
  unfold generate2_rounds. intros H.
  apply bind_inr in H as (st0 & w0 & Hinit & H).
  assert (generate2_rounds cfg input_ids class_ids ehs t0 T gs ns [] w
          = (inr st0, w0)) as H0.
  { unfold generate2_rounds. by rewrite (bind_step _ _ _ _ _ Hinit). }
  apply generate2_rounds_inv in H0 as [H0 _].
  set (b := batch_of class_ids ehs w) in *.
  set (ts := shifted cfg class_ids (tensors w)) in *.
  assert (forall l, class_ids = Some l -> length (ts !!! l) = b) as Hcls.
  { intros l Hl. by apply shifted_batch. }
  eapply (for_each_inv _ (fun s w1 => inv2 cfg class_ids ts b (passes w) s w1 /\
                                      logits_ok cfg b (g2_logits s))) in H;
    [by destruct H | |].
  - intros x s1 w1 s2 w2 [HI _] Hr. split.
    + by destruct (generate2_round_inv _ _ _ _ _ _ _ _ _ _ _ _ _ Hcls HI Hr).
    + destruct HI as ([Hts _] & Hin & _).
      apply (generate2_round_inr _ _ _ _ _ _ _ _ _ _ b) in Hr
        as (ids & lg & raw & masking & _ & _ & _ & Hlg & _ & _ & _ & ->);
        [| intros ids Hids; by apply Hin | by rewrite Hts].
      by intros ? [= <-].
  - split; [done|]. unfold generate2_init in Hinit.
    apply prelude_inr in Hinit as ->. by intros ? [=].
Qed.

Lemma generate_rounds_logits input_ids class_ids ehs t0 thres T gs ns n w st w' :
  generate_rounds cfg input_ids class_ids ehs t0 thres T gs ns n w = (inr st, w') ->
  logits_ok cfg (batch_of class_ids ehs w) (g1_logits st).
Proof.
  unfold generate_rounds. intros H.
  apply bind_inr in H as (st0 & w0 & Hinit & H).
  apply bind_inr in H as (its & w1 & Hsch & H).
  pose proof (length_generate_schedule _ _ _ _ Hsch) as [-> _].
  assert (generate_rounds cfg input_ids class_ids ehs t0 thres T gs ns 0 w
          = (inr st0, w0)) as H0.
  { unfold generate_rounds. rewrite (bind_step _ _ _ _ _ Hinit).
    by rewrite (bind_step _ _ _ _ _ Hsch). }
  apply generate_rounds_inv in H0 as [H0 _].
  set (b := batch_of class_ids ehs w) in *.
  set (ts := shifted cfg class_ids (tensors w)) in *.
  assert (forall l, class_ids = Some l -> length (ts !!! l) = b) as Hcls.
  { intros l Hl. by apply shifted_batch. }
  eapply (for_each_inv _ (fun s w1 => inv1 cfg class_ids ts b (passes w) s w1 /\
                                      logits_ok cfg b (g1_logits s))) in H;
    [by destruct H | |].
  - intros x s1 w1 s2 w2 [HI _] Hr. split.
    + by destruct (generate_round_inv _ _ _ _ _ _ _ _ _ _ _ _ _ _ _ Hcls HI Hr).
    + destruct HI as ([Hts _] & Hsc & Hin).
      apply (generate_round_inr _ _ _ _ _ _ _ _ _ _ _ _ b) in Hr
        as (ids & idx & lg & pred & _ & _ & _ & _ & Hlg & _ & _ & ->);
        [| intros ids Hids; by apply Hin | by destruct Hsc | by rewrite Hts].
      by intros ? [= <-].
  - split; [done|]. unfold generate_init in Hinit.
    apply prelude_inr in Hinit as ->. by intros ? [=].
Qed.

End DecoderFacts.

(** * Whole calls *)

Section CallFacts.
Context `{E : Externals} {L : ExternalsLaws E} (cfg : config).

Lemma generate2_returns input_ids class_ids ehs t0 T gs ns gen w g w' :
  generate2 cfg input_ids class_ids ehs t0 T gs ns gen w = (inr g, w') ->
  exists st,
    generate2_rounds cfg input_ids class_ids ehs t0 T gs ns (seqZ 0 T) w
      = (inr st, w') /\ g2_sampled_ids st = Some g.
Proof.
  unfold generate2. intros H. apply bind_inr in H as (st & w1 & Hr & H).
  apply as_tensor_inr in H as [Hs <-]. eauto.
Qed.

Lemma generate_returns input_ids class_ids ehs t0 thres T gs ns w r w' :
  generate cfg input_ids class_ids ehs t0 thres T gs ns w = (inr r, w') ->
  exists st,
    generate_rounds cfg input_ids class_ids ehs t0 thres T gs ns (Z.to_nat T) w
      = (inr st, w') /\ g1_input_ids st = r.
Proof.
  unfold generate. intros H. apply bind_inr in H as (st & w1 & Hr & H).
  apply ret_inr in H as [<- <-]. eauto.
Qed.

(** With at least one round, what [generate] returns is a grid. *)
Lemma generate_returns_grid input_ids class_ids ehs t0 thres T gs ns w r w' :
  (1 <= T)%Z ->
  generate cfg input_ids class_ids ehs t0 thres T gs ns w = (inr r, w') ->
  exists g, r = Some g.
Proof.
  intros HT H. apply generate_returns in H as (st & H & <-).
  apply generate_rounds_inv in H as [_ Hdec].
  destruct Hdec as (ids & Hids & _); [lia..|]. eauto.
Qed.

(** The grid returned by a call with at least one round, the world it leaves
    and the passes it made. *)
Lemma decode_returns input_ids class_ids ehs t0 thres T gs ns gen w g w' :
  (1 <= T)%Z ->
  generate cfg input_ids class_ids ehs t0 thres T gs ns w = (inr (Some g), w') \/
  generate2 cfg input_ids class_ids ehs t0 T gs ns gen w = (inr g, w') ->
  let b := batch_of class_ids ehs w in
  let ts := shifted cfg class_ids (tensors w) in
  rect b (num_vq_tokens cfg) g /\ all2 (valid_code cfg) g /\
  world_inv cfg class_ids ts b (passes w) w'.
Proof.
  intros HT [H|H].
  - apply generate_returns in H as (st & H & Hst).
    apply generate_rounds_inv in H as [(HW & _ & _) Hdec].
    destruct Hdec as (ids & Hids & Hr & Hv); [lia..|].
    rewrite Hst in Hids. injection Hids as <-. done.
  - apply generate2_returns in H as (st & H & Hst).
    apply generate2_rounds_inv in H as [(HW & _ & Hsam) _].
    destruct (Hsam g Hst). done.
Qed.

(** ** The world after a call, on every outcome *)

Lemma rounds_world {A S} (body : A -> S -> M S) class_ids xs st w0 w1 r w' :
  (forall x s wa ra wb, body x s wa = (ra, wb) -> round_world class_ids wa wb) ->
  tensors w1 = shifted cfg class_ids (tensors w0) ->
  passes w1 = passes w0 ->
  for_each body xs st w1 = (r, w') ->
  call_world cfg class_ids w0 w'.
Proof.
  intros Hb Ht Hp H.
  assert (call_world cfg class_ids w0 (snd (for_each body xs st w1))) as HW;
    [|by rewrite H in HW].
  apply for_each_world.
  - intros x s wa [Hta (new & Hpa & Hnew)].
    destruct (body x s wa) as [ra wb] eqn:Hbody. simpl.
    apply Hb in Hbody as [Htb Hpb]. split; [congruence|].
    destruct Hpb as [Hpb | (p & Hpb & Hfed)].
    + exists new. split; [congruence | done].
    + exists (p :: new). split; [by rewrite Hpb, Hpa|].
      intros l Hl. constructor; [|by apply Hnew].
      rewrite <- Hta. by apply Hfed.
  - split; [done|]. exists []. split; [done|]. by intros.
Qed.

Lemma generate2_world input_ids class_ids ehs t0 T gs ns gen w r w' :
  generate2 cfg input_ids class_ids ehs t0 T gs ns gen w = (r, w') ->
  call_world cfg class_ids w w'.
Proof.
  unfold generate2, generate2_rounds. unfold bind at 1 2.
  destruct (generate2_init cfg _ _ _ _ w) as [[e|st0] w1] eqn:Hinit;
    apply prelude_world in Hinit as (Ht & _ & Hp).
  { intros [= <- <-]. split; [done|]. exists []. split; [done|]. by intros. }
  destruct (for_each _ _ _ w1) as [[e|st] w2] eqn:Hloop.
  - intros [= <- <-]. eapply rounds_world; [| exact Ht | exact Hp | exact Hloop].
    intros x s wa ra wb. apply generate2_round_world.
  - intros H.
    pose proof (stable_inv tensors _ _ _ _ (stable_as_tensor _ _ _) H) as Ht2.
    pose proof (stable_inv passes _ _ _ _ (stable_as_tensor _ _ _) H) as Hp2.
    eapply rounds_world in Hloop as [Hta Hpa];
      [| intros x s wa ra wb; apply generate2_round_world | exact Ht | exact Hp].
    split; [congruence|]. by rewrite Hp2.
Qed.

Lemma generate_world input_ids class_ids ehs t0 thres T gs ns w r w' :
  generate cfg input_ids class_ids ehs t0 thres T gs ns w = (r, w') ->
  call_world cfg class_ids w w'.
Proof.
  unfold generate, generate_rounds. unfold bind at 1 2.
  destruct (generate_init cfg _ _ _ _ w) as [[e|st0] w1] eqn:Hinit;
    apply prelude_world in Hinit as (Ht & _ & Hp).
  { intros [= <- <-]. split; [done|]. exists []. split; [done|]. by intros. }
  unfold bind at 1. unfold generate_schedule. destruct (T <? 0)%Z.
  { intros [= <- <-]. split; [done|]. exists []. rewrite Hp. split; [done|]. by intros. }
  simpl. destruct (for_each _ _ _ w1) as [[e|st] w2] eqn:Hloop.
  - intros [= <- <-]. eapply rounds_world; [| exact Ht | exact Hp | exact Hloop].
    intros x s wa ra wb. apply generate_round_world.
  - intros [= <- <-].
    eapply rounds_world; [| exact Ht | exact Hp | exact Hloop].
    intros x s wa ra wb. apply generate_round_world.
Qed.

End CallFacts.

(** * The concrete backend respects the contracts *)

Lemma Forall_imap_intro {A B} (P : B -> Prop) (f : nat -> A -> B) l :
  (forall i x, P (f i x)) -> Forall P (imap f l).
Proof.
  revert f. induction l as [|x l IH]; intros f Hf; simpl; constructor; auto.
  apply IH. intros i y. apply Hf.
Qed.

Lemma imap_same_lengths {A B} (f : nat -> list A -> list B) l :
  (forall i x, length (f i x) = length x) ->
  Forall2 (fun m p => length m = length p) (imap f l) l.
Proof.
  revert f. induction l as [|x l IH]; intros f Hf; simpl; constructor; auto.
  apply IH. intros i y. apply Hf.
Qed.

Lemma Forall_imap_impl {A B} (P : A -> Prop) (Q : B -> Prop)
    (f : nat -> A -> B) l :
  (forall i x, P x -> Q (f i x)) -> Forall P l -> Forall Q (imap f l).
Proof.
  revert f. induction l as [|x l IH]; intros f Hf Hl; simpl; [constructor|].
  inversion Hl; subst. constructor; [auto|].
  apply IH; [|done]. intros i y. apply Hf.
Qed.

Lemma toy_layers_shape cfg b s ids c :
  rect b s ids -> shape3 b s (vocab_size cfg) (Toy.layers cfg ids c).
Proof.
  intros [Hb Hr]. unfold Toy.layers. split; [split|].
  - by rewrite length_imap.
  - eapply Forall_imap_impl; [|exact Hr].
    intros i row Hrow. simpl in *. by rewrite length_map.
  - apply Forall_imap_intro. intros i row.
    apply Forall_map, Forall_forall. intros tok _. simpl.
    by rewrite length_map, length_seq.
Qed.

Lemma toy_mod_lt (r : nat) {A} (p : list A) : p <> [] -> (r mod length p < length p)%nat.
Proof.
  intros Hp. apply Nat.mod_upper_bound. by destruct p.
Qed.

#[export] Instance toy_laws : ExternalsLaws Toy.externals.
Proof.
  split.
  - apply toy_layers_shape.
  - intros r p Hp. simpl. by apply toy_mod_lt.
  - intros r l t Hl. simpl. by apply toy_mod_lt.
  - done.
  - done.
  - intros r ml probs t. simpl. apply imap_same_lengths.
    intros i p. unfold Toy.lowest. by rewrite length_imap.
Qed.

(** * Calls that complete *)

Section Completion.
Context `{E : Externals} {L : ExternalsLaws E} (cfg : config).

Lemma valid_embedding_index_true g :
  all2 (in_vocab cfg) g ->
  Forall (fun row => (length row <= max_position_embeddings cfg)%nat) g ->
  valid_embedding_index cfg g = true.
Proof.
  intros Hv Hl. unfold valid_embedding_index.
  apply forallb_forall. intros row Hin.
  apply list_elem_of_In in Hin. unfold all2 in Hv.
  rewrite Forall_forall in Hv, Hl.
  apply andb_true_iff. split.
  - apply forallb_forall. intros t Ht. apply list_elem_of_In in Ht.
    specialize (Hv row Hin). rewrite Forall_forall in Hv.
    specialize (Hv t Ht). unfold in_vocab in Hv.
    apply andb_true_iff. split; [apply Z.leb_le | apply Z.ltb_lt]; lia.
  - apply Nat.leb_le. by apply Hl.
Qed.

Lemma forward_completes g ehs w :
  valid_embedding_index cfg g = true ->
  (add_cross_attention cfg = true -> is_Some ehs) ->
  exists w', forward cfg (Some g) ehs w = (inr (transformer_layers cfg g ehs), w').
Proof.
  intros Hv Hc. unfold forward, bind, log_pass. simpl.
  assert (add_cross_attention cfg && negb (bool_decide (is_Some ehs)) = false) as ->.
  { destruct (add_cross_attention cfg); [|done]. simpl.
    by rewrite bool_decide_eq_true_2 by auto. }
  rewrite Hv. eauto.
Qed.

Lemma guided_logits_completes g ehs gs w b s :
  rect b s g ->
  valid_embedding_index cfg g = true ->
  (add_cross_attention cfg = true -> is_Some ehs) ->
  exists lg w', guided_logits cfg (Some g) ehs gs w = (inr lg, w').
Proof.
  intros Hg Hv Hc.
  assert (exists lg w',
    (let* logits := forward cfg (Some g) ehs in
     ret (truncate_channels (codebook_size cfg) logits)) w = (inr lg, w')) as Hplain.
  { destruct (forward_completes g ehs w Hv Hc) as (w' & Hf).
    rewrite (bind_step _ _ _ _ _ Hf). unfold ret. eauto. }
  unfold guided_logits. destruct ehs as [e|]; [|done].
  destruct (Qltb 0 gs); [|done]. simpl.
  assert (valid_embedding_index cfg (g ++ g) = true) as Hv2.
  { unfold valid_embedding_index in *. by rewrite forallb_app, Hv. }
  destruct (forward_completes (g ++ g) (Some (e ++ zeros_like e)) w Hv2)
    as (w' & Hf); [by eauto|].
  rewrite (bind_step (ret g) _ w g w eq_refl).
  rewrite (bind_step _ _ _ _ _ Hf).
  pose proof (layers_shape cfg (b + b) s (g ++ g) (Some (e ++ zeros_like e))
                (rect_app _ _ _ _ _ Hg Hg)) as [[Hlen _] _].
  unfold bind, chunk2. rewrite Hlen.
  destruct (Nat.eqb_spec (b + b) 1) as [Heq|_]; [lia|]. unfold ret. eauto.
Qed.

Lemma mapM_M_completes {A B} (f : A -> M B) l :
  Forall (fun a => forall w, exists b w', f a w = (inr b, w')) l ->
  forall w, exists r w', mapM_M f l w = (inr r, w').
Proof.
  induction 1 as [|a l Ha Hl IH]; intros w; simpl.
  - unfold ret. eauto.
  - destruct (Ha w) as (b & w1 & Hb). rewrite (bind_step _ _ _ _ _ Hb).
    destruct (IH w1) as (bs & w2 & Hbs). rewrite (bind_step _ _ _ _ _ Hbs).
    unfold ret. eauto.
Qed.

Lemma draw_completes sampler p w :
  p <> [] -> exists i w', draw sampler p w = (inr i, w').
Proof. destruct p; [done|]. simpl. eauto. Qed.

(** Every position of well-shaped logits can be sampled. *)
Lemma sampling_completes (f : list Q -> M Z) n b s (l : logits3) w :
  (forall ch w0, length ch = n -> exists i w', f ch w0 = (inr i, w')) ->
  shape3 b s n l ->
  exists raw w', mapM_M (mapM_M f) l w = (inr raw, w').
Proof.
  intros Hf [_ Hc]. apply mapM_M_completes.
  eapply Forall_impl; [exact Hc|]. intros row Hrow. simpl in Hrow.
  apply mapM_M_completes.
  eapply Forall_impl; [exact Hrow|]. intros ch Hch w0. by apply Hf.
Qed.

Lemma mask_or_code_in_vocab t :
  (0 < codebook_size cfg < vocab_size cfg)%nat ->
  mask_or_code cfg t -> in_vocab cfg t.
Proof.
  unfold mask_or_code, valid_code, in_vocab, mask_token_id.
  intros Hcb [->|H]; lia.
Qed.

(** The grid handed to the transformer can be embedded. *)
Lemma fed_ids_valid class_ids ehs w0 ts b ids :
  call_ok cfg class_ids ehs w0 ->
  ts = shifted cfg class_ids (tensors w0) ->
  (forall l, class_ids = Some l -> length (ts !!! l) = b) ->
  rect b (num_vq_tokens cfg) ids ->
  all2 (mask_or_code cfg) ids ->
  valid_embedding_index cfg (fed_ids class_ids ts ids) = true /\
  rect b (num_vq_tokens cfg + class_columns class_ids)
       (fed_ids class_ids ts ids).
Proof.
  intros Hok -> Hcls Hrect Hmc.
  assert (all2 (in_vocab cfg) ids) as Hiv.
  { eapply all2_impl; [exact Hmc|]. intros t.
    apply mask_or_code_in_vocab, Hok. }
  pose proof (ok_positions _ _ _ _ Hok) as Hpos.
  destruct class_ids as [l|]; simpl in *.
  - pose proof (rect_prepend_column b _ _ ids (Hcls l eq_refl) Hrect) as Hfed.
    split; [|by rewrite Nat.add_1_r].
    apply valid_embedding_index_true.
    + unfold prepend_column.
      eapply Forall_zip_with2; [| exact (ok_classes _ _ _ _ Hok l eq_refl) | exact Hiv].
      intros c row Hc Hrow. by constructor.
    + destruct Hfed as [_ Hfed]. eapply Forall_impl; [exact Hfed|].
      intros row Hrow. simpl in *. lia.
  - split; [|by rewrite Nat.add_0_r].
    apply valid_embedding_index_true; [done|].
    destruct Hrect as [_ Hr]. eapply Forall_impl; [exact Hr|].
    intros row Hrow. simpl in *. lia.
Qed.

Lemma generate2_round_completes class_ids ehs T gs ns w0 ts b P0 step st w :
  call_ok cfg class_ids ehs w0 ->
  ts = shifted cfg class_ids (tensors w0) ->
  b = batch_of class_ids ehs w0 ->
  inv2 cfg class_ids ts b P0 st w ->
  is_Some (g2_input_ids st) ->
  exists st' w',
    generate2_round cfg class_ids ehs T gs ns step st w = (inr st', w') /\
    is_Some (g2_input_ids st').
Proof.
  intros Hok Hts Hb ([Hw _] & Hin & _) [ids Hids].
  destruct (Hin ids Hids) as [Hrect Hmc].
  assert (forall l, class_ids = Some l -> length (ts !!! l) = b) as Hcls.
  { intros l Hl. subst ts b. by apply shifted_batch. }
  destruct (fed_ids_valid _ _ _ _ _ _ Hok Hts Hcls Hrect Hmc) as [Hvalid Hfr].
  unfold generate2_round.
  assert (prepend_class class_ids (g2_input_ids st) w
          = (inr (Some (fed_ids class_ids ts ids)), w)) as Hpre.
  { rewrite Hids. unfold prepend_class, fed_ids.
    destruct class_ids; [|done]. unfold bind. simpl. by rewrite Hw. }
  rewrite (bind_step _ _ _ _ _ Hpre).
  destruct (guided_logits_completes _ ehs gs w _ _ Hfr Hvalid (ok_cross _ _ _ _ Hok))
    as (lg & w1 & Hg).
  rewrite (bind_step _ _ _ _ _ Hg). simpl.
  unfold bind at 1. unfold ret at 1.
  apply guided_logits_inr in Hg as (g & [= <-] & Hshape & _).
  rewrite <- Hw in Hcls.
  destruct (fed_and_stripped cfg _ _ _ _ lg _ _ _ Hpre Hids Hrect Hcls Hshape)
    as (_ & Hstrip & Hlg).
  destruct (sampling_completes (fun ch => draw multinomial (softmax ch))
              (channels cfg) b (num_vq_tokens cfg)
              (snd (strip_class class_ids (fed_ids class_ids ts ids) lg)) w1)
    as (raw & w2 & Hs); [| exact Hlg |].
  { intros ch w' Hch. apply draw_completes. intros Hnil.
    apply (f_equal length) in Hnil. rewrite softmax_length, Hch in Hnil.
    pose proof (ok_codebook _ _ _ _ Hok). unfold channels in Hnil. simpl in Hnil. lia. }
  rewrite (bind_step _ _ _ _ _ Hs).
  assert (stack raw w2 = (inr raw, w2)) as Hst.
  { apply mapM_M_inr, Forall2_length in Hs.
    destruct Hlg as [[Hlen _] _]. pose proof (ok_batch _ _ _ _ Hok).
    destruct raw; [simpl in *; lia | done]. }
  rewrite (bind_step _ _ _ _ _ Hst). simpl. eauto.
Qed.

Lemma for_each_completes {A S} (body : A -> S -> M S) (I : S -> world -> Prop) xs :
  (forall x st w, I st w ->
     exists st' w', body x st w = (inr st', w') /\ I st' w') ->
  forall st w, I st w ->
    exists st' w', for_each body xs st w = (inr st', w') /\ I st' w'.
Proof.
  intros Hb. induction xs as [|x xs IH]; intros st w HI; simpl.
  - unfold ret. eauto.
  - destruct (Hb x st w HI) as (s1 & w1 & H1 & HI1).
    rewrite (bind_step _ _ _ _ _ H1). by apply IH.
Qed.

Lemma init_completes {A} (F : nat -> A) class_ids ehs w :
  call_ok cfg class_ids ehs w ->
  exists w0,
    (let* batch_size := get_batch_size class_ids ehs in
     let* _ := shift_class_ids cfg class_ids in
     ret (F batch_size)) w = (inr (F (batch_of class_ids ehs w)), w0).
Proof.
  intros Hok. rewrite prelude_run.
  destruct (ok_conditioning _ _ _ _ Hok) as [[l ->]|[e ->]]; [by eauto|].
  destruct class_ids; eauto.
Qed.

(** With a grid supplied for [input_ids], a well-formed call of [generate2]
    with at least one round returns a grid. *)
Lemma generate2_completes x class_ids ehs t0 T gs ns gen w :
  call_ok cfg class_ids ehs w -> (1 <= T)%Z ->
  exists g w', generate2 cfg (Some x) class_ids ehs t0 T gs ns gen w = (inr g, w').
Proof.
  intros Hok HT.
  set (b := batch_of class_ids ehs w).
  set (ts := shifted cfg class_ids (tensors w)).
  destruct (init_completes
              (fun batch_size =>
                 {| g2_input_ids :=
                      init_input_ids cfg (Some x) batch_size (num_vq_tokens cfg);
                    g2_temperature := t0; g2_sampled_ids := None;
                    g2_logits := None; g2_unknown_map := []; g2_mask_len := [] |})
              class_ids ehs w Hok) as (w0 & Hinit).
  fold b in Hinit.
  assert (generate2_rounds cfg (Some x) class_ids ehs t0 T gs ns [] w
          = (inr {| g2_input_ids := init_input_ids cfg (Some x) b (num_vq_tokens cfg);
                    g2_temperature := t0; g2_sampled_ids := None;
                    g2_logits := None; g2_unknown_map := []; g2_mask_len := [] |},
             w0)) as H0.
  { unfold generate2_rounds, generate2_init.
    by rewrite (bind_step _ _ _ _ _ Hinit). }
  apply generate2_rounds_inv in H0 as [H0 _]. fold b ts in H0.
  assert (forall l, class_ids = Some l -> length (ts !!! l) = b) as Hcls.
  { intros l Hl. by apply shifted_batch. }
  destruct (for_each_completes
              (generate2_round cfg class_ids ehs T gs ns)
              (fun s w1 => inv2 cfg class_ids ts b (passes w) s w1 /\
                           is_Some (g2_input_ids s))
              (seqZ 0 T)) with (st := {|
                    g2_input_ids := init_input_ids cfg (Some x) b (num_vq_tokens cfg);
                    g2_temperature := t0; g2_sampled_ids := None;
                    g2_logits := None; g2_unknown_map := []; g2_mask_len := [] |})
                               (w := w0)
    as (st & w' & Hloop & _).
  - intros step s w1 [HI Hsome].
    destruct (generate2_round_completes class_ids ehs T gs ns w ts b (passes w)
                step s w1 Hok eq_refl eq_refl HI Hsome) as (s' & w2 & Hr & Hs').
    exists s', w2. split; [done|]. split; [|done].
    by destruct (generate2_round_inv cfg _ _ _ _ _ _ _ _ _ _ _ _ _ Hcls HI Hr).
  - split; [done|]. simpl. eauto.
  - assert (generate2_rounds cfg (Some x) class_ids ehs t0 T gs ns (seqZ 0 T) w
            = (inr st, w')) as Hrun.
    { unfold generate2_rounds, generate2_init.
      by rewrite (bind_step _ _ _ _ _ Hinit). }
    pose proof (generate2_rounds_inv cfg _ _ _ _ _ _ _ _ _ _ _ Hrun) as [_ Hsam].
    destruct Hsam as [g Hg].
    { rewrite seqZ_cons by lia. done. }
    exists g, w'. unfold generate2. rewrite (bind_step _ _ _ _ _ Hrun).
    by rewrite Hg.
Qed.

Lemma schedule_below_one_ok (ns : Q -> Q) :
  (forall t, (ns t <= 1)%Q) -> schedule_ok cfg ns.
Proof.
  intros Hns t. unfold Qtrunc.
  set (n := Z.of_nat (num_vq_tokens cfg)).
  assert (ns t * inject_Z n <= inject_Z n)%Q as Hle.
  { rewrite <- (Qmult_1_l (inject_Z n)) at 2.
    apply Qmult_le_compat_r; [apply Hns|].
    change (inject_Z 0 <= inject_Z n)%Q. rewrite <- Zle_Qle. unfold n. lia. }
  apply Z.quot_le_upper_bound; [done|].
  unfold Qle in Hle.
  change (Qnum (inject_Z n)) with n in Hle.
  change (QDen (inject_Z n)) with 1%Z in Hle. lia.
Qed.

Lemma generate_round_completes class_ids ehs t0 thres T gs ns w0 ts b P0 it st w :
  call_ok cfg class_ids ehs w0 ->
  (0 < num_vq_tokens cfg)%nat -> schedule_ok cfg ns ->
  ts = shifted cfg class_ids (tensors w0) ->
  b = batch_of class_ids ehs w0 ->
  inv1 cfg class_ids ts b P0 st w ->
  is_Some (g1_input_ids st) ->
  exists st' w',
    generate_round cfg class_ids ehs t0 thres T gs ns it st w = (inr st', w') /\
    is_Some (g1_input_ids st').
Proof.
  intros Hok Hseq Hns Hts Hb ([Hw _] & Hsc & Hin) [ids Hids].
  destruct (Hin ids Hids) as [Hrect Hmc].
  assert (forall l, class_ids = Some l -> length (ts !!! l) = b) as Hcls.
  { intros l Hl. subst ts b. by apply shifted_batch. }
  unfold generate_round.
  set (k := Z.to_nat (Z.max _ 1)).
  assert (k <= num_vq_tokens cfg)%nat as Hk.
  { unfold k. specialize (Hns (fst it)). lia. }
  assert (topk_rows (num_vq_tokens cfg) k (g1_scores st) w
          = (inr (map (topk_indices k) (g1_scores st)), w)) as Htk.
  { unfold topk_rows. destruct Hsc as [_ Hsc].
    destruct (g1_scores st) as [|row rows] eqn:Hs.
    - by rewrite (proj2 (Nat.leb_le _ _) Hk).
    - rewrite <- Hs in *.
      assert (forallb (fun row0 => (k <=? length row0)%nat) (g1_scores st) = true)
        as ->; [|done].
      apply forallb_forall. intros r Hr. apply list_elem_of_In in Hr.
      rewrite Forall_forall in Hsc. apply Nat.leb_le. rewrite (Hsc r Hr). done. }
  rewrite (bind_step _ _ _ _ _ Htk). rewrite Hids.
  rewrite (bind_step (as_tensor AttributeError (Some ids)) _ w ids w eq_refl).
  set (scattered := zip_with _ _ ids).
  assert (rect b (num_vq_tokens cfg) scattered) as Hsr.
  { apply rect_scatter; [|done]. rewrite length_map. by destruct Hsc. }
  assert (all2 (mask_or_code cfg) scattered) as Hsm.
  { apply all2_scatter; [by left | done]. }
  destruct (fed_ids_valid _ _ _ _ _ _ Hok Hts Hcls Hsr Hsm) as [Hvalid Hfr].
  assert (prepend_class class_ids (Some scattered) w
          = (inr (Some (fed_ids class_ids ts scattered)), w)) as Hpre.
  { unfold prepend_class, fed_ids.
    destruct class_ids; [|done]. unfold bind. simpl. by rewrite Hw. }
  rewrite (bind_step _ _ _ _ _ Hpre).
  destruct (guided_logits_completes _ ehs gs w _ _ Hfr Hvalid (ok_cross _ _ _ _ Hok))
    as (lg & w1 & Hg).
  rewrite (bind_step _ _ _ _ _ Hg). simpl.
  unfold bind at 1. unfold ret at 1.
  apply guided_logits_inr in Hg as (g & [= <-] & Hshape & _).
  rewrite <- Hw in Hcls.
  destruct (fed_and_stripped cfg _ _ _ _ lg _ _ _ Hpre eq_refl Hsr Hcls Hshape)
    as (_ & Hstrip & [Hlr Hlc]).
  match goal with
  | |- context [mapM_M (mapM_M ?f) ?l] =>
      destruct (sampling_completes f (channels cfg) b (num_vq_tokens cfg) l w1)
        as (pred & w2 & Hs)
  end.
  { intros ch w' Hch. apply draw_completes. intros Hnil.
    apply (f_equal length) in Hnil. rewrite Hch in Hnil.
    pose proof (ok_codebook _ _ _ _ Hok). unfold channels in Hnil. simpl in Hnil. lia. }
  { split; [by apply rect_map2|].
    apply all2_map2. eapply all2_impl; [exact Hlc|].
    intros ch Hch. simpl in *. by rewrite top_k_length. }
  rewrite (bind_step _ _ _ _ _ Hs). unfold ret. simpl. eauto.
Qed.

(** With a grid supplied for [input_ids], a well-formed call of [generate]
    whose schedule stays within the grid returns a grid. *)
Lemma generate_completes x class_ids ehs t0 thres T gs ns w :
  call_ok cfg class_ids ehs w ->
  (0 < num_vq_tokens cfg)%nat -> schedule_ok cfg ns -> (0 <= T)%Z ->
  exists g w',
    generate cfg (Some x) class_ids ehs t0 thres T gs ns w = (inr (Some g), w').
Proof.
  intros Hok Hseq Hns HT.
  set (b := batch_of class_ids ehs w).
  set (ts := shifted cfg class_ids (tensors w)).
  set (st0 := {| g1_input_ids :=
                   init_input_ids cfg (Some x) b (num_vq_tokens cfg);
                 g1_scores := full b (num_vq_tokens cfg) 0%Q;
                 g1_temperature := t0; g1_logits := None |}).
  destruct (init_completes
              (fun batch_size =>
                 {| g1_input_ids :=
                      init_input_ids cfg (Some x) batch_size (num_vq_tokens cfg);
                    g1_scores := full batch_size (num_vq_tokens cfg) 0%Q;
                    g1_temperature := t0; g1_logits := None |})
              class_ids ehs w Hok) as (w0 & Hinit).
  fold b st0 in Hinit.
  assert (generate_schedule T w0
          = (inr (zip (linspace01 T) (reverse (seqZ 0 T))), w0)) as Hsch.
  { unfold generate_schedule. destruct (Z.ltb_spec T 0); [lia | done]. }
  assert (generate_rounds cfg (Some x) class_ids ehs t0 thres T gs ns 0 w
          = (inr st0, w0)) as H0.
  { unfold generate_rounds, generate_init.
    rewrite (bind_step _ _ _ _ _ Hinit). by rewrite (bind_step _ _ _ _ _ Hsch). }
  apply generate_rounds_inv in H0 as [H0 _]. fold b ts in H0.
  assert (forall l, class_ids = Some l -> length (ts !!! l) = b) as Hcls.
  { intros l Hl. by apply shifted_batch. }
  destruct (for_each_completes
              (generate_round cfg class_ids ehs t0 thres T gs ns)
              (fun s w1 => inv1 cfg class_ids ts b (passes w) s w1 /\
                           is_Some (g1_input_ids s))
              (take (Z.to_nat T) (zip (linspace01 T) (reverse (seqZ 0 T)))))
    with (st := st0) (w := w0) as (st & w' & Hloop & _ & g & Hg).
  - intros it s w1 [HI Hsome].
    destruct (generate_round_completes class_ids ehs t0 thres T gs ns w ts b
                (passes w) it s w1 Hok Hseq Hns eq_refl eq_refl HI Hsome)
      as (s' & w2 & Hr & Hs').
    exists s', w2. split; [done|]. split; [|done].
    by destruct (generate_round_inv cfg _ _ _ _ _ _ _ _ _ _ _ _ _ _ _ Hcls HI Hr).
  - split; [done|]. simpl. eauto.
  - assert (generate_rounds cfg (Some x) class_ids ehs t0 thres T gs ns
              (Z.to_nat T) w = (inr st, w')) as Hrun.
    { unfold generate_rounds, generate_init.
      rewrite (bind_step _ _ _ _ _ Hinit). by rewrite (bind_step _ _ _ _ _ Hsch). }
    exists g, w'. unfold generate.
    rewrite (bind_step _ _ _ _ _ Hrun). by rewrite Hg.
Qed.

End Completion.

Lemma toy_call_ok : call_ok Toy.cfg (Some 1%positive) None (Toy.world0 5).
Proof.
  split.
  - simpl. lia.
  - left. by eexists.
  - discriminate.
  - simpl. lia.
  - intros l [= <-]. vm_compute. repeat constructor; discriminate.
  - vm_compute. lia.
Qed.

Example toy_generate2_completes :
  exists g w',
    generate2 Toy.cfg (Some []) (Some 1%positive) None 1%Q 3%Z 0%Q
      Toy.linear_schedule None (Toy.world0 5) = (inr g, w').
Proof. apply generate2_completes; [apply toy_call_ok | lia]. Qed.

(** * The claims *)

(** C1. Terminal completeness.  A call of [generate] or [generate2] with at
    least one round that runs to completion returns a grid in which every
    value is a valid codebook index in [0, codebook_size) and
    [MASK_TOKEN_ID] does not occur.  The configuration reserves the mask
    token outside the codebook ([codebook_size < vocab_size]). *)
Theorem terminal_completeness `{E : Externals} {L : ExternalsLaws E} (cfg : config)
    input_ids class_ids ehs t0 thres T gs ns gen w r g2 w' :
  (codebook_size cfg < vocab_size cfg)%nat ->
  (1 <= T)%Z ->
  generate cfg input_ids class_ids ehs t0 thres T gs ns w = (inr r, w') \/
  generate2 cfg input_ids class_ids ehs t0 T gs ns gen w = (inr g2, w')
    /\ r = Some g2 ->
  exists g, r = Some g /\
    all2 (valid_code cfg) g /\ all2 (fun t => t <> mask_token_id cfg) g.
Proof.
  intros Hcb HT H.
  assert (exists g, r = Some g /\
    (generate cfg input_ids class_ids ehs t0 thres T gs ns w = (inr (Some g), w') \/
     generate2 cfg input_ids class_ids ehs t0 T gs ns gen w = (inr g, w')))
    as (g & -> & H').
  { destruct H as [H | [H ->]]; [|by eauto].
    destruct (generate_returns_grid cfg _ _ _ _ _ _ _ _ _ _ _ HT H) as (g & ->).
    eauto. }
  exists g. split; [done|].
  destruct (decode_returns cfg _ _ _ _ _ _ _ _ _ _ _ _ HT H') as (_ & Hv & _).
  split; [done|].
  eapply all2_impl; [exact Hv|].
  intros t Ht. unfold valid_code, mask_token_id in *. lia.
Qed.

Lemma terminal_completeness_witness :
  (exists g, Some [[2; 2; 2; 2]; [0; 2; 2; 2]]%Z = Some g /\
     all2 (valid_code Toy.cfg) g /\
     all2 (fun t => t <> mask_token_id Toy.cfg) g) /\
  (exists g, Some [[0; 1; 2; 0]; [1; 2; 0; 1]]%Z = Some g /\
     all2 (valid_code Toy.cfg) g /\
     all2 (fun t => t <> mask_token_id Toy.cfg) g).
Proof.
  split.
  - apply (terminal_completeness Toy.cfg (Some []) None (Some Toy.text)
             1%Q (9 # 10) 3%Z 2%Q Toy.linear_schedule None (Toy.world0 6) _ []
             (snd (generate Toy.cfg (Some []) None (Some Toy.text)
                     1%Q (9 # 10) 3%Z 2%Q Toy.linear_schedule (Toy.world0 6)))).
    + simpl. lia.
    + lia.
    + left. vm_compute. reflexivity.
  - apply (terminal_completeness Toy.cfg (Some []) None (Some Toy.text)
             1%Q (9 # 10) 3%Z 2%Q Toy.linear_schedule None (Toy.world0 6) _
             [[0; 1; 2; 0]; [1; 2; 0; 1]]%Z
             (snd (generate2 Toy.cfg (Some []) None (Some Toy.text)
                     1%Q 3%Z 2%Q Toy.linear_schedule None (Toy.world0 6)))).
    + simpl. lia.
    + lia.
    + right. split; [vm_compute; reflexivity | reflexivity].
Defined.

(** C10. In-place shift of the caller's class ids.  A call of [generate] or
    [generate2] with a [class_ids] tensor leaves that tensor, in the
    caller's store, with [codebook_size] added to every element, whatever
    the outcome of the call; and every forward pass of a second call on the
    same tensor is fed class tokens shifted twice. *)
Theorem class_ids_shifted_in_place `{E : Externals} (cfg : config) l
    in1 ehs1 t1 th1 T1 gs1 ns1 gen1 in2 ehs2 t2 th2 T2 gs2 ns2 gen2 w w1 w2 :
  w1 = snd (generate cfg in1 (Some l) ehs1 t1 th1 T1 gs1 ns1 w) \/
  w1 = snd (generate2 cfg in1 (Some l) ehs1 t1 T1 gs1 ns1 gen1 w) ->
  w2 = snd (generate cfg in2 (Some l) ehs2 t2 th2 T2 gs2 ns2 w1) \/
  w2 = snd (generate2 cfg in2 (Some l) ehs2 t2 T2 gs2 ns2 gen2 w1) ->
  let shift := map (Z.add (Z.of_nat (codebook_size cfg))) in
  let cs := tensors w !!! l in
  tensors w1 = alter shift l (tensors w) /\
  tensors w1 !!! l = shift cs /\
  (cs <> [] -> (0 < codebook_size cfg)%nat -> tensors w1 !!! l <> cs) /\
  exists new, passes w2 = new ++ passes w1 /\
    Forall (class_fed (shift (shift cs))) new.
Proof.
  intros H1 H2 shift cs.
  assert (call_world cfg (Some l) w w1) as [Ht1 _].
  { destruct H1 as [-> | ->].
    - destruct (generate _ _ _ _ _ _ _ _ _ w) as [r x] eqn:Hc.
      by apply generate_world in Hc.
    - destruct (generate2 _ _ _ _ _ _ _ _ _ w) as [r x] eqn:Hc.
      by apply generate2_world in Hc. }
  assert (call_world cfg (Some l) w1 w2) as [_ (new & Hp & Hnew)].
  { destruct H2 as [-> | ->].
    - destruct (generate _ _ _ _ _ _ _ _ _ w1) as [r x] eqn:Hc.
      by apply generate_world in Hc.
    - destruct (generate2 _ _ _ _ _ _ _ _ _ w1) as [r x] eqn:Hc.
      by apply generate2_world in Hc. }
  simpl in Ht1. specialize (Hnew l eq_refl). simpl in Hnew.
  assert (tensors w1 !!! l = shift cs) as Hl.
  { rewrite Ht1. apply lookup_total_alter_map. }
  split_and!; [done | done | |].
  - rewrite Hl. intros Hne Hcb Heq. destruct cs as [|c cs']; [done|].
    unfold shift in Heq. simpl in Heq. injection Heq as Hc _. lia.
  - exists new. split; [done|].
    by rewrite lookup_total_alter_map, Hl in Hnew.
Qed.

Lemma class_ids_shifted_in_place_witness :
  tensors (snd (generate2 Toy.cfg (Some []) (Some 1%positive) None
                  1%Q 3%Z 0%Q Toy.linear_schedule None (Toy.world0 5)))
    !!! 1%positive = [3; 4]%Z.
Proof.
  pose (w1 := snd (generate2 Toy.cfg (Some []) (Some 1%positive) None
                     1%Q 3%Z 0%Q Toy.linear_schedule None (Toy.world0 5))).
  pose (w2 := snd (generate2 Toy.cfg (Some []) (Some 1%positive) None
                     1%Q 3%Z 0%Q Toy.linear_schedule None w1)).
  destruct (class_ids_shifted_in_place Toy.cfg 1%positive
              (Some []) None 1%Q (9 # 10) 3%Z 0%Q Toy.linear_schedule None
              (Some []) None 1%Q (9 # 10) 3%Z 0%Q Toy.linear_schedule None
              (Toy.world0 5) w1 w2)
    as (_ & Hl & _).
  - right. reflexivity.
  - right. reflexivity.
  - exact Hl.
Defined.

(** The second call in full: its first forward pass is fed the class tokens
    6 and 7 where the caller supplied 0 and 1, and with a vocabulary of 6
    entries the embedding lookup fails. *)
Example second_call_is_fed_twice_shifted_ids :
  let w1 := snd (generate2 Toy.cfg (Some []) (Some 1%positive) None
                   1%Q 3%Z 0%Q Toy.linear_schedule None (Toy.world0 5)) in
  let r := generate2 Toy.cfg (Some []) (Some 1%positive) None
             1%Q 3%Z 0%Q Toy.linear_schedule None w1 in
  fst r = inl IndexError /\
  head (passes (snd r))
    = Some (Some [[6; 5; 5; 5; 5]; [7; 5; 5; 5; 5]]%Z, None) /\
  tensors (snd r) !!! 1%positive = [6; 7]%Z.
Proof. vm_compute. split_and!; reflexivity. Qed.

(** ** Guidance mixing *)

Lemma guidance_mix_at3 gs c u i j k x y :
  at3 c i j k = Some x -> at3 u i j k = Some y ->
  at3 (guidance_mix gs c u) i j k = Some (y + gs * (x - y))%Q.
Proof.
  intros Hc Hu. unfold at3, guidance_mix, logits3 in *.
  rewrite lookup_zip_with.
  destruct (c !! i) as [rc|]; [|done]. destruct (u !! i) as [ru|]; [|done].
  simpl. rewrite lookup_zip_with.
  destruct (rc !! j) as [cc|]; [|done]. destruct (ru !! j) as [cu|]; [|done].
  simpl. rewrite lookup_zip_with. by rewrite Hc, Hu.
Qed.

Lemma mix_channel_one (c u : list Q) :
  length c = length u ->
  Forall2 Qeq (zip_with (fun x y => (y + 1 * (x - y))%Q) c u) c.
Proof.
  revert u. induction c as [|x c IH]; intros [|y u] Hl; simpl in *; try done.
  constructor; [ring | apply IH; lia].
Qed.

Lemma mix_channel_zero (c u : list Q) :
  length c = length u ->
  Forall2 Qeq (zip_with (fun x y => (y + 0 * (x - y))%Q) c u) u.
Proof.
  revert u. induction c as [|x c IH]; intros [|y u] Hl; simpl in *; try done.
  constructor; [ring | apply IH; lia].
Qed.

Lemma Forall2_zip_with_same {A B C} (R : C -> A -> Prop) (P : A -> Prop)
    (Q : B -> Prop) (f : A -> B -> C) l k :
  (forall a b, P a -> Q b -> R (f a b) a) ->
  length l = length k -> Forall P l -> Forall Q k ->
  Forall2 R (zip_with f l k) l.
Proof.
  intros Hf. revert k. induction l as [|a l IH]; intros k Hl Hp Hq.
  - destruct k; [constructor | done].
  - destruct k as [|b k]; [done|]. simpl in *.
    inversion Hp; inversion Hq; subst. constructor; [auto | apply IH; auto].
Qed.

Lemma Forall2_zip_with_same_r {A B C} (R : C -> B -> Prop) (P : A -> Prop)
    (Q : B -> Prop) (f : A -> B -> C) l k :
  (forall a b, P a -> Q b -> R (f a b) b) ->
  length l = length k -> Forall P l -> Forall Q k ->
  Forall2 R (zip_with f l k) k.
Proof.
  intros Hf. revert k. induction l as [|a l IH]; intros k Hl Hp Hq.
  - destruct k; [constructor | done].
  - destruct k as [|b k]; [done|]. simpl in *.
    inversion Hp; inversion Hq; subst. constructor; [auto | apply IH; auto].
Qed.

(** In exact arithmetic the mixing step computes
    [uncond + scale * (cond - uncond)] entry by entry, and on equally
    shaped tensors scale 1 gives back the conditional logits and scale 0
    the unconditional logits; [guidance_mix_float32] below has what is left
    of this under rounding. *)
Lemma guidance_degeneracy_exact (b s v : nat) (cond_logits uncond_logits : logits3) :
  shape3 b s v cond_logits -> shape3 b s v uncond_logits ->
  (forall scale i j k x y,
     at3 cond_logits i j k = Some x -> at3 uncond_logits i j k = Some y ->
     at3 (guidance_mix scale cond_logits uncond_logits) i j k
       = Some (y + scale * (x - y))%Q) /\
  tensor_eq (guidance_mix 1 cond_logits uncond_logits) cond_logits /\
  tensor_eq (guidance_mix 0 cond_logits uncond_logits) uncond_logits.
Proof.
  intros [[Hcb Hcr] Hcc] [[Hub Hur] Huc]. split_and!.
  - intros. by apply guidance_mix_at3.
  - unfold tensor_eq, guidance_mix.
    eapply (Forall2_zip_with_same _
              (fun r => length r = s /\ Forall (fun ch => length ch = v) r)
              (fun r => length r = s /\ Forall (fun ch => length ch = v) r));
      [| lia | |].
    + intros rc ru [Hc1 Hc2] [Hu1 Hu2].
      eapply (Forall2_zip_with_same _ (fun ch => length ch = v)
                (fun ch => length ch = v)); [| lia | done | done].
      intros c u Hc Hu. apply mix_channel_one. lia.
    + apply Forall_forall. intros r Hr. split.
      * by eapply Forall_forall in Hcr.
      * by eapply Forall_forall in Hcc.
    + apply Forall_forall. intros r Hr. split.
      * by eapply Forall_forall in Hur.
      * by eapply Forall_forall in Huc.
  - unfold tensor_eq, guidance_mix.
    eapply (Forall2_zip_with_same_r _
              (fun r => length r = s /\ Forall (fun ch => length ch = v) r)
              (fun r => length r = s /\ Forall (fun ch => length ch = v) r));
      [| lia | |].
    + intros rc ru [Hc1 Hc2] [Hu1 Hu2].
      eapply (Forall2_zip_with_same_r _ (fun ch => length ch = v)
                (fun ch => length ch = v)); [| lia | done | done].
      intros c u Hc Hu. apply mix_channel_zero. lia.
    + apply Forall_forall. intros r Hr. split.
      * by eapply Forall_forall in Hcr.
      * by eapply Forall_forall in Hcc.
    + apply Forall_forall. intros r Hr. split.
      * by eapply Forall_forall in Hur.
      * by eapply Forall_forall in Huc.
Qed.

(** ** The clamped mask length of [generate2] *)

Lemma clamp_mask_len_clamped cfg seq_len mask_ratio ids :
  clamped cfg ids
    (clamp_mask_len seq_len mask_ratio (is_mask_map (mask_token_id cfg) ids)).
Proof.
  unfold clamped, clamp_mask_len, is_mask_map.
  induction ids as [|row ids IH]; simpl; constructor; [|exact IH].
  fold (unknown_count cfg row). lia.
Qed.

(** C3, as the code has it.  In every round of [generate2] that completes,
    the terminal one included, each row's [mask_len] is at least 1; it is at
    most [unknownCount - 1] when at least two positions of the row enter the
    round masked, and it is 1 when at most one does.  [unknownCount] counts
    the positions holding [MASK_TOKEN_ID] in the grid entering round [k]. *)
Theorem mask_len_clamped `{E : Externals} {L : ExternalsLaws E} (cfg : config)
    input_ids class_ids ehs t0 T gs ns k w st w1 st' w2 :
  generate2_rounds cfg input_ids class_ids ehs t0 T gs ns (seqZ 0 k) w
    = (inr st, w1) ->
  generate2_round cfg class_ids ehs T gs ns k st w1 = (inr st', w2) ->
  exists ids, g2_input_ids st = Some ids /\ clamped cfg ids (g2_mask_len st').
Proof.
  intros Hrun Hround.
  apply generate2_rounds_inv in Hrun as [([Hts _] & Hin & _) _].
  apply (generate2_round_inr _ _ _ _ _ _ _ _ _ _ _ (batch_of class_ids ehs w))
    in Hround as (ids & lg & raw & masking & Hids & _ & _ & _ & _ & _ & _ & ->).
  - exists ids. split; [done|]. simpl. apply clamp_mask_len_clamped.
  - intros ids Hids. by apply Hin.
  - intros l Hl. rewrite Hts. by apply shifted_batch.
Qed.

Lemma mask_len_clamped_witness :
  exists ids,
    Some [[2; 5; 1; 2]; [5; 1; 2; 0]]%Z = Some ids /\ clamped Toy.cfg ids [1; 1]%Z.
Proof.
  pose (r := generate2_rounds Toy.cfg (Some []) None (Some Toy.text) 1%Q 5%Z 0%Q
               Toy.linear_schedule (seqZ 0 3) (Toy.world0 5)).
  pose (st := match fst r with
              | inr st => st
              | inl _ => Locals2 None 0%Q None None [] []
              end).
  pose (r' := generate2_round Toy.cfg None (Some Toy.text) 5%Z 0%Q
                Toy.linear_schedule 3%Z st (snd r)).
  pose (st' := match fst r' with
               | inr st' => st'
               | inl _ => Locals2 None 0%Q None None [] []
               end).
  apply (mask_len_clamped Toy.cfg (Some []) None (Some Toy.text) 1%Q 5%Z 0%Q
           Toy.linear_schedule 3%Z (Toy.world0 5) st (snd r) st' (snd r')).
  - vm_compute. reflexivity.
  - vm_compute. reflexivity.
Defined.

(** C3 as stated fails: with four tokens and five rounds, the grid entering
    round 3 (not the terminal round 4) has one masked position per row, and
    [mask_len] is 1, above [unknownCount - 1 = 0]. *)
Lemma progress_guarantee_fails :
  exists st w1 st' w2 ids,
    generate2_rounds Toy.cfg (Some []) None (Some Toy.text) 1%Q 5%Z 0%Q
      Toy.linear_schedule (seqZ 0 3) (Toy.world0 5) = (inr st, w1) /\
    generate2_round Toy.cfg None (Some Toy.text) 5%Z 0%Q
      Toy.linear_schedule 3%Z st w1 = (inr st', w2) /\
    (3 < 5 - 1)%Z /\
    g2_input_ids st = Some ids /\
    ~ progress_guarantee Toy.cfg ids (g2_mask_len st').
Proof.
  do 5 eexists. split_and!.
  - vm_compute. reflexivity.
  - vm_compute. reflexivity.
  - lia.
  - reflexivity.
  - intros H. inversion H as [|row m rows ms Hrow _]; subst.
    vm_compute in Hrow. destruct Hrow as [_ Hle]. by apply Hle.
Qed.

(** ** Guidance scale 0 *)

Lemma unguided_inr `{E : Externals} (cfg : config) fed e w lg w' :
  guided_logits cfg fed (Some e) 0 w = (inr lg, w') ->
  exists g, fed = Some g /\
    lg = truncate_channels (codebook_size cfg) (transformer_layers cfg g (Some e)) /\
    passes w' = (Some g, Some e) :: passes w.
Proof.
  unfold guided_logits. change (Qltb 0 0) with false. cbv iota.
  intros H. apply bind_inr in H as (out & w1 & Hf & H).
  apply ret_inr in H as [<- <-].
  apply forward_inr in Hf as (g & -> & -> & _ & _ & Hp). eauto.
Qed.

(** C4, as the code has it.  With text conditioning and guidance scale 0, a
    round of either decoder makes exactly one forward pass, the conditional
    one (fed the caller's embedding, not a zeroed one), and its logits are
    the logits used in the round. *)
Theorem unguided_logits_are_conditional `{E : Externals} (cfg : config)
    class_ids e t0 thres T ns step it st1 st1' st2 st2' w w' lg :
  (generate_round cfg class_ids (Some e) t0 thres T 0 ns it st1 w = (inr st1', w')
   /\ lg = g1_logits st1') \/
  (generate2_round cfg class_ids (Some e) T 0 ns step st2 w = (inr st2', w')
   /\ lg = g2_logits st2') ->
  exists fed,
    passes w' = (Some fed, Some e) :: passes w /\
    lg = Some (pass_logits cfg class_ids fed (Some e)).
Proof.
  intros [[H ->] | [H ->]].
  - unfold generate_round in H.
    apply bind_inr in H as (idx & w0 & Hk & H).
    apply topk_rows_inr in Hk as [-> _].
    apply bind_inr in H as (ids & w0 & Hi & H).
    apply as_tensor_inr in Hi as [_ <-].
    apply bind_inr in H as (fed & w1 & Hpre & H).
    apply prepend_class_inr in Hpre as [-> _].
    apply bind_inr in H as (lg & w2 & Hg & H).
    apply unguided_inr in Hg as (g & -> & -> & Hp).
    apply bind_inr in H as (g' & w3 & Hx & H).
    apply as_tensor_inr in Hx as [[= <-] <-].
    apply bind_inr in H as (pred & w4 & Hs & H).
    apply ret_inr in H as [<- <-].
    pose proof (stable_inv passes _ _ _ _ (stable_mapM _ _ _
      (fun row => stable_mapM _ _ row (fun ch => stable_draw_passes _ _))) Hs) as Hsp.
    exists g. split; [congruence | reflexivity].
  - unfold generate2_round in H.
    apply bind_inr in H as (fed & w1 & Hpre & H).
    apply prepend_class_inr in Hpre as [-> _].
    apply bind_inr in H as (lg & w2 & Hg & H).
    apply unguided_inr in Hg as (g & -> & -> & Hp).
    apply bind_inr in H as (g' & w3 & Hx & H).
    apply as_tensor_inr in Hx as [[= <-] <-].
    apply bind_inr in H as (raw & w4 & Hs & H).
    apply bind_inr in H as (raw' & w5 & Hk & H).
    apply stack_inr in Hk as [-> ->].
    injection H as <- <-.
    pose proof (stable_inv passes _ _ _ _ (stable_mapM _ _ _
      (fun row => stable_mapM _ _ row (fun ch => stable_draw_passes _ _))) Hs) as Hsp.
    exists g. split; [simpl; congruence | reflexivity].
Qed.

Lemma unguided_logits_are_conditional_witness :
  exists fed,
    [(Some (full 2 4 5%Z), Some Toy.text)] = (Some fed, Some Toy.text) :: [] /\
    Some [[[5; 6; 7]; [5; 6; 7]; [5; 6; 7]; [5; 6; 7]];
          [[5; 7; 9]; [5; 7; 9]; [5; 7; 9]; [5; 7; 9]]]%Q
      = Some (pass_logits (E := Toy.externals) Toy.cfg None fed (Some Toy.text)).
Proof.
  pose (st := Locals2 (Some (full 2 4 5%Z)) 1%Q None None [] []).
  pose (r := generate2_round Toy.cfg None (Some Toy.text) 3%Z 0%Q
               Toy.linear_schedule 0%Z st (Toy.world0 5)).
  pose (st' := match fst r with
               | inr st' => st'
               | inl _ => st
               end).
  apply (unguided_logits_are_conditional Toy.cfg None Toy.text 1%Q (9 # 10) 3%Z
           Toy.linear_schedule 0%Z (0%Q, 0%Z)
           (Locals1 None [] 0%Q None) (Locals1 None [] 0%Q None)
           st st' (Toy.world0 5) (snd r)).
  right. split.
  - vm_compute. reflexivity.
  - vm_compute. reflexivity.
Defined.

(** C4 as stated fails: in round 0 of a three-round call of [generate2] with
    text conditioning and guidance scale 0, the one forward pass made is fed
    the caller's embedding, which is not the zero embedding, and the logits
    of the round differ from those of the unconditional pass. *)
Lemma guidance_zero_is_not_unconditional :
  exists st' w' fed,
    generate2_rounds Toy.cfg (Some []) None (Some Toy.text) 1%Q 3%Z 0%Q
      Toy.linear_schedule [0%Z] (Toy.world0 5) = (inr st', w') /\
    passes w' = [(Some fed, Some Toy.text)] /\
    Toy.text <> zeros_like Toy.text /\
    g2_logits st' <>
      Some (pass_logits (E := Toy.externals) Toy.cfg None fed
              (Some (zeros_like Toy.text))).
Proof.
  do 3 eexists. split_and!.
  - vm_compute. reflexivity.
  - reflexivity.
  - discriminate.
  - vm_compute. discriminate.
Qed.

(** ** Temperature annealing in [generate2] *)

(** Each round multiplies the temperature left by the previous round. *)
Lemma generate2_round_temperature `{E : Externals} (cfg : config)
    class_ids ehs T gs ns step st w st' w' :
  generate2_round cfg class_ids ehs T gs ns step st w = (inr st', w') ->
  g2_temperature st' = (g2_temperature st * (1 - step_ratio T step))%Q.
Proof.
  unfold generate2_round. intros H.
  apply bind_inr in H as (fed & w1 & _ & H).
  apply bind_inr in H as (lg & w2 & _ & H).
  apply bind_inr in H as (g & w3 & _ & H).
  apply bind_inr in H as (raw & w4 & _ & H).
  apply bind_inr in H as (raw' & w5 & _ & H).
  by injection H as <- <-.
Qed.

(** C5 fails on the code.  With starting temperature 1 and three rounds, the
    temperature used in round 1 (progress ratio 2/3) is 2/9, the product of
    the factors of rounds 0 and 1, and not 1 * (1 - 2/3). *)
Theorem temperature_compounds :
  exists st w',
    generate2_rounds Toy.cfg (Some []) None (Some Toy.text) 1%Q 3%Z 0%Q
      Toy.linear_schedule [0; 1]%Z (Toy.world0 5) = (inr st, w') /\
    (g2_temperature st == 2 # 9)%Q /\
    (step_ratio 3 1 == 2 # 3)%Q /\
    ~ (g2_temperature st == 1 * (1 - step_ratio 3 1))%Q.
Proof.
  do 2 eexists. split_and!.
  - vm_compute. reflexivity.
  - reflexivity.
  - reflexivity.
  - simpl. intros H. vm_compute in H. discriminate.
Qed.

(** ** The random source *)

Lemma generate2_ignores_generator `{E : Externals} (cfg : config)
    input_ids class_ids ehs t0 T gs ns gen gen' :
  generate2 cfg input_ids class_ids ehs t0 T gs ns gen
  = generate2 cfg input_ids class_ids ehs t0 T gs ns gen'.
Proof. reflexivity. Qed.

(** C9 fails on the code.  Two calls of [generate2] with the same arguments
    and the same injected generator return different grids when torch's
    ambient random state differs; and the pipeline's call of [generate],
    which passes [generator], is rejected with a [TypeError]. *)
Theorem generator_is_ignored :
  fst (generate2 (E := Toy.externals) Toy.cfg (Some []) None (Some Toy.text) 1%Q 3%Z 0%Q
         Toy.linear_schedule (Some 7%nat) (Toy.world0 5))
    = inr [[2; 0; 1; 2]; [0; 1; 2; 0]]%Z /\
  fst (generate2 (E := Toy.externals) Toy.cfg (Some []) None (Some Toy.text) 1%Q 3%Z 0%Q
         Toy.linear_schedule (Some 7%nat) (Toy.world0 6))
    = inr [[0; 1; 2; 0]; [1; 2; 0; 1]]%Z /\
  fst (pipeline_decode (E := Toy.externals) Toy.cfg Toy.linear_schedule false None (Some Toy.text)
         3%Z 0%Q 1%Q (9 # 10) (Some 7%nat) (Toy.world0 5))
    = inl TypeError.
Proof. split_and!; vm_compute; reflexivity. Qed.

(** ** The default [input_ids] *)

Lemma generate2_round_needs_input `{E : Externals} (cfg : config)
    class_ids ehs T gs ns step st w st' w' :
  generate2_round cfg class_ids ehs T gs ns step st w = (inr st', w') ->
  is_Some (g2_input_ids st).
Proof.
  unfold generate2_round. intros H.
  apply bind_inr in H as (fed & w1 & Hpre & H).
  apply bind_inr in H as (lg & w2 & _ & H).
  apply bind_inr in H as (g & w3 & Hg & _).
  apply as_tensor_inr in Hg as [-> _].
  apply prepend_class_input in Hpre as (ids & ->). eauto.
Qed.

Lemma generate_round_needs_input `{E : Externals} (cfg : config)
    class_ids ehs t0 thres T gs ns it st w st' w' :
  generate_round cfg class_ids ehs t0 thres T gs ns it st w = (inr st', w') ->
  is_Some (g1_input_ids st).
Proof.
  unfold generate_round. intros H.
  apply bind_inr in H as (idx & w1 & _ & H).
  apply bind_inr in H as (ids & w2 & Hi & _).
  apply as_tensor_inr in Hi as [-> _]. eauto.
Qed.

(** With [input_ids] left at [None], no call with at least one round
    completes: the grid is never created, and round 0 fails on it. *)
Lemma default_input_ids_fail `{E : Externals} (cfg : config)
    class_ids ehs t0 thres T gs ns gen w :
  (1 <= T)%Z ->
  (exists e, fst (generate cfg None class_ids ehs t0 thres T gs ns w) = inl e) /\
  (exists e, fst (generate2 cfg None class_ids ehs t0 T gs ns gen w) = inl e).
Proof.
  intros HT. split.
  - destruct (generate _ _ _ _ _ _ _ _ _ w) as [[e|r] w'] eqn:H; [by eauto|].
    exfalso. apply generate_returns in H as (st & H & _).
    unfold generate_rounds in H.
    apply bind_inr in H as (st0 & w0 & Hinit & H).
    apply bind_inr in H as (its & w1 & Hsch & H).
    apply length_generate_schedule in Hsch as [-> Hlen].
    apply prelude_inr in Hinit as ->.
    destruct its as [|it its]; [simpl in Hlen; lia|].
    replace (Z.to_nat T) with (S (Z.to_nat (T - 1))) in H by lia.
    simpl in H. apply bind_inr in H as (s1 & w1 & Hr & _).
    apply generate_round_needs_input in Hr as [x Hx]. discriminate.
  - destruct (generate2 _ _ _ _ _ _ _ _ _ w) as [[e|r] w'] eqn:H; [by eauto|].
    exfalso. apply generate2_returns in H as (st & H & _).
    unfold generate2_rounds in H.
    apply bind_inr in H as (st0 & w0 & Hinit & H).
    apply prelude_inr in Hinit as ->.
    rewrite seqZ_cons in H by lia.
    simpl in H. apply bind_inr in H as (s1 & w1 & Hr & _).
    apply generate2_round_needs_input in Hr as [x Hx]. discriminate.
Qed.

(** A grid supplied for [input_ids] is replaced by the all-masked grid. *)
Lemma supplied_input_ids_are_masked (cfg : config) x b s :
  exists g, init_input_ids cfg (Some x) b s = Some g /\
    rect b s g /\ all2 (fun t => t = mask_token_id cfg) g.
Proof.
  eexists. split; [reflexivity|]. split; [apply rect_full | by apply all2_full].
Qed.

(** The repository's own caller leaves [input_ids] at its default, so no
    call through the pipeline with at least one round completes. *)
Lemma pipeline_decode_fails `{E : Externals} (cfg : config) cosine_schedule
    use_maskgit_generate class_ids ehs T gs t0 thres gen w :
  (1 <= T)%Z ->
  exists e,
    fst (pipeline_decode cfg cosine_schedule use_maskgit_generate class_ids ehs
           T gs t0 thres gen w) = inl e.
Proof.
  intros HT. unfold pipeline_decode. destruct use_maskgit_generate.
  - change (binds generate2_parameters true _) with true. cbv iota.
    destruct (default_input_ids_fail cfg class_ids ehs t0 thres T gs
                cosine_schedule gen w HT) as [_ [e He]].
    unfold bind.
    destruct (generate2 _ _ _ _ _ _ _ _ _ w) as [[e'|g] w']; simpl in *; [eauto|].
    discriminate.
  - assert (binds generate_parameters false
              (pipeline_keywords (bool_decide (is_Some class_ids))) = false) as ->.
    { by destruct class_ids. }
    simpl. eauto.
Qed.

(** C2 fails on the code.  With [input_ids] left at its default [None] the
    all-masked grid is not created: the locals enter round 0 with [None],
    and both decoders fail there before any forward pass.  A caller-supplied
    grid, whatever it holds, is replaced by the all-masked grid. *)
Theorem default_input_ids_stay_none :
  init_input_ids Toy.cfg None 2 4 = None /\
  init_input_ids Toy.cfg (Some [[0; 1]]%Z) 2 4
    = Some [[5; 5; 5; 5]; [5; 5; 5; 5]]%Z /\
  (let r := generate Toy.cfg None (Some 1%positive) None 1%Q (9 # 10) 3%Z 3%Q
              Toy.linear_schedule (Toy.world0 5) in
   fst r = inl AttributeError /\ passes (snd r) = []) /\
  (let r := generate2 Toy.cfg None (Some 1%positive) None 1%Q 3%Z 0%Q
              Toy.linear_schedule None (Toy.world0 5) in
   fst r = inl TypeError /\ passes (snd r) = []).
Proof. split_and!; vm_compute; (reflexivity || (split; reflexivity)). Qed.

(** ** Calls without rounds *)

(** C6, as the code has it.  Neither decoder checks [timesteps].  With
    [timesteps < 1] no forward pass is made and no sample is drawn;
    [generate] with [timesteps = 0] raises nothing and returns the initial
    grid, and [generate2] never returns a grid. *)
Theorem no_timesteps_check `{E : Externals} (cfg : config)
    input_ids class_ids ehs t0 thres T gs ns gen w :
  (T < 1)%Z ->
  let r1 := generate cfg input_ids class_ids ehs t0 thres T gs ns w in
  let r2 := generate2 cfg input_ids class_ids ehs t0 T gs ns gen w in
  passes (snd r1) = passes w /\ ambient (snd r1) = ambient w /\
  passes (snd r2) = passes w /\ ambient (snd r2) = ambient w /\
  (T = 0%Z -> is_Some class_ids \/ is_Some ehs ->
   fst r1 = inr (init_input_ids cfg input_ids (batch_of class_ids ehs w)
                   (num_vq_tokens cfg))) /\
  (forall g, fst r2 <> inr g).
Proof.
  intros HT r1 r2. subst r1 r2.
  assert (seqZ 0 T = []) as Hnil by (apply seqZ_nil; lia).
  unfold generate2, generate2_rounds. rewrite Hnil.
  unfold generate, generate_rounds, generate_schedule.
  destruct (Z.ltb_spec T 0) as [Hneg|Hpos].
  - destruct class_ids, ehs, w; cbn; split_and!; try done; lia.
  - assert (T = 0%Z) as -> by lia.
    destruct class_ids, ehs, w; cbn; split_and!; try done.
    intros _ [[? [=]]|[? [=]]].
Qed.

Lemma no_timesteps_check_witness :
  fst (generate Toy.cfg (Some []) (Some 1%positive) None 1%Q (9 # 10) 0%Z 2%Q
         Toy.linear_schedule (Toy.world0 6))
  = inr (Some [[5; 5; 5; 5]; [5; 5; 5; 5]]%Z).
Proof.
  destruct (no_timesteps_check Toy.cfg (Some []) (Some 1%positive) None
              1%Q (9 # 10) 0%Z 2%Q Toy.linear_schedule None (Toy.world0 6))
    as (_ & _ & _ & _ & H & _).
  - lia.
  - apply H; [reflexivity | left; eexists; reflexivity].
Defined.

(** C6 as stated fails: [generate] called with [timesteps = 0] raises no
    error; it returns the all-masked grid it started from. *)
Lemma timesteps_zero_raises_nothing :
  (0 < 1)%Z /\
  fst (generate Toy.cfg (Some []) (Some 1%positive) None 1%Q (9 # 10) 0%Z 2%Q
         Toy.linear_schedule (Toy.world0 6))
  = inr (Some [[5; 5; 5; 5]; [5; 5; 5; 5]]%Z).
Proof. split; [lia | vm_compute; reflexivity]. Qed.

(** * Forward passes and annealing of the decoders *)

Section RoundFacts.
Context `{E : Externals} {L : ExternalsLaws E} (cfg : config).

Lemma for_each_new_passes {A S} (body : A -> S -> M S) (I : S -> world -> Prop)
    (P : option grid * option cond -> Prop) xs :
  (forall x st w st' w', I st w -> body x st w = (inr st', w') ->
     I st' w' /\ exists p, passes w' = p :: passes w /\ P p) ->
  forall st w st' w', I st w -> for_each body xs st w = (inr st', w') ->
    exists new, passes w' = new ++ passes w /\ length new = length xs /\
      Forall P new.
Proof.
  intros Hb. induction xs as [|x xs IH]; intros st w st' w' HI H; simpl in H.
  - apply ret_inr in H as [_ ->]. by exists [].
  - apply bind_inr in H as (s1 & w1 & H1 & H2).
    destruct (Hb _ _ _ _ _ HI H1) as (HI1 & p & Hp & HP).
    destruct (IH _ _ _ _ HI1 H2) as (new & Hnew & Hlen & HF).
    exists (new ++ [p]). split_and!.
    + rewrite Hnew, Hp, <- app_assoc. done.
    + rewrite length_app. simpl. lia.
    + apply Forall_app. split; [done|]. by constructor.
Qed.

Lemma guided_logits_pass g ehs gs w l w' :
  guided_logits cfg (Some g) ehs gs w = (inr l, w') ->
  passes w' = round_pass ehs gs g :: passes w.
Proof.
  unfold guided_logits, round_pass. destruct ehs as [e|].
  - destruct (Qltb 0 gs).
    + intros H. apply bind_inr in H as (ids & w1 & Hi & H).
      apply as_tensor_inr in Hi as [[= <-] <-].
      apply bind_inr in H as (out & w2 & Hf & H).
      apply forward_inr in Hf as (? & _ & _ & _ & _ & Hp).
      apply bind_inr in H as (cu & w3 & Hc & H).
      apply chunk2_inr in Hc. apply ret_inr in H as [_ <-].
      destruct Hc as [<- _]. done.
    + intros H. apply bind_inr in H as (out & w2 & Hf & H).
      apply forward_inr in Hf as (? & _ & _ & _ & _ & Hp).
      apply ret_inr in H as [_ <-]. done.
  - intros H. apply bind_inr in H as (out & w2 & Hf & H).
    apply forward_inr in Hf as (? & _ & _ & _ & _ & Hp).
    apply ret_inr in H as [_ <-]. done.
Qed.

Lemma generate2_round_pass class_ids ehs T gs ns ts b P0 step st w st' w' :
  inv2 cfg class_ids ts b P0 st w ->
  generate2_round cfg class_ids ehs T gs ns step st w = (inr st', w') ->
  exists ids, rect b (num_vq_tokens cfg) ids /\
    passes w' = round_pass ehs gs (fed_ids class_ids ts ids) :: passes w.
Proof.
  intros ([Hts _] & Hin & _) H. unfold generate2_round in H.
  apply bind_inr in H as (fed & w1 & Hpre & H).
  apply prepend_class_inr in Hpre as [-> Hfed].
  apply bind_inr in H as (lg & w2 & Hg & H).
  apply bind_inr in H as (g & w3 & Hx & H).
  apply as_tensor_inr in Hx as [-> <-].
  apply guided_logits_pass in Hg.
  apply bind_inr in H as (raw & w4 & Hs & H).
  apply bind_inr in H as (raw' & w5 & Hk & H).
  apply stack_inr in Hk as [-> ->].
  injection H as <- <-.
  pose proof (stable_inv passes _ _ _ _ (stable_mapM _ _ _
    (fun row => stable_mapM _ _ row (fun ch => stable_draw_passes _ _))) Hs) as Hsp.
  simpl. rewrite Hsp, Hg, <- Hts.
  destruct class_ids as [l|]; simpl in *.
  - destruct Hfed as (ids & Hids & [= ->]). exists ids.
    split; [by apply Hin | done].
  - exists g. split; [by apply Hin | done].
Qed.

Lemma generate_round_pass class_ids ehs t0 thres T gs ns ts b P0 it st w st' w' :
  inv1 cfg class_ids ts b P0 st w ->
  generate_round cfg class_ids ehs t0 thres T gs ns it st w = (inr st', w') ->
  exists ids, rect b (num_vq_tokens cfg) ids /\
    passes w' = round_pass ehs gs (fed_ids class_ids ts ids) :: passes w.
Proof.
  intros ([Hts _] & Hsc & Hin) H. unfold generate_round in H.
  apply bind_inr in H as (idx & w0 & Hk & H).
  apply topk_rows_inr in Hk as [-> ->].
  apply bind_inr in H as (ids & w0 & Hi & H).
  apply as_tensor_inr in Hi as [Hids <-].
  apply bind_inr in H as (fed & w1 & Hpre & H).
  apply prepend_class_inr in Hpre as [-> Hfed].
  apply bind_inr in H as (lg & w2 & Hg & H).
  apply bind_inr in H as (g & w3 & Hx & H).
  apply as_tensor_inr in Hx as [-> <-].
  apply guided_logits_pass in Hg.
  apply bind_inr in H as (pred & w4 & Hs & H).
  apply ret_inr in H as [_ <-].
  pose proof (stable_inv passes _ _ _ _ (stable_mapM _ _ _
    (fun row => stable_mapM _ _ row (fun ch => stable_draw_passes _ _))) Hs) as Hsp.
  rewrite Hsp, Hg, <- Hts.
  match type of Hfed with context [Some ?x] => set (scattered := x) in * end.
  assert (rect b (num_vq_tokens cfg) scattered) as Hsr.
  { apply rect_scatter; [|by apply Hin].
    rewrite length_map. by destruct Hsc. }
  destruct class_ids as [l|]; simpl in *.
  - destruct Hfed as (ids' & [= <-] & [= ->]). by exists scattered.
  - injection Hfed as ->. by exists scattered.
Qed.

End RoundFacts.


(** Forward passes.  A call of either decoder that returns has made exactly
    [timesteps] forward passes, one per round.  Each was fed a grid of
    [batch] rows of [num_vq_tokens] tokens (behind the shifted class ids, if
    any): twice over with the conditioning followed by its zeroed copy when
    encoder states are given and [guidance_scale > 0], once with the
    caller's conditioning otherwise. *)
Theorem one_forward_pass_per_round `{E : Externals} {L : ExternalsLaws E}
    (cfg : config) input_ids class_ids ehs t0 thres T gs ns gen w r g2 w' :
  generate cfg input_ids class_ids ehs t0 thres T gs ns w = (inr r, w') \/
  generate2 cfg input_ids class_ids ehs t0 T gs ns gen w = (inr g2, w') ->
  exists new,
    passes w' = new ++ passes w /\
    length new = Z.to_nat T /\
    Forall (fun p => exists ids,
              rect (batch_of class_ids ehs w) (num_vq_tokens cfg) ids /\
              p = round_pass ehs gs
                    (fed_ids class_ids (shifted cfg class_ids (tensors w)) ids))
           new.
Proof.
  set (b := batch_of class_ids ehs w).
  set (ts := shifted cfg class_ids (tensors w)).
  intros [H|H].
  - apply generate_returns in H as (st & H & _).
    unfold generate_rounds in H.
    apply bind_inr in H as (st0 & w0 & Hinit & H).
    apply bind_inr in H as (its & w1 & Hsch & H).
    pose proof (length_generate_schedule _ _ _ _ Hsch) as [-> Hlen].
    assert (generate_rounds cfg input_ids class_ids ehs t0 thres T gs ns 0 w
            = (inr st0, w0)) as H0.
    { unfold generate_rounds. rewrite (bind_step _ _ _ _ _ Hinit).
      by rewrite (bind_step _ _ _ _ _ Hsch). }
    apply generate_rounds_inv in H0 as [H0 _]. fold b ts in H0.
    unfold generate_init in Hinit.
    pose proof (prelude_world _ _ _ _ _ _ _ Hinit) as (_ & _ & Hp0).
    assert (forall l, class_ids = Some l -> length (ts !!! l) = b) as Hcls.
    { intros l Hl. by apply shifted_batch. }
    eapply (for_each_new_passes _ (inv1 cfg class_ids ts b (passes w))) in H
      as (new & Hnew & Hn & HF); [| | exact H0].
    + exists new. split_and!; [congruence | | exact HF].
      rewrite Hn, length_take, Hlen. lia.
    + intros x s1 w1 s2 w2 HI Hr. split.
      * by destruct (generate_round_inv _ _ _ _ _ _ _ _ _ _ _ _ _ _ _ _ Hcls HI Hr).
      * destruct (generate_round_pass _ _ _ _ _ _ _ _ _ _ _ _ _ _ _ _ HI Hr)
          as (ids & Hrect & Hp). eauto.
  - apply generate2_returns in H as (st & H & _).
    unfold generate2_rounds in H.
    apply bind_inr in H as (st0 & w0 & Hinit & H).
    assert (generate2_rounds cfg input_ids class_ids ehs t0 T gs ns [] w
            = (inr st0, w0)) as H0.
    { unfold generate2_rounds. by rewrite (bind_step _ _ _ _ _ Hinit). }
    apply generate2_rounds_inv in H0 as [H0 _]. fold b ts in H0.
    unfold generate2_init in Hinit.
    pose proof (prelude_world _ _ _ _ _ _ _ Hinit) as (_ & _ & Hp0).
    assert (forall l, class_ids = Some l -> length (ts !!! l) = b) as Hcls.
    { intros l Hl. by apply shifted_batch. }
    eapply (for_each_new_passes _ (inv2 cfg class_ids ts b (passes w))) in H
      as (new & Hnew & Hn & HF); [| | exact H0].
    + exists new. split_and!; [congruence | | exact HF].
      rewrite Hn, length_seqZ. done.
    + intros x s1 w1 s2 w2 HI Hr. split.
      * by destruct (generate2_round_inv _ _ _ _ _ _ _ _ _ _ _ _ _ _ Hcls HI Hr).
      * destruct (generate2_round_pass _ _ _ _ _ _ _ _ _ _ _ _ _ _ HI Hr)
          as (ids & Hrect & Hp). eauto.
Qed.

Section MoreRoundFacts.
Context `{E : Externals} {L : ExternalsLaws E} (cfg : config).

Lemma for_each_app {A S} (body : A -> S -> M S) xs ys st w :
  for_each body (xs ++ ys) st w
  = (let* s := for_each body xs st in for_each body ys s) w.
Proof.
  revert st w. induction xs as [|x xs IH]; intros st w; simpl; [done|].
  unfold bind. destruct (body x st w) as [[e|s1] w1]; [done|].
  rewrite IH. reflexivity.
Qed.

Lemma generate_round_temperature class_ids ehs t0 thres T gs ns it st w st' w' :
  generate_round cfg class_ids ehs t0 thres T gs ns it st w = (inr st', w') ->
  g1_temperature st' = (t0 * (inject_Z (snd it) / inject_Z T))%Q.
Proof.
  unfold generate_round. intros H.
  apply bind_inr in H as (idx & w0 & _ & H).
  apply bind_inr in H as (ids & w1 & _ & H).
  apply bind_inr in H as (fed & w2 & _ & H).
  apply bind_inr in H as (lg & w3 & _ & H).
  apply bind_inr in H as (g & w4 & _ & H).
  apply bind_inr in H as (pred & w5 & _ & H).
  by apply ret_inr in H as [<- _].
Qed.

Lemma schedule_lookup T k it :
  zip (linspace01 T) (reverse (seqZ 0 T)) !! k = Some it ->
  snd it = (T - 1 - Z.of_nat k)%Z.
Proof.
  destruct it as [q z]. intros H. apply lookup_zip_Some in H as [_ H].
  apply reverse_lookup_Some in H as [H Hk].
  apply lookup_seqZ in H as [-> Hlt]. rewrite length_seqZ in *. simpl. lia.
Qed.

Lemma at2_where2 m (raw ids : list (list Z)) b s i j t :
  rect b s raw -> rect b s ids -> at2 ids i j = Some t ->
  exists r, at2 raw i j = Some r /\
    at2 (where2 (is_mask_map m ids) raw ids) i j
    = Some (if (t =? m)%Z then r else t).
Proof.
  intros [Hrb Hrs] [Hib His]. unfold at2. intros H.
  destruct (ids !! i) as [row|] eqn:Hrow; [|discriminate].
  assert (i < length raw)%nat as Hi.
  { rewrite Hrb, <- Hib. eapply lookup_lt_Some, Hrow. }
  apply lookup_lt_is_Some in Hi as [rrow Hrrow]. rewrite Hrrow.
  assert (length rrow = length row) as Hlen.
  { rewrite (Forall_lookup_1 _ _ _ _ Hrs Hrrow).
    by rewrite (Forall_lookup_1 _ _ _ _ His Hrow). }
  assert (j < length rrow)%nat as Hj.
  { rewrite Hlen. eapply lookup_lt_Some, H. }
  apply lookup_lt_is_Some in Hj as [r Hr]. exists r. split; [done|].
  unfold where2, is_mask_map.
  erewrite (proj2 (lookup_zip_with_Some _ _ _ i _)).
  2:{ eexists _, _. split; [reflexivity|]. split.
      - rewrite list_lookup_fmap, Hrow. reflexivity.
      - apply lookup_zip_with_Some. eexists _, _. eauto. }
  erewrite (proj2 (lookup_zip_with_Some _ _ _ j _)).
  2:{ eexists _, _. split; [reflexivity|]. split.
      - rewrite list_lookup_fmap, H. reflexivity.
      - apply lookup_zip_Some. eauto. }
  done.
Qed.

Lemma at2_where_scalar_l {A} (masking : list (list bool)) (v : A) x b s i j t :
  rect b s masking -> rect b s x -> at2 x i j = Some t ->
  at2 (where_scalar_l masking v x) i j = Some v \/
  at2 (where_scalar_l masking v x) i j = Some t.
Proof.
  intros [Hmb Hms] [Hxb Hxs]. unfold at2. intros H.
  destruct (x !! i) as [row|] eqn:Hrow; [|discriminate].
  assert (i < length masking)%nat as Hi.
  { rewrite Hmb, <- Hxb. eapply lookup_lt_Some, Hrow. }
  apply lookup_lt_is_Some in Hi as [mrow Hmrow].
  assert (length mrow = length row) as Hlen.
  { rewrite (Forall_lookup_1 _ _ _ _ Hms Hmrow).
    by rewrite (Forall_lookup_1 _ _ _ _ Hxs Hrow). }
  assert (j < length mrow)%nat as Hj.
  { rewrite Hlen. eapply lookup_lt_Some, H. }
  apply lookup_lt_is_Some in Hj as [c Hc].
  unfold where_scalar_l.
  erewrite (proj2 (lookup_zip_with_Some _ _ _ i _)).
  2:{ eexists _, _. eauto. }
  erewrite (proj2 (lookup_zip_with_Some _ _ _ j _)).
  2:{ eexists _, _. eauto. }
  destruct c; auto.
Qed.

Lemma falling_closed (t0 : Q) (T : Z) (n : nat) (x : Q) :
  (0 < T)%Z ->
  (x == t0 * (inject_Z (falling T n) / inject_Z (T ^ Z.of_nat n)))%Q ->
  (x * (1 - step_ratio T (Z.of_nat n))
   == t0 * (inject_Z (falling T (S n)) / inject_Z (T ^ Z.of_nat (S n))))%Q.
Proof.
  intros HT Hx. rewrite Hx. unfold step_ratio.
  change (falling T (S n)) with (falling T n * (T - Z.of_nat (S n)))%Z.
  rewrite (Nat2Z.inj_succ n), Z.pow_succ_r by lia.
  replace (T - Z.succ (Z.of_nat n))%Z with (T + - (Z.of_nat n + 1))%Z by lia.
  rewrite !inject_Z_mult, !inject_Z_plus, inject_Z_opp, !inject_Z_plus.
  assert (~ inject_Z T == 0)%Q as HT0.
  { change 0%Q with (inject_Z 0). rewrite inject_Z_injective. lia. }
  assert (~ inject_Z (T ^ Z.of_nat n) == 0)%Q as HP0.
  { change 0%Q with (inject_Z 0). rewrite inject_Z_injective.
    apply Z.pow_nonzero; lia. }
  field. split; assumption.
Qed.

End MoreRoundFacts.

(** Decided tokens.  In a round of [generate2], a position that enters the
    round with a token other than [MASK_TOKEN_ID] keeps that token in
    [sampled_ids], and the grid handed to the next round holds, at every
    position, either [MASK_TOKEN_ID] or the token of [sampled_ids]. *)
Theorem round_keeps_decided_tokens `{E : Externals} {L : ExternalsLaws E}
    (cfg : config) input_ids class_ids ehs t0 T gs ns k w st w1 st' w2 :
  generate2_rounds cfg input_ids class_ids ehs t0 T gs ns (seqZ 0 k) w
    = (inr st, w1) ->
  generate2_round cfg class_ids ehs T gs ns k st w1 = (inr st', w2) ->
  exists ids sampled next,
    g2_input_ids st = Some ids /\
    g2_sampled_ids st' = Some sampled /\
    g2_input_ids st' = Some next /\
    forall i j t, at2 ids i j = Some t ->
      (t <> mask_token_id cfg -> at2 sampled i j = Some t) /\
      (at2 next i j = Some (mask_token_id cfg) \/
       at2 next i j = at2 sampled i j).
Proof.
  intros Hrun Hround.
  apply generate2_rounds_inv in Hrun as [([Hts _] & Hin & _) _].
  apply (generate2_round_inr _ _ _ _ _ _ _ _ _ _ _ (batch_of class_ids ehs w))
    in Hround as (ids & lg & raw & masking & Hids & _ & _ & _ & Hraw & _ & Hm & ->).
  2:{ intros ids Hids. by apply Hin. }
  2:{ intros l Hl. rewrite Hts. by apply shifted_batch. }
  destruct (Hin ids Hids) as [Hrect _].
  eexists ids, _, _. split_and!; [done | reflexivity | reflexivity |].
  intros i j t Hij.
  destruct (at2_where2 (mask_token_id cfg) raw ids _ _ i j t Hraw Hrect Hij)
    as (r & Hr & Hw).
  split.
  - intros Hne. rewrite Hw. by destruct (Z.eqb_spec t (mask_token_id cfg)).
  - assert (rect (batch_of class_ids ehs w) (num_vq_tokens cfg)
              (where2 (is_mask_map (mask_token_id cfg) ids) raw ids)) as Hsr.
    { apply rect_where2; [by apply rect_is_mask_map | done | done]. }
    destruct (at2_where_scalar_l masking (mask_token_id cfg) _ _ _ i j _
                Hm Hsr Hw) as [Hn|Hn]; [by left | right; congruence].
Qed.

(** Annealing in [generate].  After [n] rounds of a call with [timesteps]
    rounds, the temperature last handed to [gumbel_sample] is
    [temperature * (timesteps - n) / timesteps]: it falls linearly from the
    caller's value and is zero in the last round. *)
Theorem generate_temperature_is_linear `{E : Externals} {L : ExternalsLaws E}
    (cfg : config) input_ids class_ids ehs t0 thres T gs ns n w st w' :
  (1 <= n <= Z.to_nat T)%nat ->
  generate_rounds cfg input_ids class_ids ehs t0 thres T gs ns n w = (inr st, w') ->
  g1_temperature st = (t0 * (inject_Z (T - Z.of_nat n) / inject_Z T))%Q.
Proof.
  intros Hn H. unfold generate_rounds in H.
  apply bind_inr in H as (st0 & w0 & _ & H).
  apply bind_inr in H as (its & w1 & Hsch & H).
  pose proof (length_generate_schedule _ _ _ _ Hsch) as [-> Hlen].
  unfold generate_schedule in Hsch. case_match; [discriminate|].
  apply ret_inr in Hsch as [<- _].
  destruct n as [|m]; [lia|].
  match type of H with context [take _ ?l] => set (its := l) in * end.
  assert (m < length its)%nat as Hm by lia.
  apply lookup_lt_is_Some in Hm as [it Hit].
  rewrite (take_S_r _ _ _ Hit), for_each_app in H.
  apply bind_inr in H as (s1 & w2 & _ & H). simpl in H.
  apply bind_inr in H as (s2 & w3 & Hr & H).
  apply ret_inr in H as [<- _].
  apply (generate_round_temperature cfg) in Hr. rewrite Hr.
  apply schedule_lookup in Hit. rewrite Hit.
  do 3 f_equal. lia.
Qed.

(** Annealing in [generate2].  After [n] rounds of a call with [timesteps]
    rounds, the temperature last handed to [mask_by_random_topk] is the
    caller's value times the product of [(timesteps - k) / timesteps] for
    [k] from 1 to [n]; after the last round it is zero. *)
Theorem generate2_temperature_is_a_product `{E : Externals} {L : ExternalsLaws E}
    (cfg : config) input_ids class_ids ehs t0 T gs ns (n : nat) w st w' :
  (0 < T)%Z ->
  generate2_rounds cfg input_ids class_ids ehs t0 T gs ns (seqZ 0 (Z.of_nat n)) w
    = (inr st, w') ->
  (g2_temperature st
   == t0 * (inject_Z (falling T n) / inject_Z (T ^ Z.of_nat n)))%Q /\
  (Z.of_nat n = T -> g2_temperature st == 0)%Q.
Proof.
  intros HT H.
  assert (g2_temperature st
          == t0 * (inject_Z (falling T n) / inject_Z (T ^ Z.of_nat n)))%Q as Hc.
  { revert st w' H. induction n as [|n IH]; intros st w' H.
    - unfold generate2_rounds in H. apply bind_inr in H as (st0 & w0 & Hi & H).
      simpl in H. apply ret_inr in H as [<- _].
      unfold generate2_init in Hi. apply prelude_inr in Hi as ->.
      cbn [g2_temperature falling]. change (Z.of_nat 0) with 0%Z.
      rewrite Z.pow_0_r. change (inject_Z 1) with 1%Q. field.
    - unfold generate2_rounds in H. apply bind_inr in H as (st0 & w0 & Hi & H).
      rewrite seqZ_S, for_each_app in H.
      apply bind_inr in H as (s1 & w1 & H1 & H). simpl in H.
      apply bind_inr in H as (s2 & w2 & Hr & H).
      apply ret_inr in H as [<- _].
      apply generate2_round_temperature in Hr. rewrite Hr.
      apply falling_closed; [done|].
      apply (IH s1 w1). unfold generate2_rounds.
      by rewrite (bind_step _ _ _ _ _ Hi). }
  split; [exact Hc|].
  intros HnT. rewrite Hc.
  assert (falling T n = 0%Z) as ->.
  { destruct n as [|m]; [lia|]. simpl. rewrite HnT. lia. }
  unfold Qdiv. change (inject_Z 0) with 0%Q. ring.
Qed.

Lemma one_forward_pass_per_round_witness :
  exists new,
    passes (snd (generate2 toy_text_cfg (Some []) None (Some Toy.text) 1%Q 3%Z 2%Q
                   Toy.linear_schedule None (Toy.world0 5)))
    = new ++ [] /\
    length new = 3%nat /\
    Forall (fun p => exists ids,
              rect 2 4 ids /\
              p = round_pass (Some Toy.text) 2%Q (fed_ids None (tensors (Toy.world0 5)) ids))
           new.
Proof.
  apply (one_forward_pass_per_round toy_text_cfg (Some []) None (Some Toy.text)
           1%Q (9 # 10) 3%Z 2%Q Toy.linear_schedule None (Toy.world0 5) None
           [[2; 0; 1; 2]; [0; 1; 2; 0]]%Z
           (snd (generate2 toy_text_cfg (Some []) None (Some Toy.text) 1%Q 3%Z 2%Q
                   Toy.linear_schedule None (Toy.world0 5)))).
  right. vm_compute. reflexivity.
Defined.

Lemma round_keeps_decided_tokens_witness :
  exists ids sampled next,
    Some [[5; 5; 1; 2]; [5; 5; 2; 0]]%Z = Some ids /\
    Some [[2; 0; 1; 2]; [0; 1; 2; 0]]%Z = Some sampled /\
    Some [[5; 0; 1; 2]; [5; 1; 2; 0]]%Z = Some next /\
    forall i j t, at2 ids i j = Some t ->
      (t <> mask_token_id Toy.cfg -> at2 sampled i j = Some t) /\
      (at2 next i j = Some (mask_token_id Toy.cfg) \/
       at2 next i j = at2 sampled i j).
Proof.
  pose (r := generate2_rounds Toy.cfg (Some []) (Some 1%positive) None 1%Q 4%Z 0%Q
               Toy.linear_schedule (seqZ 0 2) (Toy.world0 5)).
  pose (st := match fst r with
              | inr st => st
              | inl _ => Locals2 None 0%Q None None [] []
              end).
  pose (r' := generate2_round Toy.cfg (Some 1%positive) None 4%Z 0%Q
                Toy.linear_schedule 2%Z st (snd r)).
  pose (st' := match fst r' with
               | inr st' => st'
               | inl _ => Locals2 None 0%Q None None [] []
               end).
  apply (round_keeps_decided_tokens Toy.cfg (Some []) (Some 1%positive) None 1%Q
           4%Z 0%Q Toy.linear_schedule 2%Z (Toy.world0 5) st (snd r) st' (snd r')).
  - vm_compute. reflexivity.
  - vm_compute. reflexivity.
Defined.

Lemma generate_temperature_is_linear_witness :
  exists st w',
    generate_rounds toy_text_cfg (Some []) None (Some Toy.text) 1%Q (9 # 10) 3%Z 2%Q
      (fun _ => 1 # 2)%Q 2 (Toy.world0 5) = (inr st, w') /\
    g1_temperature st = (1 * (inject_Z (3 - 2) / inject_Z 3))%Q.
Proof.
  pose (r := generate_rounds toy_text_cfg (Some []) None (Some Toy.text) 1%Q
               (9 # 10) 3%Z 2%Q (fun _ => 1 # 2)%Q 2 (Toy.world0 5)).
  pose (st := match fst r with
              | inr st => st
              | inl _ => Locals1 None [] 0%Q None
              end).
  assert (r = (inr st, snd r)) as Hrun by (vm_compute; reflexivity).
  exists st, (snd r). split; [exact Hrun|].
  apply (generate_temperature_is_linear toy_text_cfg (Some []) None (Some Toy.text)
           1%Q (9 # 10) 3%Z 2%Q (fun _ => 1 # 2)%Q 2 (Toy.world0 5) st (snd r)).
  - simpl. lia.
  - exact Hrun.
Defined.

Lemma generate2_temperature_is_a_product_witness :
  exists st w',
    generate2_rounds toy_text_cfg (Some []) None (Some Toy.text) 1%Q 3%Z 2%Q
      Toy.linear_schedule (seqZ 0 (Z.of_nat 3)) (Toy.world0 5) = (inr st, w') /\
    (g2_temperature st == 1 * (inject_Z (falling 3 3) / inject_Z (3 ^ Z.of_nat 3)))%Q /\
    (Z.of_nat 3 = 3%Z -> g2_temperature st == 0)%Q.
Proof.
  pose (r := generate2_rounds toy_text_cfg (Some []) None (Some Toy.text) 1%Q 3%Z
               2%Q Toy.linear_schedule (seqZ 0 (Z.of_nat 3)) (Toy.world0 5)).
  pose (st := match fst r with
              | inr st => st
              | inl _ => Locals2 None 0%Q None None [] []
              end).
  assert (r = (inr st, snd r)) as Hrun by (vm_compute; reflexivity).
  exists st, (snd r). split; [exact Hrun|].
  apply (generate2_temperature_is_a_product toy_text_cfg (Some []) None
           (Some Toy.text) 1%Q 3%Z 2%Q Toy.linear_schedule 3 (Toy.world0 5)
           st (snd r)).
  - lia.
  - exact Hrun.
Defined.

(** * The class token *)

Section ClassTokenFacts.
Context `{E : Externals} {L : ExternalsLaws E} (cfg : config).




End ClassTokenFacts.



(** * The pipeline *)

(** ** Duplicating the embeddings of a prompt *)

Section ViewFacts.
Context {A : Type}.

Lemma chunk_concat (k d : nat) (ls : list (list A)) :
  length ls = k -> Forall (fun l => length l = d) ls ->
  chunk k d (concat ls) = ls.
Proof.
  revert k. induction ls as [|l ls IH]; intros k Hk HF; simpl in *.
  - by subst.
  - subst k. inversion HF as [|? ? Hl HF']; subst. simpl.
    rewrite take_app_length, drop_app_length. f_equal. by apply IH.
Qed.

Lemma length_concat_uniform (d : nat) (ls : list (list A)) :
  Forall (fun l => length l = d) ls -> length (concat ls) = (length ls * d)%nat.
Proof.
  induction 1 as [|l ls Hl _ IH]; simpl; [done|].
  rewrite length_app, IH, Hl. done.
Qed.

Lemma concat_map_concat (L : list (list (list A))) :
  concat (map (fun l => concat l) L) = concat (concat L).
Proof.
  induction L as [|l L IH]; simpl; [done|].
  by rewrite concat_app, IH.
Qed.

Lemma Forall_concat_replicate (P : A -> Prop) (n : nat) (e : list A) :
  Forall P e -> Forall P (concat (map (replicate n) e)).
Proof.
  induction 1 as [|x e Hx _ IH]; simpl; [constructor|].
  apply Forall_app. split; [|done]. by apply Forall_replicate.
Qed.

Lemma length_concat_replicate (n : nat) (e : list A) :
  length (concat (map (replicate n) e)) = (length e * n)%nat.
Proof.
  induction e as [|x e IH]; simpl; [done|].
  rewrite length_app, length_replicate, IH. done.
Qed.

End ViewFacts.

(** Duplication of the text embeddings.  For [b] prompts encoded to shape
    (b, s, d), with [b], [s] and [num_images_per_prompt] positive,
    [repeat(1, n, 1)] followed by [view(b * n, s, -1)] yields every
    prompt's embedding [n] times in a row, in the order of the prompts:
    what [repeat_interleave(n, dim=0)] gives for the class ids.  With
    [num_images_per_prompt <= 0] the duplication raises [RuntimeError]. *)
Theorem text_embeddings_are_repeated_per_prompt (e : cond) (b s d : nat) (n : Z) :
  shape3 b s d e -> (0 < b)%nat -> (0 < s)%nat ->
  ((0 < n)%Z ->
   duplicate_per_prompt e n = inr (concat (map (replicate (Z.to_nat n)) e))) /\
  ((n <= 0)%Z -> duplicate_per_prompt e n = inl RuntimeError).
Proof.
  intros [[Hb Hs] Hd] Hb0 Hs0.
  assert (dim1 e = s) as Hdim.
  { unfold dim1. destruct e as [|row e]; simpl in *; [lia|].
    by inversion Hs. }
  unfold duplicate_per_prompt, repeat_dim1. rewrite Hdim, Hb. split.
  - intros Hn. destruct (Z.ltb_spec n 0) as [|_]; [lia|]. simpl.
    set (n' := Z.to_nat n).
    set (E' := concat (map (replicate n') e)).
    assert (concat (map (fun row => concat (replicate n' row)) e) = concat E')
      as Hflat.
    { unfold E'. rewrite <- concat_map_concat, map_map. done. }
    assert (Forall (fun row => length row = s) E') as HE's.
    { by apply Forall_concat_replicate. }
    assert (length E' = (b * n')%nat) as HE'len.
    { unfold E'. by rewrite length_concat_replicate, Hb. }
    assert (Forall (fun v => length v = d) (concat E')) as Hvd.
    { apply Forall_concat. apply Forall_concat_replicate. exact Hd. }
    assert (length (concat E') = (b * n' * s)%nat) as Hvlen.
    { by rewrite (length_concat_uniform s), HE'len. }
    assert (length (concat (concat E')) = (b * n' * s * d)%nat) as Hnumel.
    { by rewrite (length_concat_uniform d), Hvlen. }
    unfold view_infer_last. rewrite Hflat, Hnumel.
    assert (Z.of_nat b * n * Z.of_nat s = Z.of_nat (b * n' * s))%Z as Hnew.
    { unfold n'. lia. }
    rewrite Hnew.
    assert (0 < b * n' * s)%nat as Hpos by (unfold n'; nia).
    destruct (Z.ltb_spec (Z.of_nat b * n) 0) as [|_]; [lia|].
    destruct (Z.ltb_spec (Z.of_nat s) 0) as [|_]; [lia|]. cbn [orb].
    replace (Z.of_nat (b * n' * s * d)) with (Z.of_nat d * Z.of_nat (b * n' * s))%Z
      by lia.
    rewrite Z_mod_mult, Z_div_mult by lia.
    destruct (Z.ltb_spec 0 (Z.of_nat (b * n' * s))) as [_|]; [|lia].
    rewrite Z.eqb_refl, andb_true_r, orb_true_r.
    destruct (Z.eqb_spec (Z.of_nat (b * n' * s)) 0) as [|_]; [lia|].
    rewrite !Nat2Z.id.
    replace (Z.to_nat (Z.of_nat b * n)) with (b * n')%nat by (unfold n'; lia).
    rewrite (chunk_concat _ d); [|done|done].
    by rewrite (chunk_concat _ s).
  - intros Hn. destruct (Z.ltb_spec n 0) as [|Hge]; [done|]. simpl.
    assert (n = 0%Z) as -> by lia.
    unfold view_infer_last. rewrite Z.mul_0_r, Z.mul_0_l. simpl.
    destruct (Z.ltb_spec (Z.of_nat s) 0) as [|_]; [lia|].
    by case_match.
Qed.

Lemma text_embeddings_are_repeated_per_prompt_witness :
  duplicate_per_prompt [[[1; 0]]; [[2; 1]]]%Q 2
    = inr [[[1; 0]]; [[1; 0]]; [[2; 1]]; [[2; 1]]]%Q /\
  duplicate_per_prompt [[[1; 0]]; [[2; 1]]]%Q 0 = inl RuntimeError.
Proof.
  destruct (text_embeddings_are_repeated_per_prompt [[[1; 0]]; [[2; 1]]]%Q
              2 1 2 2) as [H1 _].
  - repeat split; repeat constructor.
  - lia.
  - lia.
  - destruct (text_embeddings_are_repeated_per_prompt [[[1; 0]]; [[2; 1]]]%Q
                2 1 2 0) as [_ H2].
    + repeat split; repeat constructor.
    + lia.
    + lia.
    + split; [apply H1; lia | apply H2; lia].
Defined.

(** ** Pixels *)

Lemma list_lookup_map {A B} (f : A -> B) (l : list A) (i : nat) :
  map f l !! i = f <$> l !! i.
Proof. revert i. induction l as [|x l IH]; intros [|i]; simpl; auto. Qed.

Lemma entry3_map3 {A B} (f : A -> B) (t : list (list (list A))) i j k :
  entry3 (map3 f t) i j k = f <$> entry3 t i j k.
Proof.
  unfold entry3, at2, map3.
  rewrite list_lookup_map. destruct (t !! i) as [plane|]; simpl; [|done].
  rewrite list_lookup_map. destruct (plane !! j) as [row|]; simpl; [|done].
  by rewrite list_lookup_map.
Qed.

Lemma shape3_map3 {A B} (f : A -> B) (t : list (list (list A))) b s v :
  shape3 b s v t -> shape3 b s v (map3 f t).
Proof.
  intros [Hr Hv]. unfold map3. split.
  - by apply rect_map2.
  - apply all2_map2. eapply all2_impl; [exact Hv|].
    intros row Hrow. simpl. by rewrite length_map.
Qed.

Lemma permute_1_2_0_spec (image : image32) (c h w : nat) :
  shape3 c h w image -> (0 < c)%nat ->
  shape3 h w c (permute_1_2_0 image) /\
  forall k i j x, entry3 image k i j = Some x ->
    entry3 (permute_1_2_0 image) i j k = Some x.
Proof.
  intros [[Hc Hh] Hw] Hc0. unfold permute_1_2_0.
  destruct image as [|ch0 image']; [simpl in Hc; lia|].
  set (image := ch0 :: image') in *. simpl head. simpl default.
  assert (length ch0 = h) as Hh0 by (by inversion Hh).
  assert (Forall (fun row => length row = w) ch0) as Hw0 by (by inversion Hw).
  assert (h = 0%nat \/ dim1 ch0 = w) as Hdim.
  { unfold dim1. destruct ch0 as [|row ch0']; simpl in *; [left; lia|right].
    by inversion Hw0. }
  rewrite Hh0. split.
  - split; [split|].
    + by rewrite length_map, length_seq.
    + apply Forall_map, Forall_forall. intros i Hi. simpl.
      rewrite length_map, length_seq.
      destruct Hdim as [->|Hd]; [|done].
      apply elem_of_seq in Hi. lia.
    + apply Forall_map, Forall_forall. intros i _. simpl.
      apply Forall_map, Forall_forall. intros j _. simpl.
      by rewrite length_map.
  - intros k i j x Hx. unfold entry3 in Hx.
    destruct (image !! k) as [ch|] eqn:Hch; [|discriminate].
    unfold at2 in Hx. destruct (ch !! i) as [row|] eqn:Hrow; [|discriminate].
    assert (length ch = h) as Hlh by exact (Forall_lookup_1 _ _ _ _ Hh Hch).
    assert (length row = w) as Hlw.
    { exact (Forall_lookup_1 _ _ _ _ (Forall_lookup_1 _ _ _ _ Hw Hch) Hrow). }
    assert (i < h)%nat as Hi by (rewrite <- Hlh; eapply lookup_lt_Some, Hrow).
    assert (j < w)%nat as Hj by (rewrite <- Hlw; eapply lookup_lt_Some, Hx).
    destruct Hdim as [->|Hd]; [lia|]. rewrite Hd.
    unfold entry3, at2, image32, f32 in *.
    rewrite list_lookup_map, lookup_seq_lt by done.
    cbn [fmap option_fmap option_map Nat.add].
    rewrite list_lookup_map, lookup_seq_lt by done.
    cbn [fmap option_fmap option_map Nat.add].
    rewrite list_lookup_map, Hch.
    cbn [fmap option_fmap option_map]. by rewrite Hrow, Hx.
Qed.

(** Pixels.  For an image tensor of shape (c, h, w) with at least one
    channel, the array handed to [Image.fromarray] has shape (h, w, c), and
    its entry at (i, j, k) is computed from the entry [x] of the tensor at
    (k, i, j) alone: it is the [uint8] cast of
    [255 * ((clip(2 * x - 1, -1, 1) + 1) / 2)], every operation rounded to
    float32. *)
Theorem to_pil_image_is_channel_last (image : image32) (c h w : nat) :
  shape3 c h w image -> (0 < c)%nat ->
  shape3 h w c (to_pil_array image) /\
  forall k i j x, entry3 image k i j = Some x ->
    entry3 (to_pil_array image) i j k
    = Some (astype_uint8
              (f32_mul (f32_of_Z 255)
                 (f32_div
                    (f32_add
                       (np_clip (f32_sub (f32_mul (f32_of_Z 2) x) (f32_of_Z 1))
                          (f32_of_Z (-1)) (f32_of_Z 1))
                       (f32_of_Z 1))
                    (f32_of_Z 2)))).
Proof.
  intros Hs Hc. destruct (permute_1_2_0_spec image c h w Hs Hc) as [Hps Hpe].
  unfold to_pil_array. split.
  - by do 4 apply shape3_map3.
  - intros k i j x Hx. by rewrite !entry3_map3, (Hpe _ _ _ _ Hx).
Qed.

(** The tensor with the two rows (1/255, 1/2) and (1, 2) in its one
    channel: 1/255 becomes the pixel 0, since the product rounds to
    0.99999994, and 2 is clipped to 255. *)
Lemma to_pil_image_is_channel_last_witness :
  let image := [[[S754_finite false 8421505 (-31); S754_finite false 8388608 (-24)];
                 [f32_of_Z 1; f32_of_Z 2]]] in
  shape3 2 2 1 (to_pil_array image) /\
  to_pil_array image = [[[0]; [127]]; [[255]; [255]]]%Z.
Proof.
  intros image.
  destruct (to_pil_image_is_channel_last image 1 2 2) as [Hs He].
  - by repeat constructor.
  - lia.
  - split; [exact Hs|]. vm_compute. reflexivity.
Defined.

(** ** [PipelineMuse.__call__] *)

Section PipelineFacts.
Context `{E : Externals} `{P : !PipelineExternals}.

Lemma generate2_without_rounds (cfg : config) input_ids class_ids ehs t0 T gs ns gen w :
  (T < 1)%Z ->
  exists e, fst (generate2 cfg input_ids class_ids ehs t0 T gs ns gen w) = inl e.
Proof.
  intros HT.
  assert (seqZ 0 T = []) as Hnil by (apply seqZ_nil; lia).
  unfold generate2, generate2_rounds. rewrite Hnil.
  destruct class_ids, ehs, w; cbn; eauto.
Qed.

Lemma pipeline_decode_never_returns (cfg : config) ns umg class_ids ehs T gs t0
    thres gen w :
  exists e, fst (pipeline_decode cfg ns umg class_ids ehs T gs t0 thres gen w) = inl e.
Proof.
  destruct (Z.le_gt_cases 1 T) as [HT|HT]; [by apply pipeline_decode_fails|].
  unfold pipeline_decode. destruct umg.
  - change (binds generate2_parameters true _) with true. cbv iota.
    destruct (generate2_without_rounds cfg None class_ids ehs t0 T gs ns gen w)
      as [e He]; [lia|].
    unfold bind.
    destruct (generate2 _ _ _ _ _ _ _ _ _ w) as [[e'|g] w']; simpl in *; [eauto|].
    discriminate.
  - assert (binds generate_parameters false
              (pipeline_keywords (bool_decide (is_Some class_ids))) = false) as ->.
    { by destruct class_ids. }
    simpl. eauto.
Qed.

Lemma pipeline_decode_tensors (cfg : config) ns umg class_ids ehs T gs t0 thres
    gen w r w' :
  pipeline_decode cfg ns umg class_ids ehs T gs t0 thres gen w = (r, w') ->
  tensors w' = tensors w \/ tensors w' = shifted cfg class_ids (tensors w).
Proof.
  unfold pipeline_decode. destruct umg.
  - change (binds generate2_parameters true _) with true. cbv iota.
    unfold bind.
    destruct (generate2 _ _ _ _ _ _ _ _ _ w) as [[e'|g] w1] eqn:Hg;
      intros [= <- <-]; right; by destruct (generate2_world _ _ _ _ _ _ _ _ _ _ _ _ Hg).
  - assert (binds generate_parameters false
              (pipeline_keywords (bool_decide (is_Some class_ids))) = false) as ->.
    { by destruct class_ids. }
    intros [= <- <-]. by left.
Qed.

End PipelineFacts.

(** The pipeline call.  [PipelineMuse.__call__] never returns images: with
    neither or both of [text] and [class_ids] it raises [ValueError] before
    anything else happens, and otherwise an exception ends the call as
    well, because it leaves [input_ids] to the decoder's default. *)
Theorem pipeline_call_never_returns `{E : Externals} `{P : !PipelineExternals}
    (self : PipelineMuse) text negative_text class_ids T gs t0 thres n umg gen
    fp16 w :
  (exists e,
     fst (PipelineMuse_call self text negative_text class_ids T gs t0 thres n
            umg gen fp16 w) = inl e) /\
  ((is_Some text <-> is_Some class_ids) ->
   PipelineMuse_call self text negative_text class_ids T gs t0 thres n umg gen
     fp16 w = (inl ValueError, w)).
Proof.
  split.
  - unfold PipelineMuse_call. unfold bind at 1.
    destruct (model_inputs _ _ _ _ _ w) as [[e|inputs] w1]; [by eauto|].
    unfold bind at 1.
    destruct (pipeline_decode_never_returns
                (transformer_config (transformer self)) cosine_schedule umg
                (fst inputs) (snd inputs) T gs t0 thres gen w1) as [e He].
    destruct (pipeline_decode _ _ _ _ _ _ _ _ _ _ w1) as [[e'|g] w2];
      simpl in *; [eauto | discriminate].
  - intros Hiff. unfold PipelineMuse_call, model_inputs.
    destruct text as [t|], class_ids as [c|]; try reflexivity.
    + destruct Hiff as [Hiff _]. destruct Hiff as [? [=]]. by eexists.
    + destruct Hiff as [_ Hiff]. destruct Hiff as [? [=]]. by eexists.
Qed.

Lemma pipeline_call_never_returns_witness :
  (exists e,
     fst (PipelineMuse_call toy_pipe (Some (StrList ["a cat"; "dog"]%string)) None
            None 3 0 1 (9 # 10) 2 true None false (Toy.world0 5)) = inl e) /\
  PipelineMuse_call toy_pipe None None None 3 0 1 (9 # 10) 2 true None false
    (Toy.world0 5) = (inl ValueError, Toy.world0 5).
Proof.
  split.
  - apply (pipeline_call_never_returns toy_pipe).
  - apply (pipeline_call_never_returns toy_pipe None None None).
    split; intros [? [=]].
Defined.

(** The tensors of the caller.  Whatever the outcome of a class-conditioned
    call of the pipeline, every tensor that existed before the call is
    unchanged after it: the class ids are put into a new tensor, and the
    in-place shift of the decoder acts on that one. *)
Theorem pipeline_leaves_existing_tensors_alone `{E : Externals}
    `{P : !PipelineExternals}
    (self : PipelineMuse) negative_text c T gs t0 thres n umg gen fp16 w r w' l :
  PipelineMuse_call self None negative_text (Some c) T gs t0 thres n umg gen
    fp16 w = (r, w') ->
  l ∈ dom (tensors w) ->
  tensors w' !! l = tensors w !! l.
Proof.
  unfold PipelineMuse_call, model_inputs. intros H Hl.
  set (ids := match c with Int i => [i] | IntList l0 => l0 end) in H.
  unfold bind at 1 in H. unfold bind at 1 in H.
  unfold lift, repeat_interleave in H.
  revert H. destruct (n <? 0)%Z; intros H;
    [cbv beta iota zeta in H; injection H as <- <-; reflexivity|].
  unfold bind at 1, new_tensor, ret in H. cbv beta iota zeta in H.
  cbn [fst snd] in H.
  set (l0 := fresh (dom (tensors w))) in H.
  assert (l0 <> l) as Hne.
  { intros Heq. apply (is_fresh (dom (tensors w))). fold l0. by rewrite Heq. }
  match type of H with context [pipeline_decode ?a ?b ?c ?d ?e ?f ?g ?h ?i ?j] =>
    match type of H with bind _ _ ?w0 = _ =>
      destruct (pipeline_decode_never_returns a b c d e f g h i j w0) as [e0 He];
      destruct (pipeline_decode a b c d e f g h i j w0) as [[e1|g1] w1] eqn:Hd
    end
  end; [|discriminate].
  unfold bind in H. rewrite Hd in H. injection H as <- <-.
  apply pipeline_decode_tensors in Hd as [->| ->]; simpl.
  - by rewrite lookup_insert_ne.
  - by rewrite lookup_alter_ne, lookup_insert_ne.
Qed.

Lemma pipeline_leaves_existing_tensors_alone_witness :
  tensors (snd (PipelineMuse_call toy_pipe None None (Some (IntList [0; 1]%Z)) 3 0 1
                  (9 # 10) 2 true None false (Toy.world0 5))) !! 1%positive
  = tensors (Toy.world0 5) !! 1%positive.
Proof.
  apply (pipeline_leaves_existing_tensors_alone toy_pipe None (IntList [0; 1]%Z)
           3 0 1 (9 # 10) 2 true None false (Toy.world0 5)
           (fst (PipelineMuse_call toy_pipe None None (Some (IntList [0; 1]%Z)) 3 0 1
                   (9 # 10) 2 true None false (Toy.world0 5)))).
  - apply surjective_pairing.
  - vm_compute. reflexivity.
Defined.

(** ** [PipelineMuse.from_pretrained] *)

(** Loading a class-conditioned pipeline.  [from_pretrained] with
    [is_class_conditioned=True] never returns a pipeline.  Without
    [model_name_or_path] it raises [ValueError] as soon as one of the three
    paths is missing, [text_encoder_path] included; and when every
    configuration and model loads, it ends in [UnboundLocalError], because
    [text_encoder] and [tokenizer] are assigned for text pipelines only. *)
Theorem class_conditioned_pipeline_cannot_be_loaded `{E : Externals}
    `{P : !PipelineExternals} model_name_or_path text_encoder_path vae_path
    transformer_path :
  (forall p, from_pretrained model_name_or_path text_encoder_path vae_path
               transformer_path true <> inr p) /\
  (model_name_or_path = None ->
   text_encoder_path = None \/ vae_path = None \/ transformer_path = None ->
   from_pretrained model_name_or_path text_encoder_path vae_path
     transformer_path true = inl (Builtin ValueError)) /\
  (forall name tc t vc v,
     model_name_or_path = Some name ->
     MaskGitTransformer_load_config (subfolder_args name "transformer") = inr tc ->
     tc !! "_class_name"%string = Some "MaskGitTransformer"%string ->
     MaskGitTransformer_from_pretrained (subfolder_args name "transformer") = inr t ->
     MaskGitVQGAN_load_config (subfolder_args name "vae") = inr vc ->
     vc !! "_class_name"%string = Some "VQGANModel"%string ->
     VQGANModel_from_pretrained (subfolder_args name "vae") = inr v ->
     from_pretrained model_name_or_path text_encoder_path vae_path
       transformer_path true = inl (Builtin UnboundLocalError)).
Proof.
  split_and!.
  - intros p. unfold from_pretrained, try, bound. cbn [negb].
    repeat case_match; simplify_eq; try done.
  - intros -> H. unfold from_pretrained.
    destruct text_encoder_path, vae_path, transformer_path; try reflexivity.
    destruct H as [[=]|[[=]|[=]]].
  - intros name tc t vc v -> Htc Hcn Ht Hvc Hvn Hv.
    unfold from_pretrained, try, getitem. cbn [negb].
    rewrite Htc, Hcn. cbn [String.eqb]. simpl. rewrite Ht, Hvc, Hvn. simpl.
    rewrite Hv. reflexivity.
Qed.

Lemma class_conditioned_pipeline_cannot_be_loaded_witness :
  from_pretrained (P := toy_pipeline) None None (Some "vae"%string)
    (Some "transformer"%string) true = inl (Builtin ValueError) /\
  from_pretrained (P := toy_pipeline) (Some "repo"%string) None None None true
    = inl (Builtin UnboundLocalError).
Proof.
  split.
  - apply (class_conditioned_pipeline_cannot_be_loaded (P := toy_pipeline)
             None None (Some "vae"%string) (Some "transformer"%string));
      [reflexivity | by left].
  - apply (class_conditioned_pipeline_cannot_be_loaded (P := toy_pipeline)
             (Some "repo"%string) None None None) with
        (name := "repo"%string)
        (tc := {[ "_class_name"%string := "MaskGitTransformer"%string ]})
        (t := Toy.cfg)
        (vc := {[ "_class_name"%string := "VQGANModel"%string ]})
        (v := tt); reflexivity.
Defined.

(** * Broadcasting and views *)

Section BroadcastFacts.
Context {X A B C : Type}.

Lemma mapM_e_total (f : A -> X + B) (g : A -> B) (l : list A) :
  Forall (fun a => f a = inr (g a)) l -> mapM_e f l = inr (map g l).
Proof.
  induction 1 as [|a l Ha _ IH]; simpl; [done|].
  rewrite Ha. simpl. rewrite IH. done.
Qed.

Lemma mapM_e_inr (f : A -> X + B) (l : list A) (r : list B) :
  mapM_e f l = inr r -> Forall2 (fun a b => f a = inr b) l r.
Proof.
  revert r. induction l as [|a l IH]; intros r; simpl.
  - intros [= <-]. constructor.
  - destruct (f a) as [e|b] eqn:Ha; simpl; [discriminate|].
    destruct (mapM_e f l) as [e|bs]; simpl; [discriminate|].
    intros [= <-]. constructor; auto.
Qed.

Lemma mapM_e_fails (f : A -> X + B) (l : list A) (e : X) :
  Forall (fun a => forall e', f a = inl e' -> e' = e) l ->
  Exists (fun a => exists e', f a = inl e') l ->
  mapM_e f l = inl e.
Proof.
  induction 1 as [|a l Ha Hl IH]; intros Hex; [by inversion Hex|].
  simpl. destruct (f a) as [e'|b] eqn:Hfa; simpl.
  - by rewrite (Ha e' eq_refl).
  - inversion Hex as [? ? [e' He']|? ? Hex']; subst; [congruence|].
    by rewrite (IH Hex').
Qed.

End BroadcastFacts.

Lemma broadcast_same_length {A B C} (f : A -> B -> exn + C) x y :
  length x = length y ->
  broadcast f x y = mapM_e (fun p => f (fst p) (snd p)) (zip x y).
Proof. intros H. unfold broadcast. by rewrite H, Nat.eqb_refl. Qed.

Lemma broadcast_singleton_r {A B C} (f : A -> B -> exn + C) x b :
  broadcast f x [b] = mapM_e (fun a => f a b) x.
Proof.
  unfold broadcast. destruct x as [|a [|a' x]]; try reflexivity.
Qed.

Lemma broadcast_singleton_l {A B C} (f : A -> B -> exn + C) a y :
  broadcast f [a] y = mapM_e (f a) y.
Proof.
  unfold broadcast. destruct y as [|b [|b' y]]; try reflexivity.
Qed.

(** On tensors of one shape, an elementwise operation goes entry by entry. *)
Lemma broadcast3_same_shape {A B C} (f : A -> B -> C) x y b s d :
  shape3 b s d x -> shape3 b s d y ->
  broadcast3 f x y = inr (zip_with (zip_with (zip_with f)) x y).
Proof.
  intros [[Hxb Hxs] Hxd] [[Hyb Hys] Hyd]. unfold broadcast3.
  rewrite broadcast_same_length by congruence.
  rewrite (mapM_e_total _ (fun p => zip_with (zip_with f) (fst p) (snd p))).
  { f_equal. clear. revert y. induction x as [|a x IH]; intros [|c y]; simpl; congruence. }
  apply Forall_forall. intros [px py] Hin. simpl.
  apply elem_of_zip_l in Hin as Hpx. apply elem_of_zip_r in Hin as Hpy.
  simpl in *.
  rewrite Forall_forall in Hxs. rewrite Forall_forall in Hys.
  rewrite broadcast_same_length by (rewrite (Hxs px), (Hys py); done).
  rewrite (mapM_e_total _ (fun p => zip_with f (fst p) (snd p))).
  { f_equal. clear. revert py. induction px as [|a x IH]; intros [|c y]; simpl; congruence. }
  apply Forall_forall. intros [vx vy] Hin'. simpl.
  apply elem_of_zip_l in Hin' as Hvx. apply elem_of_zip_r in Hin' as Hvy.
  simpl in *.
  unfold all2 in Hxd, Hyd. rewrite Forall_forall in Hxd. rewrite Forall_forall in Hyd.
  specialize (Hxd px Hpx). specialize (Hyd py Hpy).
  rewrite Forall_forall in Hxd. rewrite Forall_forall in Hyd.
  rewrite broadcast_same_length by (rewrite (Hxd vx), (Hyd vy); done).
  rewrite (mapM_e_total _ (fun p => f (fst p) (snd p))).
  { f_equal. clear. revert vy. induction vx as [|a x IH]; intros [|c y]; simpl; congruence. }
  by apply Forall_forall.
Qed.

Lemma shape3_zip_with3 {A B C} (f : A -> B -> C) x y b s d :
  shape3 b s d x -> shape3 b s d y ->
  shape3 b s d (zip_with (zip_with (zip_with f)) x y).
Proof.
  intros [Hxr Hxd] [Hyr Hyd]. split.
  - by apply rect_zip_with2.
  - unfold all2 in *. apply Forall_zip_with2 with (P := Forall (fun ch => length ch = d))
      (Q := Forall (fun ch => length ch = d)); [|done|done].
    intros px py Hpx Hpy.
    apply Forall_zip_with2 with (P := fun ch => length ch = d)
      (Q := fun ch => length ch = d); [|done|done].
    intros vx vy Hvx Hvy. rewrite length_zip_with. lia.
Qed.

Section ChunkFacts.
Context {A : Type}.

Lemma chunk_length (k d : nat) (l : list A) : length (chunk k d l) = k.
Proof. revert l. induction k as [|k IH]; intros l; simpl; [done|]. by rewrite IH. Qed.

Lemma chunk_pieces (k d : nat) (l : list A) :
  (k * d <= length l)%nat -> Forall (fun p => length p = d) (chunk k d l).
Proof.
  revert l. induction k as [|k IH]; intros l Hl; simpl; constructor.
  - rewrite length_take. lia.
  - apply IH. rewrite length_drop. lia.
Qed.

Lemma chunk_Forall (P : A -> Prop) (k d : nat) (l : list A) :
  Forall P l -> Forall (Forall P) (chunk k d l).
Proof.
  revert l. induction k as [|k IH]; intros l Hl; simpl; constructor.
  - by apply Forall_take.
  - apply IH. by apply Forall_drop.
Qed.

End ChunkFacts.

Lemma dim1_rect {A} (x : list (list A)) b s : rect b s x -> (0 < b)%nat -> dim1 x = s.
Proof.
  intros [Hb Hs] H0. unfold dim1. destruct x as [|row x]; simpl in *; [lia|].
  by inversion Hs.
Qed.

Lemma numel_shape3 {A} (x : list (list (list A))) b s d :
  shape3 b s d x -> length (concat (concat x)) = (b * s * d)%nat.
Proof.
  intros [[Hb Hs] Hd].
  rewrite (length_concat_uniform d).
  - rewrite (length_concat_uniform s); [by rewrite Hb | done].
  - by apply Forall_concat.
Qed.

Lemma view4_shape (x : cond) b s n d :
  shape3 b s (n * d) x ->
  exists q, Attention.view4 b s n d x = inr q /\ shape4 b s n d q.
Proof.
  intros Hx. unfold Attention.view4.
  rewrite (numel_shape3 _ _ _ _ Hx).
  replace (b * s * (n * d))%nat with (b * s * n * d)%nat by lia.
  rewrite Nat.eqb_refl. eexists. split; [reflexivity|].
  set (flat := concat (concat x)).
  assert (length flat = (b * s * n * d)%nat) as Hflat.
  { unfold flat. rewrite (numel_shape3 _ _ _ _ Hx). lia. }
  set (L1 := chunk (b * s * n) d flat).
  assert (length L1 = (b * s * n)%nat) as HL1 by apply chunk_length.
  assert (Forall (fun v => length v = d) L1) as HL1d.
  { apply chunk_pieces. lia. }
  set (L2 := chunk (b * s) n L1).
  assert (Forall (fun h => length h = n /\ Forall (fun v => length v = d) h) L2) as HL2.
  { apply Forall_and. split.
    - apply chunk_pieces. lia.
    - by apply chunk_Forall. }
  split; [apply chunk_length|].
  assert (Forall (fun p => length p = s) (chunk b s L2)) as Hps.
  { apply chunk_pieces. unfold L2. rewrite chunk_length. lia. }
  assert (Forall (Forall (fun h => length h = n /\ Forall (fun v => length v = d) h))
            (chunk b s L2)) as Hpp by (by apply chunk_Forall).
  apply Forall_forall. intros p Hp.
  rewrite Forall_forall in Hps. rewrite Forall_forall in Hpp.
  specialize (Hps p Hp). specialize (Hpp p Hp).
  apply Forall_and in Hpp as [Hn Hd]. done.
Qed.

(** * The shapes of the submodules *)

Section NetworkFacts.
Context `{E : Externals} `{K : !Kernels} {KL : KernelLaws K}.

Lemma lift_inr {A} (r : A) (w : world) : lift (inr r) w = (inr r, w).
Proof. reflexivity. Qed.

Lemma Attention_init_inr name hs nh ehs p ub self :
  Attention.init name hs nh ehs p ub = inr self ->
  self = {| Attention.hidden_size := hs;
            Attention.num_heads := nh;
            Attention.head_dim := (hs / nh)%nat;
            Attention.query := Build_Linear (name +:+ ".query") hs hs ub;
            Attention.key := Build_Linear (name +:+ ".key") (default hs ehs) hs ub;
            Attention.value := Build_Linear (name +:+ ".value") (default hs ehs) hs ub;
            Attention.out := Build_Linear (name +:+ ".out") hs hs ub;
            Attention.dropout := p;
            Attention.use_memory_efficient_attention_xformers := false |} /\
  nh <> 0%nat /\ (nh * (hs / nh) = hs)%nat.
Proof.
  unfold Attention.init.
  destruct (Nat.eqb_spec nh 0) as [|Hnh]; [discriminate|].
  destruct (Nat.eqb_spec (hs / nh * nh) hs) as [Hd|]; [|discriminate].
  unfold nn_Dropout. destruct (Qltb p 0 || Qltb 1 p); [discriminate|].
  simpl. intros [= <-]. split_and!; [done|done|lia].
Qed.

(** Attention without a mask keeps the shape of [hidden_states]. *)
Lemma Attention_forward_shape name hs nh ehs p ub self x e b s s' w :
  Attention.init name hs nh ehs p ub = inr self ->
  (0 < b)%nat ->
  shape3 b s hs x ->
  match e with
  | Some c => shape3 b s' (default hs ehs) c
  | None => ehs = None
  end ->
  exists y w', Attention.forward self x e None w = (inr y, w') /\ shape3 b s hs y.
Proof.
  intros Hinit Hb Hx He.
  apply Attention_init_inr in Hinit as (-> & Hnh & Hdiv).
  unfold Attention.forward. cbn [Attention.use_memory_efficient_attention_xformers
    Attention.query Attention.key Attention.value Attention.out Attention.num_heads
    Attention.head_dim Attention.hidden_size Attention.dropout].
  rewrite andb_false_r.
  assert (length x = b) as Hlen by (by destruct Hx as [[? ?] ?]).
  rewrite Hlen, (dim1_rect x b s) by (by destruct Hx).
  set (ctx := default x e).
  match goal with
  | |- context [Attention.view4 b ?n nh _ _] =>
      lazymatch n with s => fail | _ => set (kv := n) end
  end.
  assert (exists s2, shape3 b s2 (default hs ehs) ctx /\ kv = s2) as (s2 & Hctx & Hkv).
  { unfold ctx, kv. destruct e as [c|]; simpl.
    - exists s'. split; [done|]. apply (dim1_rect c b s'); [by destruct He | done].
    - subst ehs. simpl. eauto. }
  rewrite Hkv.
  destruct (Linear_forward_shape (Build_Linear (name +:+ ".query") hs hs ub)
              b s x w Hx) as (q & w1 & Hq & Hqs).
  rewrite (bind_step _ _ _ _ _ Hq).
  destruct (Linear_forward_shape (Build_Linear (name +:+ ".key") (default hs ehs) hs ub)
              b s2 ctx w1 Hctx) as (k & w2 & Hk & Hks).
  rewrite (bind_step _ _ _ _ _ Hk).
  destruct (Linear_forward_shape (Build_Linear (name +:+ ".value") (default hs ehs) hs ub)
              b s2 ctx w2 Hctx) as (v & w3 & Hv & Hvs).
  rewrite (bind_step _ _ _ _ _ Hv).
  simpl out_features in *. rewrite <- Hdiv in Hqs, Hks, Hvs.
  destruct (view4_shape q b s nh (hs / nh) Hqs) as (q4 & Hq4 & Hq4s).
  destruct (view4_shape k b s2 nh (hs / nh) Hks) as (k4 & Hk4 & Hk4s).
  destruct (view4_shape v b s2 nh (hs / nh) Hvs) as (v4 & Hv4 & Hv4s).
  rewrite Hq4. rewrite (bind_step _ _ _ _ _ (lift_inr q4 w3)).
  rewrite Hk4. rewrite (bind_step _ _ _ _ _ (lift_inr k4 w3)).
  rewrite Hv4. rewrite (bind_step _ _ _ _ _ (lift_inr v4 w3)).
  destruct (Attention_attention_shape nh (hs / nh) p b s s2 q4 k4 v4 w3
              Hq4s Hk4s Hv4s) as (o & w4 & Ho & Hos).
  assert ((let* attention_mask := ret None in
           Attention_attention nh (hs / nh) p q4 k4 v4 attention_mask) w3
          = (inr o, w4)) as Hrun by exact Ho.
  rewrite (bind_step _ _ _ _ _ Hrun).
  rewrite Hdiv in Hos.
  exact (Linear_forward_shape (Build_Linear (name +:+ ".out") hs hs ub) b s o w4 Hos).
Qed.

End NetworkFacts.

Section LayerFacts.
Context `{E : Externals} `{K : !Kernels} {KL : KernelLaws K}.

Lemma norm_cls_dim nt ub name d eps : norm_dim (norm_cls nt ub name d eps) = d.
Proof. unfold norm_cls. by destruct (String.eqb nt "layernorm"). Qed.

Lemma Norm_cls_forward_shape nt ub name d eps b s x w :
  shape3 b s d x ->
  exists y w', Norm_forward (norm_cls nt ub name d eps) x w = (inr y, w') /\
    shape3 b s d y.
Proof.
  intros Hx.
  destruct (Norm_forward_shape (norm_cls nt ub name d eps) b s x w) as (y & w' & H & Hy).
  - by rewrite norm_cls_dim.
  - rewrite norm_cls_dim in Hy. eauto.
Qed.

Lemma add_shape (x y : cond) b s d w :
  shape3 b s d x -> shape3 b s d y ->
  exists z, lift (broadcast3 Qplus x y) w = (inr z, w) /\ shape3 b s d z.
Proof.
  intros Hx Hy. rewrite (broadcast3_same_shape Qplus x y b s d Hx Hy).
  eexists. split; [reflexivity|]. by apply shape3_zip_with3.
Qed.

Lemma FeedForward_forward_shape name hs it p nt eps un ub x b s w :
  shape3 b s hs x ->
  exists y w',
    FeedForward.forward (FeedForward.init name hs it p nt eps un ub) x w = (inr y, w') /\
    shape3 b s hs y.
Proof.
  intros Hx. unfold FeedForward.forward, FeedForward.init.
  cbn [FeedForward.pre_mlp_layer_norm FeedForward.wi_0 FeedForward.wi_1
       FeedForward.use_normformer FeedForward.mid_mlp_layer_norm FeedForward.wo
       FeedForward.dropout].
  destruct (Norm_forward_shape
              (LayerNorm (name +:+ ".pre_mlp_layer_norm") hs eps ub) b s x w Hx)
    as (h & w1 & H1 & Hh).
  rewrite (bind_step _ _ _ _ _ H1). simpl norm_dim in Hh.
  destruct (Linear_forward_shape (Build_Linear (name +:+ ".wi_0") hs it ub)
              b s h w1 Hh) as (g & w2 & H2 & Hg).
  rewrite (bind_step _ _ _ _ _ H2). simpl out_features in Hg.
  destruct (Linear_forward_shape (Build_Linear (name +:+ ".wi_1") hs it ub)
              b s h w2 Hh) as (l & w3 & H3 & Hl).
  rewrite (bind_step _ _ _ _ _ H3). simpl out_features in Hl.
  assert (shape3 b s it (map3 gelu g)) as Hgg by (by apply shape3_map3).
  rewrite (broadcast3_same_shape Qmult _ _ b s it Hgg Hl).
  rewrite (bind_step _ _ _ _ _ (lift_inr _ w3)).
  pose proof (shape3_zip_with3 Qmult _ _ b s it Hgg Hl) as Hm.
  set (m := zip_with _ _ _) in *.
  assert (exists m' w4,
            (if un
             then let* norm := attribute
                                 (if un
                                  then Some (norm_cls nt ub (name +:+ ".mid_mlp_layer_norm")
                                               it eps)
                                  else None) in
                  Norm_forward norm m
             else ret m) w3 = (inr m', w4) /\ shape3 b s it m')
    as (m' & w4 & H4 & Hm').
  { destruct un.
    - destruct (Norm_cls_forward_shape nt ub (name +:+ ".mid_mlp_layer_norm") it eps
                  b s m w3 Hm) as (m' & w4 & H4 & Hm').
      exists m', w4. split; [|done]. exact H4.
    - exists m, w3. by split. }
  rewrite (bind_step _ _ _ _ _ H4).
  destruct (Dropout_forward_shape p b s it m' w4 Hm') as (d & w5 & H5 & Hd).
  rewrite (bind_step _ _ _ _ _ H5).
  exact (Linear_forward_shape (Build_Linear (name +:+ ".wo") it hs ub) b s d w5 Hd).
Qed.

Lemma MlmLayer_forward_shape name hs vs nt eps ul ub x b s w :
  shape3 b s hs x ->
  exists y w',
    MlmLayer.forward (MlmLayer.init name hs vs nt eps ul ub) x w = (inr y, w') /\
    shape3 b s vs y.
Proof.
  intros Hx. unfold MlmLayer.forward, MlmLayer.init.
  cbn [MlmLayer.mlm_dense MlmLayer.use_mlm_layernorm MlmLayer.mlm_ln
       MlmLayer.to_logits].
  destruct (Linear_forward_shape (Build_Linear (name +:+ ".mlm_dense") hs hs ub)
              b s x w Hx) as (h & w1 & H1 & Hh).
  rewrite (bind_step _ _ _ _ _ H1). simpl out_features in Hh.
  assert (shape3 b s hs (map3 gelu h)) as Hg by (by apply shape3_map3).
  set (g := map3 gelu h) in *.
  assert (exists g' w2,
            (if ul
             then let* norm := attribute
                                 (if ul
                                  then Some (norm_cls nt ub (name +:+ ".mlm_ln") hs eps)
                                  else None) in
                  Norm_forward norm g
             else ret g) w1 = (inr g', w2) /\ shape3 b s hs g')
    as (g' & w2 & H2 & Hg').
  { destruct ul.
    - destruct (Norm_cls_forward_shape nt ub (name +:+ ".mlm_ln") hs eps
                  b s g w1 Hg) as (g' & w2 & H2 & Hg').
      exists g', w2. split; [|done]. exact H2.
    - exists g, w1. by split. }
  rewrite (bind_step _ _ _ _ _ H2).
  exact (Linear_forward_shape (Build_Linear (name +:+ ".to_logits") hs vs ub)
           b s g' w2 Hg').
Qed.

End LayerFacts.

Section TransformerLayerFacts.
Context `{E : Externals} `{K : !Kernels} {KL : KernelLaws K}.

Lemma TransformerLayer_init_inr name hs it nh ehsz aca hd ad nt eps un ub layer :
  TransformerLayer.init name hs it nh ehsz aca hd ad nt eps un ub = inr layer ->
  exists att,
    Attention.init (name +:+ ".attention") hs nh None ad ub = inr att /\
    TransformerLayer.attention layer = att /\
    TransformerLayer.use_normformer layer = un /\
    TransformerLayer.attn_layer_norm layer
      = norm_cls nt ub (name +:+ ".attn_layer_norm") hs eps /\
    TransformerLayer.post_attn_layer_norm layer
      = (if un then Some (norm_cls nt ub (name +:+ ".post_attn_layer_norm") hs eps)
         else None) /\
    TransformerLayer.ffn layer = FeedForward.init (name +:+ ".ffn") hs it hd nt eps un ub /\
    TransformerLayer.crossattn_layer_norm layer
      = (if aca then Some (norm_cls nt ub (name +:+ ".crossattn_layer_norm") hs eps)
         else None) /\
    TransformerLayer.post_crossattn_layer_norm layer
      = (if aca && un
         then Some (norm_cls nt ub (name +:+ ".post_crossattn_layer_norm") hs eps)
         else None) /\
    (if aca
     then exists catt,
            Attention.init (name +:+ ".crossattention") hs nh (Some ehsz) ad ub
              = inr catt /\
            TransformerLayer.crossattention layer = Some catt
     else TransformerLayer.crossattention layer = None).
Proof.
  unfold TransformerLayer.init, try.
  destruct (Attention.init (name +:+ ".attention") hs nh None ad ub) as [e|att];
    [discriminate|].
  unfold FeedForward.new, nn_Dropout, try.
  destruct (Qltb hd 0 || Qltb 1 hd); [discriminate|].
  destruct aca.
  - destruct (Attention.init (name +:+ ".crossattention") hs nh (Some ehsz) ad ub)
      as [e|catt]; [discriminate|].
    intros [= <-]. exists att. split_and!; try reflexivity. by exists catt.
  - intros [= <-]. exists att. split_and!; reflexivity.
Qed.

Lemma normformer_step nt ub name hs eps (un : bool) a b s w :
  shape3 b s hs a ->
  exists a' w',
    (if un
     then let* norm := attribute (if un then Some (norm_cls nt ub name hs eps) else None) in
          Norm_forward norm a
     else ret a) w = (inr a', w') /\ shape3 b s hs a'.
Proof.
  intros Ha. destruct un.
  - destruct (Norm_cls_forward_shape nt ub name hs eps b s a w Ha)
      as (a' & w' & H & Ha').
    exists a', w'. split; [|done]. exact H.
  - exists a, w. by split.
Qed.

(** A layer keeps the shape of [hidden_states]; encoder states need the
    cross attention that [add_cross_attention] builds, and without it the
    layer fails on its missing [crossattn_layer_norm]. *)
Lemma TransformerLayer_forward_shape name hs it nh ehsz aca hd ad nt eps un ub layer
    x e b s s' w :
  TransformerLayer.init name hs it nh ehsz aca hd ad nt eps un ub = inr layer ->
  (0 < b)%nat -> shape3 b s hs x ->
  match e with
  | Some c => aca = true /\ shape3 b s' ehsz c
  | None => True
  end ->
  exists y w', TransformerLayer.forward layer x e None w = (inr y, w') /\
    shape3 b s hs y.
Proof.
  intros Hinit Hb Hx He.
  apply TransformerLayer_init_inr in Hinit
    as (att & Hatt & Ha & Hun & Hn & Hpn & Hffn & Hcn & Hpcn & Hca).
  unfold TransformerLayer.forward. cbv zeta.
  rewrite Hn, Ha, Hun, Hpn, Hffn, Hcn, Hpcn.
  destruct (Norm_cls_forward_shape nt ub (name +:+ ".attn_layer_norm") hs eps
              b s x w Hx) as (h & w1 & H1 & Hh).
  rewrite (bind_step _ _ _ _ _ H1).
  destruct (Attention_forward_shape _ _ _ _ _ _ _ h None b s s w1 Hatt Hb Hh eq_refl)
    as (a & w2 & H2 & Has).
  rewrite (bind_step _ _ _ _ _ H2).
  destruct (normformer_step nt ub (name +:+ ".post_attn_layer_norm") hs eps un a b s w2
              Has) as (a' & w3 & H3 & Ha's).
  rewrite (bind_step _ _ _ _ _ H3).
  destruct (add_shape x a' b s hs w3 Hx Ha's) as (r & Hr & Hrs).
  rewrite (bind_step _ _ _ _ _ Hr).
  assert (exists h' w4,
            match e with
            | Some _ =>
                let* norm := attribute
                               (if aca
                                then Some (norm_cls nt ub (name +:+ ".crossattn_layer_norm")
                                             hs eps)
                                else None) in
                let* hidden_states := Norm_forward norm r in
                let* crossattention := attribute (TransformerLayer.crossattention layer) in
                let* attention_output :=
                  Attention.forward crossattention hidden_states e None in
                let* attention_output0 :=
                  if un
                  then
                    let* norm0 := attribute
                                    (if aca && un
                                     then Some (norm_cls nt ub
                                                  (name +:+ ".post_crossattn_layer_norm")
                                                  hs eps)
                                     else None) in
                    Norm_forward norm0 attention_output
                  else ret attention_output in
                lift (broadcast3 Qplus r attention_output0)
            | None => ret r
            end w3 = (inr h', w4) /\ shape3 b s hs h') as (h' & w4 & H4 & Hh').
  { destruct e as [c|]; [|by exists r, w3].
    destruct He as [-> Hc]. destruct Hca as (catt & Hcatt & Hca). rewrite Hca.
    cbn [andb].
    assert (attribute (Some (norm_cls nt ub (name +:+ ".crossattn_layer_norm") hs eps)) w3
            = (inr (norm_cls nt ub (name +:+ ".crossattn_layer_norm") hs eps), w3))
      as Hat by reflexivity.
    rewrite (bind_step _ _ _ _ _ Hat).
    destruct (Norm_cls_forward_shape nt ub (name +:+ ".crossattn_layer_norm") hs eps
                b s r w3 Hrs) as (n & wd & Hnn & Hns).
    rewrite (bind_step _ _ _ _ _ Hnn).
    assert (attribute (Some catt) wd = (inr catt, wd)) as Hat2 by reflexivity.
    rewrite (bind_step _ _ _ _ _ Hat2).
    destruct (Attention_forward_shape _ _ _ _ _ _ _ n (Some c) b s s' wd Hcatt Hb Hns Hc)
      as (ca & we & Hcafw & Hcas).
    rewrite (bind_step _ _ _ _ _ Hcafw).
    destruct (normformer_step nt ub (name +:+ ".post_crossattn_layer_norm") hs eps un
                ca b s we Hcas) as (ca' & wf & Hca' & Hca's).
    rewrite (bind_step _ _ _ _ _ Hca').
    destruct (add_shape r ca' b s hs wf Hrs Hca's) as (z & Hz & Hzs). eauto. }
  rewrite (bind_step _ _ _ _ _ H4).
  destruct (FeedForward_forward_shape (name +:+ ".ffn") hs it hd nt eps un ub h' b s w4 Hh')
    as (f & w5 & H5 & Hf).
  rewrite (bind_step _ _ _ _ _ H5).
  destruct (add_shape h' f b s hs w5 Hh' Hf) as (z & Hz & Hzs). eauto.
Qed.

Lemma TransformerLayer_forward_without_cross_attention
    name hs it nh ehsz hd ad nt eps un ub layer x c mask b s w :
  TransformerLayer.init name hs it nh ehsz false hd ad nt eps un ub = inr layer ->
  (0 < b)%nat -> shape3 b s hs x ->
  fst (TransformerLayer.forward layer x (Some c) mask w) = inl AttributeError.
Proof.
  intros Hinit Hb Hx.
  apply TransformerLayer_init_inr in Hinit
    as (att & Hatt & Ha & Hun & Hn & Hpn & Hffn & Hcn & Hpcn & Hca).
  unfold TransformerLayer.forward. cbv zeta.
  rewrite Hn, Ha, Hun, Hpn, Hffn, Hcn, Hpcn.
  destruct (Norm_cls_forward_shape nt ub (name +:+ ".attn_layer_norm") hs eps
              b s x w Hx) as (h & w1 & H1 & Hh).
  rewrite (bind_step _ _ _ _ _ H1).
  destruct (Attention_forward_shape _ _ _ _ _ _ _ h None b s s w1 Hatt Hb Hh eq_refl)
    as (a & w2 & H2 & Has).
  rewrite (bind_step _ _ _ _ _ H2).
  destruct (normformer_step nt ub (name +:+ ".post_attn_layer_norm") hs eps un a b s w2
              Has) as (a' & w3 & H3 & Ha's).
  rewrite (bind_step _ _ _ _ _ H3).
  destruct (add_shape x a' b s hs w3 Hx Ha's) as (r & Hr & Hrs).
  rewrite (bind_step _ _ _ _ _ Hr).
  reflexivity.
Qed.

End TransformerLayerFacts.

(** * [Embed.forward] *)

Lemma broadcast2_same_shape {A B C} (f : A -> B -> C) (x : list (list A))
    (y : list (list B)) s d :
  rect s d x -> rect s d y ->
  broadcast (broadcast (fun a b => inr (f a b))) x y
  = inr (zip_with (zip_with f) x y).
Proof.
  intros [Hxs Hxd] [Hys Hyd].
  rewrite broadcast_same_length by congruence.
  rewrite (mapM_e_total _ (fun p => zip_with f (fst p) (snd p))).
  { f_equal. clear. revert y. induction x as [|a x IH]; intros [|c y]; simpl; congruence. }
  apply Forall_forall. intros [vx vy] Hin. simpl.
  apply elem_of_zip_l in Hin as Hvx. apply elem_of_zip_r in Hin as Hvy.
  simpl in *.
  rewrite Forall_forall in Hxd. rewrite Forall_forall in Hyd.
  rewrite broadcast_same_length by (rewrite (Hxd vx), (Hyd vy); done).
  rewrite (mapM_e_total _ (fun p => f (fst p) (snd p))).
  { f_equal. clear. revert vy. induction vx as [|a x IH]; intros [|c y]; simpl; congruence. }
  by apply Forall_forall.
Qed.

Section EmbedFacts.

Lemma nn_Embedding_valid (W : list (list Q)) (ids : grid) V D :
  rect V D W -> all2 (in_table V) ids ->
  Embed.nn_Embedding W ids
  = inr (map (map (fun t => default [] (W !! Z.to_nat t))) ids).
Proof.
  intros [HV _] Hids. unfold Embed.nn_Embedding.
  apply mapM_e_total. eapply Forall_impl; [exact Hids|].
  intros row Hrow. simpl. apply mapM_e_total.
  eapply Forall_impl; [exact Hrow|]. intros t [H0 H1]. simpl.
  destruct (Z.ltb_spec t 0) as [|_]; [lia|].
  assert (Z.to_nat t < length W)%nat as Hlt by lia.
  apply lookup_lt_is_Some in Hlt as [row' ->]. done.
Qed.

Lemma nn_Embedding_invalid (W : list (list Q)) (ids : grid) V D :
  rect V D W -> Exists (Exists (fun t => ~ in_table V t)) ids ->
  Embed.nn_Embedding W ids = inl IndexError.
Proof.
  intros [HV _] Hex. unfold Embed.nn_Embedding.
  assert (forall t e', (if (t <? 0)%Z then inl IndexError
                        else match W !! Z.to_nat t with
                             | Some row => inr row
                             | None => inl IndexError
                             end) = inl e' -> e' = IndexError) as Hone.
  { intros t e'. destruct (t <? 0)%Z; [congruence|].
    destruct (W !! Z.to_nat t); congruence. }
  assert (forall row e',
            mapM_e (fun i : Z => if (i <? 0)%Z then inl IndexError
                                 else match W !! Z.to_nat i with
                                      | Some row => inr row
                                      | None => @inl exn (list Q) IndexError
                                      end) row = inl e' -> e' = IndexError) as Hrow.
  { induction row as [|t row IH]; simpl; intros e'; [discriminate|].
    unfold try at 1.
    destruct (if (t <? 0)%Z then _ else _) as [e1|r1] eqn:H1.
    - intros [= <-]. by apply (Hone t).
    - unfold try. destruct (mapM_e _ row) as [e2|r2]; [|discriminate].
      intros [= <-]. by apply IH. }
  apply mapM_e_fails.
  - apply Forall_forall. intros row _ e'. apply Hrow.
  - eapply Exists_impl; [exact Hex|]. intros row Hr. simpl in Hr.
    exists IndexError. apply mapM_e_fails.
    + apply Forall_forall. intros t _ e'. apply Hone.
    + eapply Exists_impl; [exact Hr|]. intros t Ht. simpl in Ht.
      destruct (Z.ltb_spec t 0) as [|H0]; [by eexists|].
      destruct (W !! Z.to_nat t) as [r|] eqn:Hl; [|by eexists].
      exfalso. apply Ht. apply lookup_lt_Some in Hl. unfold in_table. lia.
Qed.

End EmbedFacts.

Lemma valid_embedding_index_spec (cfg : config) (ids : grid) b s :
  rect b s ids -> (0 < b)%nat ->
  valid_embedding_index cfg ids = true <->
  all2 (in_table (vocab_size cfg)) ids /\ (s <= max_position_embeddings cfg)%nat.
Proof.
  intros [Hb Hs] Hb0. unfold valid_embedding_index.
  rewrite forallb_forall. split.
  - intros H. split.
    + apply Forall_forall. intros row Hrow.
      specialize (H row (proj1 (list_elem_of_In _ _) Hrow)).
      apply andb_true_iff in H as [H _]. rewrite forallb_forall in H.
      apply Forall_forall. intros t Ht.
      specialize (H t (proj1 (list_elem_of_In _ _) Ht)).
      apply andb_true_iff in H as [H0 H1]. unfold in_table. lia.
    + destruct ids as [|row ids]; simpl in *; [lia|].
      specialize (H row (or_introl eq_refl)).
      apply andb_true_iff in H as [_ H]. apply Nat.leb_le in H.
      inversion Hs; subst. done.
  - intros [Hv Hlen] row Hrow. apply list_elem_of_In in Hrow.
    rewrite Forall_forall in Hs. rewrite (Hs row Hrow).
    apply andb_true_iff. split; [|by apply Nat.leb_le].
    apply forallb_forall. intros t Ht. apply list_elem_of_In in Ht.
    unfold all2 in Hv. rewrite Forall_forall in Hv. specialize (Hv row Hrow).
    rewrite Forall_forall in Hv. specialize (Hv t Ht). unfold in_table in Hv.
    apply andb_true_iff. lia.
Qed.

Lemma Embed_forward_cases `{E : Externals} `{K : !Kernels}
    {KL : KernelLaws K} (cfg : config) name D H p nt eps ub (ids : grid) b s w :
  let em := Embed.init name (vocab_size cfg) D H p (max_position_embeddings cfg)
              nt eps ub false false in
  rect b s ids -> (0 < b)%nat ->
  (valid_embedding_index cfg ids = false ->
   Embed.forward em ids w = (inl IndexError, w)) /\
  (valid_embedding_index cfg ids = true ->
   exists X,
     Embed.forward em ids w = Dropout_forward p X w /\
     shape3 b s D X /\
     forall i j t, at2 ids i j = Some t ->
       exists wrow prow,
         Embed.word_embeddings em !! Z.to_nat t = Some wrow /\
         Embed.position_embeddings em !! j = Some prow /\
         at2 X i j = Some (zip_with Qplus wrow prow)).
Proof.
  intros em Hrect Hb.
  set (W := Embedding_weight (name +:+ ".word_embeddings") (vocab_size cfg) D).
  set (P := Embedding_weight (name +:+ ".position_embeddings")
              (max_position_embeddings cfg) D).
  assert (rect (vocab_size cfg) D W) as HW by apply Embedding_weight_shape.
  assert (rect (max_position_embeddings cfg) D P) as HP by apply Embedding_weight_shape.
  pose proof (valid_embedding_index_spec cfg ids b s Hrect Hb) as Hspec.
  assert (dim1 ids = s) as Hdim by (by apply (dim1_rect ids b s)).
  unfold Embed.forward. cbv zeta. rewrite Hdim.
  change (Embed.word_embeddings em) with W.
  change (Embed.position_embeddings em) with P.
  change (Embed.layer_norm_embedddings em) with false.
  change (Embed.use_embeddings_project em) with false.
  change (Embed.hidden_dropout em) with p. cbv iota.
  split.
  - intros Hinv.
    destruct (decide (all2 (in_table (vocab_size cfg)) ids)) as [Hall|Hnall].
    + (* the sequence is too long for the position table *)
      assert (max_position_embeddings cfg < s)%nat as Hlong.
      { destruct (Nat.le_gt_cases s (max_position_embeddings cfg)) as [Hle|]; [|done].
        rewrite (proj2 Hspec (conj Hall Hle)) in Hinv. discriminate. }
      rewrite (nn_Embedding_valid W ids _ _ HW Hall).
      rewrite (bind_step _ _ _ _ _ (lift_inr _ w)).
      rewrite (nn_Embedding_invalid P [seqZ 0 (Z.of_nat s)] _ _ HP); [reflexivity|].
      constructor. apply Exists_exists.
      exists (Z.of_nat (max_position_embeddings cfg)). split.
      * apply elem_of_seqZ. lia.
      * unfold in_table. lia.
    + rewrite (nn_Embedding_invalid W ids _ _ HW); [reflexivity|].
      apply not_Forall_Exists in Hnall; [|intros row; apply Forall_dec; intros t;
        unfold in_table; apply and_dec; apply Z_le_dec || apply Z_lt_dec].
      eapply Exists_impl; [exact Hnall|]. intros row Hrow. simpl in Hrow.
      apply not_Forall_Exists in Hrow; [done|]. intros t.
      unfold in_table. apply and_dec; [apply Z_le_dec | apply Z_lt_dec].
  - intros Hval. destruct (proj1 Hspec Hval) as [Hall Hle].
    rewrite (nn_Embedding_valid W ids _ _ HW Hall).
    rewrite (bind_step _ _ _ _ _ (lift_inr _ w)).
    rewrite (nn_Embedding_valid P [seqZ 0 (Z.of_nat s)] _ _ HP).
    2:{ constructor; [|constructor]. apply Forall_forall. intros t Ht.
        apply elem_of_seqZ in Ht. unfold in_table. lia. }
    rewrite (bind_step _ _ _ _ _ (lift_inr _ w)).
    set (word := map (map (fun t => default [] (W !! Z.to_nat t))) ids).
    set (posrow := map (fun t => default [] (P !! Z.to_nat t)) (seqZ 0 (Z.of_nat s))).
    assert (shape3 b s D word) as Hword.
    { split; [by apply rect_map2|]. apply all2_map2.
      eapply all2_impl; [exact Hall|]. intros t [H0 H1]. simpl.
      assert (Z.to_nat t < length W)%nat as Hlt by (destruct HW; lia).
      apply lookup_lt_is_Some in Hlt as [row Hrow]. rewrite Hrow. simpl.
      destruct HW as [_ HWd]. exact (Forall_lookup_1 _ _ _ _ HWd Hrow). }
    assert (rect s D posrow) as Hpos.
    { split; [unfold posrow; rewrite length_map, length_seqZ; lia|].
      apply Forall_map, Forall_forall. intros t Ht. simpl.
      apply elem_of_seqZ in Ht.
      assert (Z.to_nat t < length P)%nat as Hlt by (destruct HP; lia).
      apply lookup_lt_is_Some in Hlt as [row Hrow]. rewrite Hrow. simpl.
      destruct HP as [_ HPd]. exact (Forall_lookup_1 _ _ _ _ HPd Hrow). }
    set (X := map (fun a => zip_with (zip_with Qplus) a posrow) word).
    assert (broadcast3 Qplus word [posrow] = inr X) as HX.
    { unfold broadcast3. rewrite broadcast_singleton_r.
      apply mapM_e_total. destruct Hword as [[_ Hws] Hwd].
      apply Forall_forall. intros a Ha.
      apply (broadcast2_same_shape Qplus a posrow s D); [|done].
      split.
      - rewrite Forall_forall in Hws. by apply Hws.
      - unfold all2 in Hwd. rewrite Forall_forall in Hwd. by apply Hwd. }
    change (map (map (fun i : Z => default [] (P !! Z.to_nat i)))
              [seqZ 0 (Z.of_nat s)]) with [posrow].
    rewrite HX. rewrite (bind_step _ _ _ _ _ (lift_inr _ w)).
    exists X. split; [reflexivity|]. split.
    + destruct Hword as [[Hwb Hws] Hwd]. split; [split|].
      * unfold X. by rewrite length_map.
      * apply Forall_map, Forall_forall. intros a Ha. simpl.
        rewrite length_zip_with. rewrite Forall_forall in Hws.
        rewrite (Hws a Ha). destruct Hpos as [-> _]. lia.
      * apply Forall_map, Forall_forall. intros a Ha. simpl.
        unfold all2 in Hwd. rewrite Forall_forall in Hwd.
        apply Forall_zip_with2 with (P := fun ch => length ch = D)
          (Q := fun ch => length ch = D); [|by apply Hwd|by destruct Hpos].
        intros vx vy Hvx Hvy. rewrite length_zip_with. lia.
    + intros i j t Hij. unfold at2 in Hij. unfold grid in *.
      destruct (ids !! i) as [row|] eqn:Hrow; [|discriminate].
      assert (in_table (vocab_size cfg) t) as [H0 H1].
      { unfold all2 in Hall.
        exact (Forall_lookup_1 _ _ _ _ (Forall_lookup_1 _ _ _ _ Hall Hrow) Hij). }
      assert (Z.to_nat t < length W)%nat as Hlt by (destruct HW; lia).
      apply lookup_lt_is_Some in Hlt as [wrow Hwrow].
      assert (j < s)%nat as Hj.
      { destruct Hrect as [_ Hs]. rewrite <- (Forall_lookup_1 _ _ _ _ Hs Hrow).
        eapply lookup_lt_Some, Hij. }
      assert (j < length P)%nat as Hlt by (destruct HP; lia).
      apply lookup_lt_is_Some in Hlt as [prow Hprow].
      exists wrow, prow. split_and!; [done|done|].
      unfold at2, X, word.
      rewrite !list_lookup_map, Hrow. cbn [fmap option_fmap option_map].
      apply lookup_zip_with_Some. eexists _, _. split_and!; [reflexivity| |].
      * rewrite list_lookup_map, Hij. cbn [fmap option_fmap option_map].
        by rewrite Hwrow.
      * unfold posrow. rewrite list_lookup_map, lookup_seqZ_lt by lia.
        cbn [fmap option_fmap option_map]. rewrite Z.add_0_l, Nat2Z.id.
        by rewrite Hprow.
Qed.

(** Embedding.  For the [Embed] that the transformer builds (neither layer
    norm nor projection), on a grid of [b > 0] rows of [s] tokens:
    [forward] raises [IndexError] exactly when a token lies outside
    [0, vocab_size) or [s] exceeds [max_position_embeddings], which is what
    [valid_embedding_index] tests; otherwise the tensor it hands to dropout
    has shape (b, s, embedding_size) and holds, at row [i] and position
    [j], the word embedding of the token plus the embedding of position
    [j].  Nothing of this depends on the three arguments that the
    transformer passes in the wrong order. *)
Theorem embedding_is_word_plus_position `{E : Externals} `{K : !Kernels}
    {KL : KernelLaws K} (cfg : config) name D H p nt eps ub (ids : grid) b s w :
  let em := Embed.init name (vocab_size cfg) D H p (max_position_embeddings cfg)
              nt eps ub false false in
  rect b s ids -> (0 < b)%nat ->
  (valid_embedding_index cfg ids = false ->
   Embed.forward em ids w = (inl IndexError, w)) /\
  (valid_embedding_index cfg ids = true ->
   exists X,
     Embed.forward em ids w = Dropout_forward p X w /\
     shape3 b s D X /\
     forall i j t, at2 ids i j = Some t ->
       exists wrow prow,
         Embed.word_embeddings em !! Z.to_nat t = Some wrow /\
         Embed.position_embeddings em !! j = Some prow /\
         at2 X i j = Some (zip_with Qplus wrow prow)).
Proof.
  intros em. apply Embed_forward_cases.
Qed.

(** ** The small kernels keep their contracts *)

Lemma toy_kernel_laws : KernelLaws toy_kernels.
Proof.
  split.
  - intros l b s x w [Hr Ha]. eexists _, w. split; [reflexivity|].
    split; [by apply rect_map2|]. apply all2_map2.
    eapply all2_impl; [exact Ha|]. intros ch _. apply length_replicate.
  - intros n b s x w Hx. by exists x, w.
  - intros p b s d x w Hx. by exists x, w.
  - intros name n d. split.
    + cbn. by rewrite length_map, length_seq.
    + cbn. apply Forall_map, Forall_forall. intros i _. apply length_replicate.
  - intros nh hd p b s s' q k v w [Hq Hqs] _ _. eexists _, w.
    split; [reflexivity|]. split; [split|].
    + by rewrite length_map.
    + apply Forall_map. eapply Forall_impl; [exact Hqs|].
      intros t [[Ht _] _]. simpl. by rewrite length_map.
    + apply Forall_map. eapply Forall_impl; [exact Hqs|].
      intros t [[_ Ht] Hd]. simpl. apply Forall_map.
      unfold all2 in Hd. rewrite Forall_forall in Ht, Hd.
      apply Forall_forall. intros heads Hh. simpl.
      rewrite (length_concat_uniform hd heads) by (by apply Hd).
      by rewrite (Ht heads Hh).
  - intros r n. cbn. split; [apply length_replicate|].
    apply Forall_replicate. split; [discriminate|reflexivity].
Qed.

Lemma embedding_is_word_plus_position_witness :
  let ids : grid := [[5; 0; 2]; [1; 1; 7]]%Z in
  rect 2 3 ids /\
  valid_embedding_index toy_text_cfg ids = false /\
  Embed.forward (K := toy_kernels)
    (Embed.init (K := toy_kernels) "embed" 6 4 4 (1 # 10) 5 "layernorm" (1 # 100000)
       false false false) ids (Toy.world0 1)
  = (inl IndexError, (Toy.world0 1)).
Proof.
  split; [by repeat constructor|]. split; [reflexivity|].
  apply (embedding_is_word_plus_position (KL := toy_kernel_laws) toy_text_cfg
           "embed" 4 4 (1 # 10) "layernorm" (1 # 100000) false
           [[5; 0; 2]; [1; 1; 7]]%Z 2 3 (Toy.world0 1));
    [by repeat constructor | lia | reflexivity].
Defined.

(** ** [make_attention_mask] and [prob_mask_like] *)

Lemma Qeq_bool_one_minus (z : Q) : Qeq_bool (1 - z) 0 = Qeq_bool z 1.
Proof.
  destruct (Qeq_bool z 1) eqn:Hz.
  - apply Qeq_bool_iff in Hz. apply Qeq_bool_iff. rewrite Hz. reflexivity.
  - destruct (Qeq_bool (1 - z) 0) eqn:Hz'; [|done].
    apply Qeq_bool_iff in Hz'. rewrite <- Hz. symmetry. apply Qeq_bool_iff.
    rewrite <- (Qplus_0_l z), <- Hz'. ring.
Qed.

Lemma mapM_e_map {X A B C} (f : B -> X + C) (g : A -> B) (l : list A) :
  mapM_e f (map g l) = mapM_e (fun a => f (g a)) l.
Proof. induction l as [|a l IH]; simpl; [done|]. by rewrite IH. Qed.

Lemma broadcast_outer {A B C} (f : A -> B -> C) (qrow : list A) (krow : list B) :
  broadcast (broadcast (fun a b => inr (f a b)))
    (map (fun x => [x]) qrow) [krow]
  = inr (map (fun x => map (f x) krow) qrow).
Proof.
  rewrite broadcast_singleton_r, mapM_e_map.
  apply mapM_e_total, Forall_forall. intros x _.
  rewrite broadcast_singleton_l. apply mapM_e_total, Forall_forall. done.
Qed.

(** Attention mask.  For a query mask of shape (b, lq) and a key mask of
    shape (b, lk), [make_attention_mask] returns a boolean tensor of shape
    (b, 1, lq, lk) whose entry at (i, 0, j, l) is [True] exactly when
    [pairwise_fn] of the two mask entries differs from 1: with the default
    product of 0/1 masks, [True] marks the pairs in which a padded position
    takes part. *)
Theorem attention_mask_marks_the_pairs_off_one
    (query_input key_input : list (list Q)) (pairwise_fn : Q -> Q -> Q) b lq lk :
  rect b lq query_input -> rect b lk key_input ->
  exists m,
    make_attention_mask query_input key_input pairwise_fn = inr m /\
    shape4 b 1 lq lk m /\
    forall i j l x y,
      at2 query_input i j = Some x -> at2 key_input i l = Some y ->
      at4 m i 0 j l = Some (negb (Qeq_bool (pairwise_fn x y) 1)).
Proof.
  intros [Hqb Hqs] [Hkb Hks].
  set (prod := zip_with (fun qrow krow =>
                 map (fun x => map (pairwise_fn x) krow) qrow) query_input key_input).
  assert (broadcast3 pairwise_fn (map (map (fun x => [x])) query_input)
            (map (fun row => [row]) key_input) = inr prod) as Hprod.
  { unfold broadcast3. rewrite broadcast_same_length
      by (rewrite !length_map; congruence).
    unfold prod. clear.
    revert key_input. induction query_input as [|qrow q IH]; intros [|krow k];
      simpl; try done.
    rewrite broadcast_outer. cbn. by rewrite IH. }
  unfold make_attention_mask. rewrite Hprod. cbn.
  eexists. split; [reflexivity|]. split.
  - split; [rewrite !length_map; unfold prod; rewrite length_zip_with; lia|].
    rewrite !Forall_map. unfold prod. apply Forall_forall. intros plane Hplane.
    apply elem_of_lookup_zip_with in Hplane as (i & qrow & krow & -> & Hq & Hk).
    rewrite Forall_forall in Hqs, Hks.
    pose proof (Hqs _ (list_elem_of_lookup_2 _ _ _ Hq)) as Hlq.
    pose proof (Hks _ (list_elem_of_lookup_2 _ _ _ Hk)) as Hlk.
    cbn. split; [split|].
    + done.
    + repeat constructor. by rewrite !length_map.
    + repeat constructor. rewrite !Forall_map. apply Forall_forall.
      intros x _. cbn. by rewrite !length_map.
  - intros i j l x y Hx Hy. unfold at2 in Hx, Hy.
    destruct (query_input !! i) as [qrow|] eqn:Hq; [|discriminate].
    destruct (key_input !! i) as [krow|] eqn:Hk; [|discriminate].
    unfold at4, entry3, at2. rewrite !list_lookup_map. unfold prod.
    rewrite lookup_zip_with, Hq, Hk. cbn.
    rewrite !list_lookup_map, Hx. cbn. rewrite !list_lookup_map, Hy. cbn.
    by rewrite Qeq_bool_one_minus.
Qed.

Lemma attention_mask_marks_the_pairs_off_one_witness :
  exists m,
    make_attention_mask [[1; 1]; [1; 1]]%Q [[1; 1; 0]; [1; 0; 0]]%Q Qmult = inr m /\
    shape4 2 1 2 3 m /\
    at4 m 0 0 1 2 = Some true /\ at4 m 0 0 1 1 = Some false.
Proof.
  destruct (attention_mask_marks_the_pairs_off_one
              [[1; 1]; [1; 1]]%Q [[1; 1; 0]; [1; 0; 0]]%Q Qmult 2 2 3)
    as (m & Hm & Hs & He); [by repeat constructor | by repeat constructor |].
  exists m. split_and!; [exact Hm | exact Hs | |].
  - exact (He 0%nat 1%nat 2%nat 1%Q 0%Q eq_refl eq_refl).
  - exact (He 0%nat 1%nat 1%nat 1%Q 1%Q eq_refl eq_refl).
Defined.

(** Condition-dropout mask.  [prob_mask_like(shape, prob)] always returns
    one boolean per element of [shape] and touches neither the tensors nor
    the forward passes.  For [prob >= 1] every entry is [True], for
    [prob <= 0] every entry is [False]; at exactly 0 and 1 the random
    generator is not consulted. *)
Theorem prob_mask_like_extremes `{E : Externals} `{K : !Kernels}
    {KL : KernelLaws K} (shape : list nat) (prob : Q) (w : world) :
  exists m w',
    prob_mask_like shape prob w = (inr m, w') /\
    length m = foldr Nat.mul 1%nat shape /\
    tensors w' = tensors w /\ passes w' = passes w /\
    (1 <= prob -> Forall (eq true) m)%Q /\
    (prob <= 0 -> Forall (eq false) m)%Q /\
    (prob == 0 \/ prob == 1 -> w' = w)%Q.
Proof.
  unfold prob_mask_like.
  destruct (Qeq_bool prob 1) eqn:H1.
  { apply Qeq_bool_iff in H1. eexists _, w. split; [reflexivity|].
    split_and!; try done.
    - apply length_replicate.
    - intros _. by apply Forall_replicate.
    - intros H0. rewrite H1 in H0. by destruct H0. }
  destruct (Qeq_bool prob 0) eqn:H0.
  { apply Qeq_bool_iff in H0. eexists _, w. split; [reflexivity|].
    split_and!; try done.
    - apply length_replicate.
    - intros Hp. rewrite H0 in Hp. by destruct Hp.
    - intros _. by apply Forall_replicate. }
  destruct (uniform_range (ambient w) (foldr Nat.mul 1%nat shape)) as [Hlen Hrange].
  eexists _, _. split; [reflexivity|]. split_and!; try done.
  - by rewrite length_map.
  - intros Hp. apply Forall_map. eapply Forall_impl; [exact Hrange|].
    intros u [_ Hu]. simpl. unfold Qltb. symmetry. apply negb_true_iff.
    destruct (Qle_bool prob u) eqn:Hle; [|done].
    apply Qle_bool_iff in Hle. exfalso.
    apply (Qlt_irrefl u). eapply Qlt_le_trans; [exact Hu|].
    by apply Qle_trans with prob.
  - intros Hp. apply Forall_map. eapply Forall_impl; [exact Hrange|].
    intros u [Hu _]. simpl. unfold Qltb. symmetry. apply negb_false_iff.
    apply Qle_bool_iff. by apply Qle_trans with 0%Q.
  - intros [Hp|Hp]; apply Qeq_bool_iff in Hp; congruence.
Qed.

Lemma prob_mask_like_extremes_witness :
  fst (prob_mask_like (K := toy_kernels) [2; 1; 1]%nat (3 # 2) (Toy.world0 1))
  = inr [true; true].
Proof.
  destruct (prob_mask_like_extremes (KL := toy_kernel_laws) [2; 1; 1]%nat (3 # 2)
              (Toy.world0 1)) as (m & w' & Hm & _).
  rewrite Hm. vm_compute in Hm. by injection Hm as <- _.
Defined.

(** ** Building the model *)

Lemma nn_Dropout_cases (p : Q) :
  ((0 <= p <= 1)%Q -> nn_Dropout p = inr p) /\
  (~ (0 <= p <= 1)%Q -> nn_Dropout p = inl (Builtin ValueError)).
Proof.
  unfold nn_Dropout, Qltb.
  destruct (Qle_bool 0 p) eqn:H0; destruct (Qle_bool p 1) eqn:H1; simpl; split;
    intros H; try reflexivity.
  - exfalso. apply H. split; by apply Qle_bool_iff.
  - exfalso. destruct H as [_ H]. apply Qle_bool_iff in H. congruence.
  - exfalso. destruct H as [H _]. apply Qle_bool_iff in H. congruence.
  - exfalso. destruct H as [H _]. apply Qle_bool_iff in H. congruence.
Qed.

Lemma Attention_init_outcome name hs nh ehs p ub :
  (nh = 0%nat -> Attention.init name hs nh ehs p ub = inl ZeroDivisionError) /\
  (nh <> 0%nat -> (hs mod nh <> 0)%nat \/ ~ (0 <= p <= 1)%Q ->
   Attention.init name hs nh ehs p ub = inl (Builtin ValueError)) /\
  (nh <> 0%nat -> (hs mod nh = 0)%nat -> (0 <= p <= 1)%Q ->
   exists att, Attention.init name hs nh ehs p ub = inr att).
Proof.
  unfold Attention.init. split_and!.
  - intros ->. reflexivity.
  - intros Hnh Hbad. destruct (Nat.eqb_spec nh 0); [done|].
    destruct (Nat.eqb_spec (hs / nh * nh) hs) as [Heq|]; [|done].
    destruct Hbad as [Hmod|Hp].
    + exfalso. apply Hmod. apply Nat.Div0.div_exact. lia.
    + cbn [negb]. by rewrite (proj2 (nn_Dropout_cases p) Hp).
  - intros Hnh Hmod Hp. destruct (Nat.eqb_spec nh 0); [done|].
    destruct (Nat.eqb_spec (hs / nh * nh) hs) as [|Hne].
    + cbn [negb]. rewrite (proj1 (nn_Dropout_cases p) Hp). by eexists.
    + exfalso. apply Hne. apply Nat.Div0.div_exact in Hmod. lia.
Qed.

Lemma TransformerLayer_init_outcome name hs it nh ehsz aca hd ad nt eps un ub :
  (0 <= hd <= 1)%Q ->
  (nh = 0%nat ->
   TransformerLayer.init name hs it nh ehsz aca hd ad nt eps un ub
   = inl ZeroDivisionError) /\
  (nh <> 0%nat -> (hs mod nh <> 0)%nat \/ ~ (0 <= ad <= 1)%Q ->
   TransformerLayer.init name hs it nh ehsz aca hd ad nt eps un ub
   = inl (Builtin ValueError)) /\
  (nh <> 0%nat -> (hs mod nh = 0)%nat -> (0 <= ad <= 1)%Q ->
   exists layer,
     TransformerLayer.init name hs it nh ehsz aca hd ad nt eps un ub = inr layer /\
     (is_Some (TransformerLayer.crossattention layer) <-> aca = true)).
Proof.
  intros Hhd. unfold TransformerLayer.init. split_and!.
  - intros Hnh.
    by rewrite (proj1 (Attention_init_outcome _ hs nh None ad ub) Hnh).
  - intros Hnh Hbad.
    by rewrite (proj1 (proj2 (Attention_init_outcome _ hs nh None ad ub)) Hnh Hbad).
  - intros Hnh Hmod Had.
    destruct (proj2 (proj2 (Attention_init_outcome (name +:+ ".attention")
                hs nh None ad ub)) Hnh Hmod Had) as [att ->].
    cbn [try]. unfold FeedForward.new.
    rewrite (proj1 (nn_Dropout_cases hd) Hhd). cbn [try]. destruct aca.
    + destruct (proj2 (proj2 (Attention_init_outcome (name +:+ ".crossattention")
                  hs nh (Some ehsz) ad ub)) Hnh Hmod Had) as [catt ->].
      cbn. eexists. split; [reflexivity|]. cbn. split; [done|by eexists].
    + cbn. eexists. split; [reflexivity|]. cbn.
      split; [by intros [? ?]|done].
Qed.

Lemma mapM_e_head_fails {X A B} (f : A -> X + B) a l e :
  f a = inl e -> mapM_e f (a :: l) = inl e.
Proof. intros H. simpl. by rewrite H. Qed.

Lemma mapM_e_Forall {X A B} (f : A -> X + B) (P : B -> Prop) (l : list A) :
  Forall (fun a => exists b, f a = inr b /\ P b) l ->
  exists r, mapM_e f l = inr r /\ length r = length l /\ Forall P r.
Proof.
  induction 1 as [|a l (b & Hb & HP) _ (r & Hr & Hlen & HF)]; simpl.
  - by exists [].
  - rewrite Hb, Hr. cbn. exists (b :: r). split_and!; [done|simpl; lia|by constructor].
Qed.

(** Constructor.  [MaskGitTransformer(...)] raises, in this order:
    [ValueError] for a [hidden_dropout] outside [0, 1]; [TypeError] when
    [project_encoder_hidden_states] is set; with at least one layer,
    [ZeroDivisionError] for zero attention heads and [ValueError] when the
    heads do not divide [hidden_size] or [attention_dropout] lies outside
    [0, 1]; and the exception of [trunc_normal_] at
    [std=initializer_range], if it raises one.  Otherwise it returns a model
    that keeps its arguments as configuration, has [num_hidden_layers]
    layers, each with a cross attention exactly when [add_cross_attention]
    is set, no encoder projection, and either an [mlm_layer] or a
    [to_logits] layer, never both; gradient checkpointing is off. *)
Theorem constructor_outcomes `{E : Externals} `{K : !Kernels}
    (a : MaskGitTransformer.arguments) :
  let nh := MaskGitTransformer.num_attention_heads a in
  let hs := MaskGitTransformer.hidden_size a in
  let n := MaskGitTransformer.num_hidden_layers a in
  let hd := MaskGitTransformer.hidden_dropout a in
  let ad := MaskGitTransformer.attention_dropout a in
  (~ (0 <= hd <= 1)%Q ->
   MaskGitTransformer.init a = inl (Builtin ValueError)) /\
  ((0 <= hd <= 1)%Q ->
   (MaskGitTransformer.project_encoder_hidden_states a = true ->
    MaskGitTransformer.init a = inl (Builtin TypeError)) /\
   (MaskGitTransformer.project_encoder_hidden_states a = false ->
    (0 < n)%nat -> nh = 0%nat ->
    MaskGitTransformer.init a = inl ZeroDivisionError) /\
   (MaskGitTransformer.project_encoder_hidden_states a = false ->
    (0 < n)%nat -> nh <> 0%nat ->
    (hs mod nh <> 0)%nat \/ ~ (0 <= ad <= 1)%Q ->
    MaskGitTransformer.init a = inl (Builtin ValueError)) /\
   (MaskGitTransformer.project_encoder_hidden_states a = false ->
    n = 0%nat \/ (nh <> 0%nat /\ (hs mod nh = 0)%nat /\ (0 <= ad <= 1)%Q) ->
    (forall e,
       trunc_normal_ (MaskGitTransformer.initializer_range a) = inl e ->
       MaskGitTransformer.init a = inl e) /\
    (trunc_normal_ (MaskGitTransformer.initializer_range a) = inr tt ->
     exists m,
       MaskGitTransformer.init a = inr m /\
       MaskGitTransformer.config m = a /\
       length (MaskGitTransformer.transformer_layers m) = n /\
       Forall (fun layer =>
                 is_Some (TransformerLayer.crossattention layer) <->
                 MaskGitTransformer.add_cross_attention a = true)
              (MaskGitTransformer.transformer_layers m) /\
       MaskGitTransformer.encoder_proj m = None /\
       (is_Some (MaskGitTransformer.mlm_layer m) <->
        MaskGitTransformer.use_mlm_layer a = true) /\
       (is_Some (MaskGitTransformer.to_logits m) <->
        MaskGitTransformer.use_mlm_layer a = false) /\
       MaskGitTransformer.gradient_checkpointing m = false))).
Proof.
  intros nh hs n hd ad. unfold MaskGitTransformer.init, Embed.new.
  fold n nh hs hd ad. split.
  { intros Hhd. by rewrite (proj2 (nn_Dropout_cases hd) Hhd). }
  intros Hhd. rewrite (proj1 (nn_Dropout_cases hd) Hhd). cbn [try].
  split_and!.
  - intros ->. reflexivity.
  - intros -> Hn Hnh. cbn [try].
    destruct n as [|n']; [lia|]. cbn [seq].
    erewrite mapM_e_head_fails; [reflexivity|].
    by apply TransformerLayer_init_outcome.
  - intros -> Hn Hnh Hbad. cbn [try].
    destruct n as [|n']; [lia|]. cbn [seq].
    erewrite mapM_e_head_fails; [reflexivity|].
    by apply TransformerLayer_init_outcome.
  - intros -> Hok. cbn [try].
    match goal with
    | |- context [mapM_e ?f (seq 0 n)] =>
        destruct (mapM_e_Forall f
          (fun layer => is_Some (TransformerLayer.crossattention layer) <->
                        MaskGitTransformer.add_cross_attention a = true)
          (seq 0 n)) as (layers & Hl & Hlen & HF)
    end.
    { destruct Hok as [->|(Hnh & Hmod & Had)]; [constructor|].
      apply Forall_forall. intros i _.
      by apply TransformerLayer_init_outcome. }
    rewrite Hl. cbn [try]. unfold MaskGitTransformer._init_weights.
    cbn [MaskGitTransformer.config]. split.
    + intros e ->. reflexivity.
    + intros ->. cbn [try]. eexists. split; [reflexivity|].
      cbn. rewrite length_seq in Hlen. split_and!; try done.
      * destruct (MaskGitTransformer.use_mlm_layer a); split;
          first [done | by eexists | by intros [? ?]].
      * destruct (MaskGitTransformer.use_mlm_layer a); split;
          first [done | by eexists | by intros [? ?]].
Qed.

(** The small model is built; three heads do not divide a hidden size of
    4; and with two heads the small [trunc_normal_] raises at
    [initializer_range = 0]. *)
Lemma constructor_outcomes_witness :
  let arguments heads :=
    {| MaskGitTransformer.vocab_size := 6;
       MaskGitTransformer.hidden_size := 4;
       MaskGitTransformer.num_hidden_layers := 1;
       MaskGitTransformer.num_attention_heads := heads;
       MaskGitTransformer.intermediate_size := 8;
       MaskGitTransformer.hidden_dropout := 0;
       MaskGitTransformer.attention_dropout := 0;
       MaskGitTransformer.max_position_embeddings := 5;
       MaskGitTransformer.add_cross_attention := false;
       MaskGitTransformer.encoder_hidden_size := 3;
       MaskGitTransformer.project_encoder_hidden_states := false;
       MaskGitTransformer.initializer_range := 0;
       MaskGitTransformer.norm_type := "rmsnorm";
       MaskGitTransformer.layer_norm_eps := 1 # 100000;
       MaskGitTransformer.use_normformer := true;
       MaskGitTransformer.use_encoder_layernorm := true;
       MaskGitTransformer.use_mlm_layer := true;
       MaskGitTransformer.use_mlm_layernorm := true;
       MaskGitTransformer.use_bias := false;
       MaskGitTransformer.codebook_size := 3;
       MaskGitTransformer.num_vq_tokens := 4;
       MaskGitTransformer.num_classes := None |} in
  (exists m, MaskGitTransformer.init (K := toy_kernels) toy_arguments = inr m /\
     length (MaskGitTransformer.transformer_layers m) = 2%nat) /\
  MaskGitTransformer.init (K := toy_kernels) (arguments 3%nat)
  = inl (Builtin ValueError) /\
  MaskGitTransformer.init (K := toy_kernels) (arguments 2%nat)
  = inl ZeroDivisionError.
Proof.
  intros arguments. split_and!.
  - destruct (constructor_outcomes (K := toy_kernels) toy_arguments)
      as (_ & Hok).
    destruct Hok as (_ & _ & _ & Hok); [by split|].
    destruct (Hok eq_refl) as (_ & Hm).
    + right. by split_and!.
    + destruct (Hm eq_refl) as (m & Hm' & _ & Hlen & _). by exists m.
  - destruct (constructor_outcomes (K := toy_kernels) (arguments 3%nat))
      as (_ & Hok).
    destruct Hok as (_ & _ & Hv & _); [by split|].
    apply Hv; [reflexivity | cbn; lia | discriminate | left; discriminate].
  - destruct (constructor_outcomes (K := toy_kernels) (arguments 2%nat))
      as (_ & Hok).
    destruct Hok as (_ & _ & _ & Hok); [by split|].
    destruct (Hok eq_refl) as (Hfail & _).
    + right. by split_and!.
    + by apply Hfail.
Defined.

(** ** Attention masks *)

Section MaskFacts.
Context `{E : Externals} `{K : !Kernels} {KL : KernelLaws K}.

Lemma Attention_forward_mask name hs nh ehs p ub self x e mask b s s' w :
  Attention.init name hs nh ehs p ub = inr self ->
  (0 < b)%nat ->
  shape3 b s hs x ->
  match e with
  | Some c => shape3 b s' (default hs ehs) c
  | None => ehs = None
  end ->
  fst (Attention.forward self x e (Some mask) w) = inl TypeError.
Proof.
  intros Hinit Hb Hx He.
  apply Attention_init_inr in Hinit as (-> & Hnh & Hdiv).
  unfold Attention.forward. cbn [Attention.use_memory_efficient_attention_xformers
    Attention.query Attention.key Attention.value Attention.out Attention.num_heads
    Attention.head_dim Attention.hidden_size Attention.dropout].
  rewrite andb_false_r.
  assert (length x = b) as Hlen by (by destruct Hx as [[? ?] ?]).
  rewrite Hlen, (dim1_rect x b s) by (by destruct Hx).
  set (ctx := default x e).
  match goal with
  | |- context [Attention.view4 b ?n nh _ _] =>
      lazymatch n with s => fail | _ => set (kv := n) end
  end.
  assert (exists s2, shape3 b s2 (default hs ehs) ctx /\ kv = s2) as (s2 & Hctx & Hkv).
  { unfold ctx, kv. destruct e as [c|]; simpl.
    - exists s'. split; [done|]. apply (dim1_rect c b s'); [by destruct He | done].
    - subst ehs. simpl. eauto. }
  rewrite Hkv.
  destruct (Linear_forward_shape (Build_Linear (name +:+ ".query") hs hs ub)
              b s x w Hx) as (q & w1 & Hq & Hqs).
  rewrite (bind_step _ _ _ _ _ Hq).
  destruct (Linear_forward_shape (Build_Linear (name +:+ ".key") (default hs ehs) hs ub)
              b s2 ctx w1 Hctx) as (k & w2 & Hk & Hks).
  rewrite (bind_step _ _ _ _ _ Hk).
  destruct (Linear_forward_shape (Build_Linear (name +:+ ".value") (default hs ehs) hs ub)
              b s2 ctx w2 Hctx) as (v & w3 & Hv & Hvs).
  rewrite (bind_step _ _ _ _ _ Hv).
  simpl out_features in *. rewrite <- Hdiv in Hqs, Hks, Hvs.
  destruct (view4_shape q b s nh (hs / nh) Hqs) as (q4 & Hq4 & Hq4s).
  destruct (view4_shape k b s2 nh (hs / nh) Hks) as (k4 & Hk4 & Hk4s).
  destruct (view4_shape v b s2 nh (hs / nh) Hvs) as (v4 & Hv4 & Hv4s).
  rewrite Hq4. rewrite (bind_step _ _ _ _ _ (lift_inr q4 w3)).
  rewrite Hk4. rewrite (bind_step _ _ _ _ _ (lift_inr k4 w3)).
  rewrite Hv4. rewrite (bind_step _ _ _ _ _ (lift_inr v4 w3)).
  reflexivity.
Qed.

Lemma Attention_forward_mask_fails (self : Attention.t) x e mask w :
  exists err, fst (Attention.forward self x e (Some mask) w) = inl err.
Proof.
  unfold Attention.forward.
  destruct (Attention.use_memory_efficient_attention_xformers self).
  { rewrite bool_decide_eq_true_2 by eauto. by exists ValueError. }
  rewrite andb_false_r. cbv zeta.
  replace (binds make_attention_mask_parameters false ["dtype"%string]) with false
    by (vm_compute; reflexivity).
  unfold bind.
  repeat match goal with
         | |- context [match ?m ?w0 with pair _ _ => _ end] =>
             lazymatch m with
             | raise _ => fail
             | _ => destruct (m w0) as [[?|?] ?]; [by eexists|]
             end
         end.
  by exists TypeError.
Qed.

End MaskFacts.

(** Attention masks.  [Attention.forward] never returns when it is given an
    [encoder_attention_mask]: with memory efficient attention switched on
    it raises [ValueError] at once, and otherwise, on an attention built by
    [__init__] and inputs of fitting shapes, it raises [TypeError], because
    [make_attention_mask] is called with a keyword [dtype] that it does not
    have. *)
Theorem attention_never_accepts_a_mask `{E : Externals} `{K : !Kernels}
    {KL : KernelLaws K} (self : Attention.t) (x : cond) (e : option cond)
    (mask : list (list Q)) (w : world) :
  (exists err, fst (Attention.forward self x e (Some mask) w) = inl err) /\
  (Attention.use_memory_efficient_attention_xformers self = true ->
   Attention.forward self x e (Some mask) w = (inl ValueError, w)) /\
  (forall name hs nh ehs p ub b s s',
     Attention.init name hs nh ehs p ub = inr self ->
     (0 < b)%nat -> shape3 b s hs x ->
     match e with
     | Some c => shape3 b s' (default hs ehs) c
     | None => ehs = None
     end ->
     fst (Attention.forward self x e (Some mask) w) = inl TypeError).
Proof.
  split_and!.
  - apply Attention_forward_mask_fails.
  - intros Hx. unfold Attention.forward. rewrite Hx.
    by rewrite bool_decide_eq_true_2 by eauto.
  - intros name hs nh ehs p ub b s s' Hinit Hb Hx He.
    by apply (Attention_forward_mask name hs nh ehs p ub self x e mask b s s').
Qed.

Lemma attention_never_accepts_a_mask_witness :
  exists self,
    Attention.init "crossattention" 4 2 (Some 3%nat) 0 false = inr self /\
    fst (Attention.forward (K := toy_kernels) self
           [[[1; 2; 3; 4]; [5; 6; 7; 8]]]%Q (Some [[[1; 0; 1]]]%Q)
           (Some [[1]]%Q) (Toy.world0 1))
    = inl TypeError.
Proof.
  eexists. split; [reflexivity|].
  refine (proj2 (proj2 (attention_never_accepts_a_mask (KL := toy_kernel_laws)
            _ _ _ _ _)) "crossattention"%string 4 2 (Some 3) 0%Q false 1 2 1
            eq_refl _ _ _)%nat.
  - lia.
  - by repeat constructor.
  - by repeat constructor.
Defined.

(** ** [MaskGitTransformer.forward] *)

Lemma mapM_e_inr_Forall {X A B} (f : A -> X + B) (l : list A) (r : list B) :
  mapM_e f l = inr r -> Forall (fun b => exists a, f a = inr b) r.
Proof.
  intros H. apply mapM_e_inr in H.
  induction H as [|a b l r Hab _ IH]; constructor; eauto.
Qed.

Lemma broadcast3_rows {A B C} (f : A -> B -> C) (e : list (list (list A)))
    (mask : list B) :
  length mask = length e ->
  broadcast3 f e (map (fun m => [[m]]) mask)
  = inr (zip_with (fun plane m => map (map (fun x => f x m)) plane) e mask).
Proof.
  intros Hlen. unfold broadcast3.
  rewrite broadcast_same_length by (by rewrite length_map).
  revert mask Hlen. induction e as [|plane e IH]; intros [|m mask] Hlen;
    simpl in *; try done.
  rewrite broadcast_singleton_r.
  rewrite (mapM_e_total _ (map (fun x => f x m))).
  - cbn. rewrite IH by lia. reflexivity.
  - apply Forall_forall. intros row _. rewrite broadcast_singleton_r.
    apply mapM_e_total, Forall_forall. done.
Qed.

Lemma shape3_rows {A B C} (f : A -> B -> C) (e : list (list (list A)))
    (mask : list B) b s d :
  length mask = length e -> shape3 b s d e ->
  shape3 b s d (zip_with (fun plane m => map (map (fun x => f x m)) plane) e mask).
Proof.
  intros Hlen [[Hb Hs] Hd]. split; [split|].
  - rewrite length_zip_with. lia.
  - apply Forall_forall. intros p Hp.
    apply elem_of_lookup_zip_with in Hp as (i & plane & m & -> & Hpl & _).
    rewrite length_map. exact (Forall_lookup_1 _ _ _ _ Hs Hpl).
  - apply Forall_forall. intros p Hp.
    apply elem_of_lookup_zip_with in Hp as (i & plane & m & -> & Hpl & _).
    apply Forall_map. unfold all2 in Hd.
    pose proof (Forall_lookup_1 _ _ _ _ Hd Hpl) as Hplane.
    eapply Forall_impl; [exact Hplane|]. intros row Hrow. simpl.
    by rewrite length_map.
Qed.

Section ModelFacts.
Context `{E : Externals} `{K : !Kernels} {KL : KernelLaws K}.

Lemma prob_mask_like_returns (shape : list nat) (prob : Q) (w : world) :
  exists m w', prob_mask_like shape prob w = (inr m, w') /\
    length m = foldr Nat.mul 1%nat shape.
Proof.
  unfold prob_mask_like.
  destruct (Qeq_bool prob 1); [|destruct (Qeq_bool prob 0)].
  - eexists _, _. split; [reflexivity|]. apply length_replicate.
  - eexists _, _. split; [reflexivity|]. apply length_replicate.
  - eexists _, _. split; [reflexivity|]. rewrite length_map.
    apply uniform_range.
Qed.

Lemma cond_dropout_step (training : bool) (cond_dropout_prob : Q) (e : cond) w :
  exists e' w',
    (if training && Qltb 0 cond_dropout_prob then
       let batch_size := length e in
       let* mask := prob_mask_like [batch_size; 1; 1]%nat (1 - cond_dropout_prob) in
       let* e := lift (broadcast3 (fun x (m : bool) => if m then x else 0%Q) e
                         (map (fun m => [[m]]) mask)) in
       ret (Some e)
     else ret (Some e)) w = (inr (Some e'), w') /\
    forall b s d, shape3 b s d e -> shape3 b s d e'.
Proof.
  destruct (training && Qltb 0 cond_dropout_prob); [|by exists e, w].
  cbv zeta.
  destruct (prob_mask_like_returns [length e; 1; 1]%nat (1 - cond_dropout_prob) w)
    as (mask & w' & Hm & Hlen).
  rewrite (bind_step _ _ _ _ _ Hm).
  assert (length mask = length e) as Hl by (simpl in Hlen; lia).
  rewrite broadcast3_rows by done.
  rewrite (bind_step _ _ _ _ _ (lift_inr _ w')).
  eexists _, w'. split; [reflexivity|].
  intros b s d. by apply shape3_rows.
Qed.

Lemma MaskGitTransformer_init_inr (a : MaskGitTransformer.arguments) m :
  MaskGitTransformer.init a = inr m ->
  MaskGitTransformer.project_encoder_hidden_states a = false /\
  exists layers,
    mapM_e (fun i =>
              TransformerLayer.init ("transformer_layers." +:+ pretty i)
                (MaskGitTransformer.hidden_size a)
                (MaskGitTransformer.intermediate_size a)
                (MaskGitTransformer.num_attention_heads a)
                (MaskGitTransformer.encoder_hidden_size a)
                (MaskGitTransformer.add_cross_attention a)
                (MaskGitTransformer.hidden_dropout a)
                (MaskGitTransformer.attention_dropout a)
                (MaskGitTransformer.norm_type a)
                (MaskGitTransformer.layer_norm_eps a)
                (MaskGitTransformer.use_normformer a)
                (MaskGitTransformer.use_bias a))
           (seq 0 (MaskGitTransformer.num_hidden_layers a)) = inr layers /\
    MaskGitTransformer.config m = a /\
    MaskGitTransformer.embed m
    = Embed.init "embed" (MaskGitTransformer.vocab_size a)
        (MaskGitTransformer.hidden_size a) (MaskGitTransformer.hidden_size a)
        (MaskGitTransformer.hidden_dropout a)
        (MaskGitTransformer.max_position_embeddings a)
        (MaskGitTransformer.norm_type a) (MaskGitTransformer.layer_norm_eps a)
        (MaskGitTransformer.use_bias a) false false /\
    MaskGitTransformer.transformer_layers m = layers /\
    MaskGitTransformer.encoder_layer_norm m
    = (if MaskGitTransformer.use_encoder_layernorm a
       then Some (norm_cls (MaskGitTransformer.norm_type a)
                    (MaskGitTransformer.use_bias a) "encoder_layer_norm"
                    (MaskGitTransformer.hidden_size a)
                    (MaskGitTransformer.layer_norm_eps a))
       else None) /\
    MaskGitTransformer.mlm_layer m
    = (if MaskGitTransformer.use_mlm_layer a
       then Some (MlmLayer.init "mlm_layer" (MaskGitTransformer.hidden_size a)
                    (MaskGitTransformer.vocab_size a) (MaskGitTransformer.norm_type a)
                    (MaskGitTransformer.layer_norm_eps a)
                    (MaskGitTransformer.use_mlm_layernorm a)
                    (MaskGitTransformer.use_bias a))
       else None) /\
    MaskGitTransformer.to_logits m
    = (if MaskGitTransformer.use_mlm_layer a then None
       else Some (Build_Linear "to_logits" (MaskGitTransformer.hidden_size a)
                    (MaskGitTransformer.vocab_size a) (MaskGitTransformer.use_bias a))) /\
    MaskGitTransformer.training m = true.
Proof.
  unfold MaskGitTransformer.init, Embed.new. intros H.
  destruct (nn_Dropout (MaskGitTransformer.hidden_dropout a)); [discriminate|].
  cbn [try] in H.
  destruct (MaskGitTransformer.project_encoder_hidden_states a); [discriminate|].
  split; [done|]. cbn [try] in H.
  match type of H with
  | try ?r _ = _ => destruct r as [err|layers] eqn:Hl; [discriminate|]
  end.
  cbn [try] in H.
  match type of H with
  | try ?r _ = _ => destruct r as [err|[]]; [discriminate|]
  end.
  cbn [try] in H. injection H as <-. exists layers. by split_and!.
Qed.

Lemma layers_forward_shape hs it nh ehsz aca hd ad nt eps un ub
    (layers : list TransformerLayer.t) (gc : bool) e x b s s' w :
  Forall (fun layer => exists name,
            TransformerLayer.init name hs it nh ehsz aca hd ad nt eps un ub
            = inr layer) layers ->
  (0 < b)%nat -> shape3 b s hs x ->
  match e with
  | Some c => aca = true /\ shape3 b s' ehsz c
  | None => True
  end ->
  exists y w',
    for_each
      (fun layer hidden_states =>
         if gc then
           MaskGitTransformer.checkpoint (TransformerLayer.forward layer)
             hidden_states e None
         else TransformerLayer.forward layer hidden_states e None)
      layers x w = (inr y, w') /\
    shape3 b s hs y.
Proof.
  intros Hl Hb Hx He. revert x w Hx.
  induction Hl as [|layer layers [name Hinit] _ IH]; intros x w Hx; simpl.
  - by exists x, w.
  - destruct (TransformerLayer_forward_shape name hs it nh ehsz aca hd ad nt eps un ub
                layer x e b s s' w Hinit Hb Hx He) as (y & w1 & Hy & Hys).
    assert ((if gc then
               MaskGitTransformer.checkpoint (TransformerLayer.forward layer) x e None
             else TransformerLayer.forward layer x e None) w = (inr y, w1)) as Hstep
      by (by destruct gc).
    rewrite (bind_step _ _ _ _ _ Hstep). by apply IH.
Qed.

Lemma TransformerLayer_forward_mask name hs it nh ehsz hd ad nt eps un ub layer
    x c mask b s s' w :
  TransformerLayer.init name hs it nh ehsz true hd ad nt eps un ub = inr layer ->
  (0 < b)%nat -> shape3 b s hs x -> shape3 b s' ehsz c ->
  fst (TransformerLayer.forward layer x (Some c) (Some mask) w) = inl TypeError.
Proof.
  intros Hinit Hb Hx Hc.
  apply TransformerLayer_init_inr in Hinit
    as (att & Hatt & Ha & Hun & Hn & Hpn & Hffn & Hcn & Hpcn & Hca).
  unfold TransformerLayer.forward. cbv zeta.
  rewrite Hn, Ha, Hun, Hpn, Hffn, Hcn, Hpcn.
  destruct (Norm_cls_forward_shape nt ub (name +:+ ".attn_layer_norm") hs eps
              b s x w Hx) as (h & w1 & H1 & Hh).
  rewrite (bind_step _ _ _ _ _ H1).
  destruct (Attention_forward_shape _ _ _ _ _ _ _ h None b s s w1 Hatt Hb Hh eq_refl)
    as (a & w2 & H2 & Has).
  rewrite (bind_step _ _ _ _ _ H2).
  destruct (normformer_step nt ub (name +:+ ".post_attn_layer_norm") hs eps un a b s w2
              Has) as (a' & w3 & H3 & Ha's).
  rewrite (bind_step _ _ _ _ _ H3).
  destruct (add_shape x a' b s hs w3 Hx Ha's) as (r & Hr & Hrs).
  rewrite (bind_step _ _ _ _ _ Hr).
  destruct Hca as (catt & Hcatt & Hca). rewrite Hca.
  assert (attribute (Some (norm_cls nt ub (name +:+ ".crossattn_layer_norm") hs eps)) w3
          = (inr (norm_cls nt ub (name +:+ ".crossattn_layer_norm") hs eps), w3))
    as Hat by reflexivity.
  unfold bind at 1. unfold bind at 1. rewrite Hat.
  destruct (Norm_cls_forward_shape nt ub (name +:+ ".crossattn_layer_norm") hs eps
              b s r w3 Hrs) as (n & wd & Hnn & Hns).
  unfold bind at 1. rewrite Hnn.
  unfold bind at 1. cbn [attribute as_tensor ret].
  unfold bind at 1.
  pose proof (Attention_forward_mask _ _ _ _ _ _ _ n (Some c) mask b s s' wd
                Hcatt Hb Hns Hc) as Hfail.
  destruct (Attention.forward catt n (Some c) (Some mask) wd) as [[err|?] ?];
    simpl in Hfail; [|discriminate].
  by injection Hfail as ->.
Qed.

Lemma Embed_forward_returns (cfg : config) name D H p nt eps ub (ids : grid) b s w :
  rect b s ids -> (0 < b)%nat -> valid_embedding_index cfg ids = true ->
  exists X w',
    Embed.forward (Embed.init name (vocab_size cfg) D H p
                     (max_position_embeddings cfg) nt eps ub false false) ids w
    = (inr X, w') /\ shape3 b s D X.
Proof.
  intros Hr Hb Hv.
  destruct (Embed_forward_cases cfg name D H p nt eps ub ids b s w Hr Hb)
    as [_ Hok].
  destruct (Hok Hv) as (X & HX & HXs & _). rewrite HX.
  exact (Dropout_forward_shape p b s D X w HXs).
Qed.

Lemma model_tail_shape (a : MaskGitTransformer.arguments) m x b s w :
  MaskGitTransformer.init a = inr m ->
  shape3 b s (MaskGitTransformer.hidden_size a) x ->
  exists logits w',
    (let* hidden_states :=
       if MaskGitTransformer.use_encoder_layernorm a then
         let* norm := attribute (MaskGitTransformer.encoder_layer_norm m) in
         Norm_forward norm x
       else ret x in
     let* logits :=
       if MaskGitTransformer.use_mlm_layer a then
         let* mlm := attribute (MaskGitTransformer.mlm_layer m) in
         MlmLayer.forward mlm hidden_states
       else
         let* to_logits := attribute (MaskGitTransformer.to_logits m) in
         Linear_forward to_logits hidden_states in
     ret (logits, @None Q)) w = (inr (logits, None), w') /\
    shape3 b s (MaskGitTransformer.vocab_size a) logits.
Proof.
  intros Hinit Hx.
  apply MaskGitTransformer_init_inr in Hinit
    as (_ & layers & _ & Hcfg & _ & _ & Hln & Hmlm & Hto & _).
  rewrite Hln, Hmlm, Hto.
  assert (exists h w1,
            (if MaskGitTransformer.use_encoder_layernorm a then
               let* norm := attribute
                 (if MaskGitTransformer.use_encoder_layernorm a
                  then Some (norm_cls (MaskGitTransformer.norm_type a)
                               (MaskGitTransformer.use_bias a) "encoder_layer_norm"
                               (MaskGitTransformer.hidden_size a)
                               (MaskGitTransformer.layer_norm_eps a))
                  else None) in
               Norm_forward norm x
             else ret x) w = (inr h, w1) /\
            shape3 b s (MaskGitTransformer.hidden_size a) h) as (h & w1 & Hh & Hhs).
  { destruct (MaskGitTransformer.use_encoder_layernorm a); [|by exists x, w].
    apply (Norm_cls_forward_shape _ _ _ _ _ b s x w Hx). }
  rewrite (bind_step _ _ _ _ _ Hh).
  assert (exists l w2,
            (if MaskGitTransformer.use_mlm_layer a then
               let* mlm := attribute
                 (if MaskGitTransformer.use_mlm_layer a
                  then Some (MlmLayer.init "mlm_layer" (MaskGitTransformer.hidden_size a)
                               (MaskGitTransformer.vocab_size a)
                               (MaskGitTransformer.norm_type a)
                               (MaskGitTransformer.layer_norm_eps a)
                               (MaskGitTransformer.use_mlm_layernorm a)
                               (MaskGitTransformer.use_bias a))
                  else None) in
               MlmLayer.forward mlm h
             else
               let* to_logits := attribute
                 (if MaskGitTransformer.use_mlm_layer a then None
                  else Some (Build_Linear "to_logits" (MaskGitTransformer.hidden_size a)
                               (MaskGitTransformer.vocab_size a)
                               (MaskGitTransformer.use_bias a))) in
               Linear_forward to_logits h) w1 = (inr l, w2) /\
            shape3 b s (MaskGitTransformer.vocab_size a) l) as (l & w2 & Hl & Hls).
  { destruct (MaskGitTransformer.use_mlm_layer a).
    - apply (MlmLayer_forward_shape _ _ _ _ _ _ _ h b s w1 Hhs).
    - apply (Linear_forward_shape
               (Build_Linear "to_logits" (MaskGitTransformer.hidden_size a)
                  (MaskGitTransformer.vocab_size a) (MaskGitTransformer.use_bias a))
               b s h w1 Hhs). }
  rewrite (bind_step _ _ _ _ _ Hl). by exists l, w2.
Qed.

End ModelFacts.

(** Forward pass.  Take a model that [__init__] has returned, token ids of
    shape (b, s) with [b > 0], and conditioning that fits the configuration:
    encoder states of shape (b, s', encoder_hidden_size) when
    [add_cross_attention] is set, none otherwise.  Without mask and labels,
    [forward] returns logits of shape (b, s, vocab_size) when every token
    lies in [0, vocab_size) and [s <= max_position_embeddings]; this holds
    in training mode with any [cond_dropout_prob].  When a token or the
    length is out of range it raises [IndexError] and leaves the world as
    it was. *)
Theorem forward_returns_logits `{E : Externals} `{K : !Kernels}
    {KL : KernelLaws K} (a : MaskGitTransformer.arguments)
    (m : MaskGitTransformer.t) (ids : grid) (e : option cond) (b s s' : nat)
    (label_smoothing cond_dropout_prob : Q) (w : world) :
  MaskGitTransformer.init a = inr m ->
  rect b s ids -> (0 < b)%nat ->
  match e with
  | Some c => MaskGitTransformer.add_cross_attention a = true /\
              shape3 b s' (MaskGitTransformer.encoder_hidden_size a) c
  | None => MaskGitTransformer.add_cross_attention a = false
  end ->
  (valid_embedding_index (config_of a) ids = true ->
   exists logits w',
     MaskGitTransformer.forward m ids e None None label_smoothing
       cond_dropout_prob w = (inr (logits, None), w') /\
     shape3 b s (MaskGitTransformer.vocab_size a) logits) /\
  (valid_embedding_index (config_of a) ids = false ->
   forall mask labels,
     MaskGitTransformer.forward m ids e mask labels label_smoothing
       cond_dropout_prob w = (inl IndexError, w)).
Proof.
  intros Hinit Hr Hb He.
  pose proof (MaskGitTransformer_init_inr a m Hinit)
    as (Hproj & layers & Hlayers & Hcfg & Hembed & Htl & _ & _ & _ & Htr).
  assert ((MaskGitTransformer.add_cross_attention a
           && negb (bool_decide (is_Some e))) = false) as Hguard.
  { destruct e as [c|].
    - rewrite bool_decide_eq_true_2 by eauto. apply andb_false_r.
    - by rewrite He. }
  unfold MaskGitTransformer.forward. rewrite Hcfg, Hguard, Hembed, Hproj.
  split.
  - intros Hv.
    destruct (Embed_forward_returns (config_of a) "embed"
                (MaskGitTransformer.hidden_size a) (MaskGitTransformer.hidden_size a)
                (MaskGitTransformer.hidden_dropout a) (MaskGitTransformer.norm_type a)
                (MaskGitTransformer.layer_norm_eps a) (MaskGitTransformer.use_bias a)
                ids b s w Hr Hb Hv) as (X & w1 & HX & HXs).
    cbn [config_of vocab_size max_position_embeddings] in HX.
    rewrite (bind_step _ _ _ _ _ HX).
    apply mapM_e_inr_Forall in Hlayers.
    assert (Forall (fun layer => exists name,
              TransformerLayer.init name
                (MaskGitTransformer.hidden_size a)
                (MaskGitTransformer.intermediate_size a)
                (MaskGitTransformer.num_attention_heads a)
                (MaskGitTransformer.encoder_hidden_size a)
                (MaskGitTransformer.add_cross_attention a)
                (MaskGitTransformer.hidden_dropout a)
                (MaskGitTransformer.attention_dropout a)
                (MaskGitTransformer.norm_type a)
                (MaskGitTransformer.layer_norm_eps a)
                (MaskGitTransformer.use_normformer a)
                (MaskGitTransformer.use_bias a) = inr layer) layers) as HF.
    { eapply Forall_impl; [exact Hlayers|]. intros layer [i Hi]. eauto. }
    rewrite Htl.
    destruct e as [c|].
    + destruct He as [Haca Hc].
      rewrite (bind_step _ _ _ _ _ (eq_refl : ret (Some c) w1 = (inr (Some c), w1))).
      destruct (cond_dropout_step (MaskGitTransformer.training m) cond_dropout_prob
                  c w1) as (c' & w2 & Hdrop & Hc').
      rewrite (bind_step _ _ _ _ _ Hdrop).
      destruct (layers_forward_shape _ _ _ _ _ _ _ _ _ _ _ layers
                  (MaskGitTransformer.gradient_checkpointing m) (Some c') X b s s' w2
                  HF Hb HXs (conj Haca (Hc' _ _ _ Hc))) as (y & w3 & Hy & Hys).
      rewrite (bind_step _ _ _ _ _ Hy).
      exact (model_tail_shape a m y b s w3 Hinit Hys).
    + rewrite (bind_step _ _ _ _ _ (eq_refl : ret None w1 = (inr None, w1))).
      rewrite (bind_step _ _ _ _ _ (eq_refl : ret None w1 = (inr None, w1))).
      destruct (layers_forward_shape _ _ _ _ _ _ _ _ _ _ _ layers
                  (MaskGitTransformer.gradient_checkpointing m) None X b s s' w1
                  HF Hb HXs I) as (y & w3 & Hy & Hys).
      rewrite (bind_step _ _ _ _ _ Hy).
      exact (model_tail_shape a m y b s w3 Hinit Hys).
  - intros Hv mask labels.
    destruct (Embed_forward_cases (config_of a) "embed"
                (MaskGitTransformer.hidden_size a) (MaskGitTransformer.hidden_size a)
                (MaskGitTransformer.hidden_dropout a) (MaskGitTransformer.norm_type a)
                (MaskGitTransformer.layer_norm_eps a) (MaskGitTransformer.use_bias a)
                ids b s w Hr Hb) as [Hbad _].
    specialize (Hbad Hv). cbn [config_of vocab_size max_position_embeddings] in Hbad.
    unfold bind at 1. by rewrite Hbad.
Qed.

Lemma forward_returns_logits_witness :
  exists m logits w',
    MaskGitTransformer.init (K := toy_kernels) toy_arguments = inr m /\
    MaskGitTransformer.forward (K := toy_kernels) m [[5; 0; 2]; [1; 1; 5]]%Z
      (Some [[[1; 0; 1]]; [[0; 1; 0]]]%Q) None None 0 (1 # 10) (Toy.world0 1)
    = (inr (logits, None), w') /\
    shape3 2 3 6 logits.
Proof.
  destruct (MaskGitTransformer.init (K := toy_kernels) toy_arguments)
    as [err|m] eqn:Hm; [vm_compute in Hm; discriminate|].
  destruct (forward_returns_logits (KL := toy_kernel_laws) toy_arguments m
              [[5; 0; 2]; [1; 1; 5]]%Z (Some [[[1; 0; 1]]; [[0; 1; 0]]]%Q)
              2 3 1 0 (1 # 10) (Toy.world0 1) Hm) as [Hok _].
  - by repeat constructor.
  - lia.
  - split; [reflexivity | by repeat constructor].
  - destruct (Hok eq_refl) as (logits & w' & H & Hs). by exists m, logits, w'.
Defined.

Lemma bind_fails `{E : Externals} {A B} (m : M A) (k : A -> M B) w e :
  fst (m w) = inl e -> fst (bind m k w) = inl e.
Proof. unfold bind. destruct (m w) as [[?|?] ?]; simpl; intros H; [by injection H as ->|discriminate]. Qed.

Lemma mapM_e_seq_head {X B} (f : nat -> X + B) (n : nat) (r : list B) :
  mapM_e f (seq 0 (S n)) = inr r ->
  exists b rest, f 0%nat = inr b /\ r = b :: rest.
Proof.
  cbn [seq mapM_e]. destruct (f 0%nat) as [e|b]; [discriminate|]. cbn [try].
  destruct (mapM_e f (seq 1 n)) as [e|rest]; [discriminate|]. cbn [try].
  intros H. injection H as <-. eauto.
Qed.

(** Conditioning that the model cannot use.  On a model that [__init__] has
    returned and valid token ids: a model with cross attention raises
    [ValueError] when no encoder states are given; a model without cross
    attention, with at least one layer, raises [AttributeError] when
    encoder states are given, whatever their shape; and a model with cross
    attention and at least one layer raises [TypeError] whenever an
    [encoder_attention_mask] comes with well-shaped encoder states. *)
Theorem forward_rejects_unusable_conditioning `{E : Externals} `{K : !Kernels}
    {KL : KernelLaws K} (a : MaskGitTransformer.arguments)
    (m : MaskGitTransformer.t) (ids : grid) (b s : nat)
    (label_smoothing cond_dropout_prob : Q) (w : world) :
  MaskGitTransformer.init a = inr m ->
  rect b s ids -> (0 < b)%nat ->
  valid_embedding_index (config_of a) ids = true ->
  (MaskGitTransformer.add_cross_attention a = true ->
   forall mask labels,
     MaskGitTransformer.forward m ids None mask labels label_smoothing
       cond_dropout_prob w = (inl ValueError, w)) /\
  (MaskGitTransformer.add_cross_attention a = false ->
   (0 < MaskGitTransformer.num_hidden_layers a)%nat ->
   forall c mask labels,
     fst (MaskGitTransformer.forward m ids (Some c) mask labels label_smoothing
            cond_dropout_prob w) = inl AttributeError) /\
  (MaskGitTransformer.add_cross_attention a = true ->
   (0 < MaskGitTransformer.num_hidden_layers a)%nat ->
   forall c s' mask labels,
     shape3 b s' (MaskGitTransformer.encoder_hidden_size a) c ->
     fst (MaskGitTransformer.forward m ids (Some c) (Some mask) labels
            label_smoothing cond_dropout_prob w) = inl TypeError).
Proof.
  intros Hinit Hr Hb Hv.
  pose proof (MaskGitTransformer_init_inr a m Hinit)
    as (Hproj & layers & Hlayers & Hcfg & Hembed & Htl & _ & _ & _ & Htr).
  destruct (Embed_forward_returns (config_of a) "embed"
              (MaskGitTransformer.hidden_size a) (MaskGitTransformer.hidden_size a)
              (MaskGitTransformer.hidden_dropout a) (MaskGitTransformer.norm_type a)
              (MaskGitTransformer.layer_norm_eps a) (MaskGitTransformer.use_bias a)
              ids b s w Hr Hb Hv) as (X & w1 & HX & HXs).
  cbn [config_of vocab_size max_position_embeddings] in HX.
  split_and!.
  - intros Haca mask labels. unfold MaskGitTransformer.forward.
    by rewrite Hcfg, Haca.
  - intros Haca Hn c mask labels.
    destruct (MaskGitTransformer.num_hidden_layers a) as [|n] eqn:Hnum; [lia|].
    apply mapM_e_seq_head in Hlayers as (l0 & rest & Hl0 & ->).
    rewrite Haca in Hl0.
    unfold MaskGitTransformer.forward.
    rewrite Hcfg, Haca, Hembed, Hproj, Htl. cbn [andb].
    rewrite (bind_step _ _ _ _ _ HX).
    rewrite (bind_step _ _ _ _ _ (eq_refl : ret (Some c) w1 = (inr (Some c), w1))).
    destruct (cond_dropout_step (MaskGitTransformer.training m) cond_dropout_prob
                c w1) as (c' & w2 & Hdrop & _).
    rewrite (bind_step _ _ _ _ _ Hdrop).
    apply bind_fails. cbn [for_each]. apply bind_fails.
    unfold MaskGitTransformer.checkpoint.
    destruct (MaskGitTransformer.gradient_checkpointing m);
      exact (TransformerLayer_forward_without_cross_attention _ _ _ _ _ _ _ _ _ _ _
               l0 X c' mask b s w2 Hl0 Hb HXs).
  - intros Haca Hn c s' mask labels Hc.
    destruct (MaskGitTransformer.num_hidden_layers a) as [|n] eqn:Hnum; [lia|].
    apply mapM_e_seq_head in Hlayers as (l0 & rest & Hl0 & ->).
    rewrite Haca in Hl0.
    unfold MaskGitTransformer.forward.
    rewrite Hcfg, Haca, Hembed, Hproj, Htl.
    rewrite bool_decide_eq_true_2 by eauto. cbn [andb negb].
    rewrite (bind_step _ _ _ _ _ HX).
    rewrite (bind_step _ _ _ _ _ (eq_refl : ret (Some c) w1 = (inr (Some c), w1))).
    destruct (cond_dropout_step (MaskGitTransformer.training m) cond_dropout_prob
                c w1) as (c' & w2 & Hdrop & Hc').
    rewrite (bind_step _ _ _ _ _ Hdrop).
    apply bind_fails. cbn [for_each]. apply bind_fails.
    unfold MaskGitTransformer.checkpoint.
    destruct (MaskGitTransformer.gradient_checkpointing m);
      exact (TransformerLayer_forward_mask _ _ _ _ _ _ _ _ _ _ _
               l0 X c' mask b s s' w2 Hl0 Hb HXs (Hc' _ _ _ Hc)).
Qed.

Lemma forward_rejects_unusable_conditioning_witness :
  exists m,
    MaskGitTransformer.init (K := toy_kernels) toy_arguments = inr m /\
    MaskGitTransformer.forward (K := toy_kernels) m [[5; 0; 2]; [1; 1; 5]]%Z
      None None None 0 0 (Toy.world0 1) = (inl ValueError, Toy.world0 1) /\
    fst (MaskGitTransformer.forward (K := toy_kernels) m [[5; 0; 2]; [1; 1; 5]]%Z
           (Some [[[1; 0; 1]]; [[0; 1; 0]]]%Q) (Some [[1]; [1]]%Q) None 0 0
           (Toy.world0 1)) = inl TypeError.
Proof.
  destruct (MaskGitTransformer.init (K := toy_kernels) toy_arguments)
    as [err|m] eqn:Hm; [vm_compute in Hm; discriminate|].
  destruct (forward_rejects_unusable_conditioning (KL := toy_kernel_laws)
              toy_arguments m [[5; 0; 2]; [1; 1; 5]]%Z 2 3 0 0 (Toy.world0 1) Hm)
    as (Hvalue & _ & Htype).
  - by repeat constructor.
  - lia.
  - reflexivity.
  - exists m. split_and!; [done | by apply Hvalue |].
    apply (Htype eq_refl) with (s' := 1%nat); [cbn; lia | by repeat constructor].
Defined.

(** * Guidance mixing in float32 *)





